(** * DungeonCrawler: the logic module [logic.cpp]

    A shallow embedding of the level loader, the map container, the player
    movement resolver and the monster chase of [src/logic.cpp], followed by
    the properties of the specification that concern them.

    Conventions of the embedding
    - a C++ [int] is a [Z]; where the source arithmetic can leave the 32-bit
      range the wrap-around is written out with [wrap32];
    - a [char] is an [ascii];
    - the dungeon map ([char**], an array of row arrays) is a list of rows,
      indexed with stdpp's list lookup and insert; an access outside the
      array is undefined behaviour and makes the computation [Undefined];
    - a by-reference parameter becomes an extra component of the result;
    - storage obtained with [new] lives in a heap of blocks, a [gmap] from
      addresses to map contents. *)

From Stdlib Require Import ZArith Lia Ascii String.
From stdpp Require Import base option list gmap strings.

Local Open Scope Z_scope.

(** ** Machine integers *)

Definition INT32_MAX : Z := 2147483647.
Definition INT32_MIN : Z := -2147483648.

(** Two's complement wrap-around of a 32-bit signed [int]. *)
Definition wrap32 (z : Z) : Z := (z + 2147483648) mod 4294967296 - 2147483648.

(** Division of [int]s truncates toward zero. *)
Definition int_div (a b : Z) : Z := Z.quot a b.

(** ** Undefined behaviour

    [exec A] is the outcome of running a piece of the program: [Done a] when
    it runs to completion with result [a], [Undefined] when it reads or writes
    outside an array or through a null or dangling pointer. *)

Abbreviation exec := option (only parsing).
Abbreviation Done := Some (only parsing).
Abbreviation Undefined := None (only parsing).

(** ** Constants of [logic.h]

    [logic.h] is not part of the sources at hand.  The tile characters it
    declares are taken as parameters: the eight [TILE_] constants are the
    fields of the class [Symbols].  Whatever relies on the constants being
    pairwise different says so with [distinct_symbols]. *)

Class Symbols : Type := {
  TILE_OPEN : ascii;
  TILE_PLAYER : ascii;
  TILE_TREASURE : ascii;
  TILE_AMULET : ascii;
  TILE_MONSTER : ascii;
  TILE_PILLAR : ascii;
  TILE_DOOR : ascii;
  TILE_EXIT : ascii
}.

Definition all_symbols `{Symbols} : list ascii :=
  [TILE_OPEN; TILE_PLAYER; TILE_TREASURE; TILE_AMULET;
   TILE_MONSTER; TILE_PILLAR; TILE_DOOR; TILE_EXIT].

Fixpoint pairwise_distinct (l : list ascii) : bool :=
  match l with
  | [] => true
  | x :: l' => forallb (λ y, negb (Ascii.eqb x y)) l' && pairwise_distinct l'
  end.

Definition distinct_symbols `{Symbols} : bool := pairwise_distinct all_symbols.

(** The characters of the customary [logic.h], used for concrete runs. *)
Definition dungeon_symbols : Symbols := {|
  TILE_OPEN := "-"; TILE_PLAYER := "o"; TILE_TREASURE := "$";
  TILE_AMULET := "@"; TILE_MONSTER := "M"; TILE_PILLAR := "+";
  TILE_DOOR := "?"; TILE_EXIT := "!"
|}%char.

(** Movement status flags; their values are listed in [doPlayerMove]. *)
Definition STATUS_STAY : Z := 0.
Definition STATUS_MOVE : Z := 1.
Definition STATUS_TREASURE : Z := 2.
Definition STATUS_AMULET : Z := 3.
Definition STATUS_LEAVE : Z := 4.
Definition STATUS_ESCAPE : Z := 5.

(** Keyboard inputs; their values are listed in [getDirection]. *)
Definition INPUT_STAY : ascii := "e"%char.
Definition MOVE_UP : ascii := "w"%char.
Definition MOVE_LEFT : ascii := "a"%char.
Definition MOVE_DOWN : ascii := "s"%char.
Definition MOVE_RIGHT : ascii := "d"%char.

(** ** Player and map *)

Record Player : Type := mkPlayer { row : Z; col : Z; treasure : Z }.

Abbreviation Grid := (list (list ascii)) (only parsing).

(** [map[r][c]] as an rvalue. *)
Definition load_cell (map : Grid) (r c : Z) : exec ascii :=
  if decide (0 ≤ r ∧ 0 ≤ c) then
    line ← map !! Z.to_nat r; line !! Z.to_nat c
  else Undefined.

(** [map[r][c] = v]. *)
Definition store_cell (map : Grid) (r c : Z) (v : ascii) : exec Grid :=
  if decide (0 ≤ r ∧ 0 ≤ c) then
    line ← map !! Z.to_nat r;
    if decide (Z.to_nat c < length line)%nat
    then Done (<[Z.to_nat r := <[Z.to_nat c := v]> line]> map)
    else Undefined
  else Undefined.

(** The map is a [maxRow] by [maxCol] rectangle. *)
Definition rect (map : Grid) (maxRow maxCol : Z) : bool :=
  (Z.of_nat (length map) =? maxRow) &&
  forallb (λ line : list ascii, Z.of_nat (length line) =? maxCol) map.

(** Number of cells that hold the tile [t]. *)
Fixpoint count_line (t : ascii) (line : list ascii) : nat :=
  match line with
  | [] => 0%nat
  | x :: line' => ((if decide (x = t) then 1 else 0) + count_line t line')%nat
  end.

Fixpoint count_tile (t : ascii) (map : Grid) : nat :=
  match map with
  | [] => 0%nat
  | line :: map' => (count_line t line + count_tile t map')%nat
  end.

(** ** Control flow of loops

    The body of a [for] loop either falls through to the next iteration,
    leaves the loop ([break]) or leaves the function ([return]). *)

Inductive ctl (St R : Type) : Type :=
  | Next (s : St)
  | Break (s : St)
  | Return (r : R).
Arguments Next {St R} s.
Arguments Break {St R} s.
Arguments Return {St R} r.

(** [for_loop n i body s]: [n] more iterations of a loop whose counter is at
    [i], started in state [s].  The result is [inl] of the state in which the
    loop was left or [inr] of the value returned from inside it. *)
Fixpoint for_loop {St R : Type} (n : nat) (i : Z)
    (body : Z → St → exec (ctl St R)) (s : St) : exec (St + R) :=
  match n with
  | O => Done (inl s)
  | S n' =>
      c ← body i s;
      match c with
      | Next s' => for_loop n' (i + 1) body s'
      | Break s' => Done (inl s')
      | Return r => Done (inr r)
      end
  end.

(** [for (int i = lo; i < hi; ++i) body] *)
Definition for_range {St R : Type} (lo hi : Z)
    (body : Z → St → exec (ctl St R)) (s : St) : exec (St + R) :=
  for_loop (Z.to_nat (hi - lo)) lo body s.

(** The same for a body that contains neither [break] nor [return]. *)
Fixpoint each_loop {St : Type} (n : nat) (i : Z)
    (body : Z → St → exec St) (s : St) : exec St :=
  match n with
  | O => Done s
  | S n' => s' ← body i s; each_loop n' (i + 1) body s'
  end.

Definition for_each {St : Type} (lo hi : Z) (body : Z → St → exec St) (s : St)
    : exec St :=
  each_loop (Z.to_nat (hi - lo)) lo body s.

(** A loop without [return] always ends by falling out of the loop. *)
Definition fell_through {St : Type} (r : St + Empty_set) : St :=
  match r with
  | inl s => s
  | inr e => match e : Empty_set with end
  end.

(** The inner loop of a nest hands a [return] on to the outer loop. *)
Definition nest {St R : Type} (r : St + R) : ctl St R :=
  match r with
  | inl s => Next s
  | inr v => Return v
  end.

(** ** Storage

    A [char**] is null or the address of a block of the heap; a block holds
    the rows of one map.  Allocation always succeeds (exhaustion of memory is
    not modelled) and returns an address that is not in use. *)

Inductive ptr : Type :=
  | nullptr
  | addr (a : nat).

#[global] Instance ptr_eq_dec : EqDecision ptr.
Proof. solve_decision. Defined.

Abbreviation Heap := (gmap nat (list (list ascii))) (only parsing).

Definition load_at (h : Heap) (p : ptr) (r c : Z) : exec ascii :=
  match p with
  | nullptr => Undefined
  | addr a => map ← h !! a; load_cell map r c
  end.

Definition store_at (h : Heap) (p : ptr) (r c : Z) (v : ascii) : exec Heap :=
  match p with
  | nullptr => Undefined
  | addr a => map ← h !! a; map' ← store_cell map r c v; Done (<[a := map']> h)
  end.

(** What [new char*[maxRow]] followed by [new char[maxCol]] for every row
    leaves in the fresh block before it is initialised. *)
Definition raw_block (maxRow maxCol : Z) : list (list ascii) :=
  replicate (Z.to_nat maxRow) (replicate (Z.to_nat maxCol) "000"%char).

Section Program.
Context `{Symbols}.

(** ** [createMap] *)
Definition createMap (h : Heap) (maxRow maxCol : Z) : exec (Heap * ptr) :=
  if decide (maxRow ≤ 0 ∨ maxCol ≤ 0) then Done (h, nullptr)
  else if decide (maxRow > int_div INT32_MAX maxCol) then Done (h, nullptr)
  else if decide (maxCol > int_div INT32_MAX maxRow) then Done (h, nullptr)
  else
    let a := fresh (dom h) in
    let map := addr a in
    let h := <[a := raw_block maxRow maxCol]> h in
    h ← for_each 0 maxRow (λ row h,
           for_each 0 maxCol (λ col h,
             store_at h map row col TILE_OPEN) h) h;
    Done (h, map).

(** ** [deleteMap]

    The rows below [maxRow] are released one by one, then the row table.
    The rows from [maxRow] on are not released: they stay in the heap, as a
    block of their own that no pointer designates any more.  Releasing more
    rows than the map has is undefined.  The result carries the new values
    of [map] and [maxRow]. *)
Definition deleteMap (h : Heap) (map : ptr) (maxRow : Z)
    : exec (Heap * ptr * Z) :=
  match map with
  | nullptr => Done (h, nullptr, 0)
  | addr a =>
      rows ← h !! a;
      if decide (maxRow ≤ Z.of_nat (length rows))
      then
        match drop (Z.to_nat maxRow) rows with
        | [] => Done (delete a h, nullptr, 0)
        | kept => Done (<[fresh (dom h) := kept]> (delete a h), nullptr, 0)
        end
      else Undefined
  end.

(** ** [resizeMap]

    The result carries the heap, the new values of [maxRow] and [maxCol]
    and the returned pointer. *)
Definition resizeMap (h : Heap) (map : ptr) (maxRow maxCol : Z)
    : exec (Heap * Z * Z * ptr) :=
  let originalRow := maxRow in
  let originalCol := maxCol in
  if decide (maxRow ≤ 0 ∨ maxCol ≤ 0) then Done (h, maxRow, maxCol, nullptr)
  else if decide (map = nullptr) then Done (h, maxRow, maxCol, nullptr)
  else
    let maxRow := wrap32 (maxRow * 2) in
    let maxCol := wrap32 (maxCol * 2) in
    if decide (maxRow > int_div INT32_MAX maxCol) then
      '(h, _, _) ← deleteMap h map originalRow;
      Done (h, maxRow, maxCol, nullptr)
    else
      '(h, newMap) ← createMap h maxRow maxCol;
      h ← for_each 0 originalRow (λ row h,
             for_each 0 originalCol (λ col h,
               v ← load_at h map row col;
               store_at h newMap row col v) h) h;
      h ← for_each 0 originalRow (λ row h,
             for_each 0 originalCol (λ col h,
               v ← load_at h map row col;
               h ← store_at h newMap (row + originalRow) col v;
               v ← load_at h map row col;
               if decide (v = TILE_PLAYER)
               then store_at h newMap (row + originalRow) col TILE_OPEN
               else Done h) h) h;
      h ← for_each 0 originalRow (λ row h,
             for_each 0 originalCol (λ col h,
               v ← load_at h map row col;
               h ← store_at h newMap row (col + originalCol) v;
               v ← load_at h map row col;
               if decide (v = TILE_PLAYER)
               then store_at h newMap row (col + originalCol) TILE_OPEN
               else Done h) h) h;
      h ← for_each 0 originalRow (λ row h,
             for_each 0 originalCol (λ col h,
               v ← load_at h map row col;
               h ← store_at h newMap (row + originalRow) (col + originalCol) v;
               v ← load_at h map row col;
               if decide (v = TILE_PLAYER)
               then store_at h newMap (row + originalRow) (col + originalCol)
                      TILE_OPEN
               else Done h) h) h;
      '(h, _, _) ← deleteMap h map originalRow;
      Done (h, maxRow, maxCol, newMap).

(** ** [getDirection]

    The result carries the new values of [nextRow] and [nextCol]. *)
Definition getDirection (input : ascii) (nextRow nextCol : Z) : Z * Z :=
  if decide (input = MOVE_UP) then (wrap32 (nextRow - 1), nextCol)
  else if decide (input = MOVE_DOWN) then (wrap32 (nextRow + 1), nextCol)
  else if decide (input = MOVE_LEFT) then (nextRow, wrap32 (nextCol - 1))
  else if decide (input = MOVE_RIGHT) then (nextRow, wrap32 (nextCol + 1))
  else if decide (input = INPUT_STAY) then (nextRow, nextCol)
  else (nextRow, nextCol).

(** ** [doPlayerMove]

    [map] is the array the pointer designates; the function reads and writes
    its cells only.  The result carries the map, the player and the returned
    status.  The four statements that carry the move out are the same in
    every branch of the source and are written once, as [step_onto]. *)
Definition step_onto (map : Grid) (player : Player)
    (origRow origCol nextRow nextCol : Z) : exec (Grid * Player) :=
  let player := mkPlayer nextRow (col player) (treasure player) in
  let player := mkPlayer (row player) nextCol (treasure player) in
  map ← store_cell map nextRow nextCol TILE_PLAYER;
  map ← store_cell map origRow origCol TILE_OPEN;
  Done (map, player).

Definition doPlayerMove (map : Grid) (maxRow maxCol : Z) (player : Player)
    (nextRow nextCol : Z) : exec (Grid * Player * Z) :=
  let origRow := row player in
  let origCol := col player in
  if decide (nextRow >= maxRow ∨ nextCol >= maxCol) then
    Done (map, player, STATUS_STAY)
  else if decide (nextRow < 0 ∨ nextCol < 0) then
    Done (map, player, STATUS_STAY)
  else
    target ← load_cell map nextRow nextCol;
    if decide (target = TILE_MONSTER ∨ target = TILE_PILLAR) then
      Done (map, player, STATUS_STAY)
    else if decide (target = TILE_EXIT ∧ treasure player = 0) then
      Done (map, player, STATUS_STAY)
    else if decide (target = TILE_EXIT ∧ treasure player ≠ 0) then
      '(map, player) ← step_onto map player origRow origCol nextRow nextCol;
      Done (map, player, STATUS_ESCAPE)
    else if decide (target = TILE_DOOR) then
      '(map, player) ← step_onto map player origRow origCol nextRow nextCol;
      Done (map, player, STATUS_LEAVE)
    else if decide (target = TILE_TREASURE) then
      let player :=
        mkPlayer (row player) (col player) (wrap32 (treasure player + 1)) in
      '(map, player) ← step_onto map player origRow origCol nextRow nextCol;
      Done (map, player, STATUS_TREASURE)
    else if decide (target = TILE_AMULET) then
      '(map, player) ← step_onto map player origRow origCol nextRow nextCol;
      Done (map, player, STATUS_AMULET)
    else if decide (target = TILE_OPEN) then
      '(map, player) ← step_onto map player origRow origCol nextRow nextCol;
      Done (map, player, STATUS_MOVE)
    else Done (map, player, 0).

(** ** [doMonsterAttack]

    The body of each of the four loops: the cell looked at is [(r, c)], the
    cell one step closer to the player is [(r', c')]. *)
Definition chase (r c r' c' : Z) (i : Z) (s : Grid * bool)
    : exec (ctl (Grid * bool) Empty_set) :=
  let '(map, eaten) := s in
  here ← load_cell map r c;
  if decide (here = TILE_MONSTER) then
    map ← store_cell map r c TILE_OPEN;
    map ← store_cell map r' c' TILE_MONSTER;
    Done (Next (map, if decide (i = 1) then true else eaten))
  else if decide (here = TILE_PILLAR) then Done (Break (map, eaten))
  else Done (Next (map, eaten)).

Definition doMonsterAttack (map : Grid) (maxRow maxCol : Z) (player : Player)
    : exec (Grid * bool) :=
  let pRow := row player in
  let pCol := col player in
  let eaten := false in
  let upLength := pRow in
  let downLength := (maxRow - 1) - pRow in
  let rightLength := (maxCol - 1) - pCol in
  let leftLength := pCol in
  s ← fell_through <$> for_range 1 (upLength + 1) (λ i,
        chase (pRow - i) pCol (pRow - i + 1) pCol i) (map, eaten);
  s ← fell_through <$> for_range 1 (downLength + 1) (λ i,
        chase (pRow + i) pCol (pRow + i - 1) pCol i) s;
  s ← fell_through <$> for_range 1 (rightLength + 1) (λ i,
        chase pRow (pCol + i) pRow (pCol + i - 1) i) s;
  s ← fell_through <$> for_range 1 (leftLength + 1) (λ i,
        chase pRow (pCol - i) pRow (pCol - i + 1) i) s;
  let '(map, eaten) := (s : list (list ascii) * bool) in
  if eaten then Done (map, true) else Done (map, false).

End Program.

(** ** Input streams

    An [ifstream] is the text that is still to be read and the [failbit]
    and [eofbit] of its state (read errors of the device are not modelled).
    Formatted extraction skips leading white space; it does nothing but set
    [failbit] when the stream is not good on entry. *)

Record istream : Type := mkStream {
  buf : list ascii;
  failbit : bool;
  eofbit : bool
}.

Definition good (fin : istream) : bool := negb (failbit fin) && negb (eofbit fin).

Definition is_space (c : ascii) : bool :=
  let n := nat_of_ascii c in
  Nat.eqb n 32 || (Nat.leb 9 n && Nat.leb n 13).

Definition is_digit (c : ascii) : bool :=
  let n := nat_of_ascii c in
  Nat.leb 48 n && Nat.leb n 57.

Fixpoint skipws (l : list ascii) : list ascii :=
  match l with
  | [] => []
  | c :: l' => if is_space c then skipws l' else l
  end.

(** The longest run of digits at the head of the text, and what follows. *)
Fixpoint span_digits (l : list ascii) : list ascii * list ascii :=
  match l with
  | [] => ([], [])
  | c :: l' =>
      if is_digit c
      then let '(ds, rest) := span_digits l' in (c :: ds, rest)
      else ([], l)
  end.

Definition digits_value (ds : list ascii) : Z :=
  fold_left (λ acc c, 10 * acc + (Z.of_nat (nat_of_ascii c) - 48)) ds 0.

(** [fin >> spot] for a [char]: the next character that is not white space.
    At the end of the text the extraction fails and [spot] keeps its value. *)
Definition get_char (fin : istream) (spot : ascii) : istream * ascii :=
  if good fin then
    match skipws (buf fin) with
    | [] => (mkStream [] true true, spot)
    | c :: rest => (mkStream rest false false, c)
    end
  else (mkStream (buf fin) true (eofbit fin), spot).

(** [fin >> v] for an [int]: an optional sign and decimal digits.  Without
    a digit the extraction fails and stores 0; a value outside the range of
    [int] fails and stores the nearest bound; running into the end of the
    text while reading sets [eofbit]. *)
Definition get_int (fin : istream) (v : Z) : istream * Z :=
  if good fin then
    match skipws (buf fin) with
    | [] => (mkStream [] true true, v)
    | c :: rest =>
        let '(negative, body) :=
          if decide (c = "-"%char) then (true, rest)
          else if decide (c = "+"%char) then (false, rest)
          else (false, c :: rest) in
        let '(ds, rest') := span_digits body in
        let at_end := bool_decide (rest' = []) in
        match ds with
        | [] => (mkStream rest' true at_end, 0)
        | _ :: _ =>
            let n := digits_value ds in
            let n := if negative then - n else n in
            if decide (n > INT32_MAX) then (mkStream rest' true at_end, INT32_MAX)
            else if decide (n < INT32_MIN) then (mkStream rest' true at_end, INT32_MIN)
            else (mkStream rest' false at_end, n)
        end
    end
  else (mkStream (buf fin) true (eofbit fin), v).

(** The files that can be opened, by name. *)
Abbreviation FileSystem := (string → option (list ascii)) (only parsing).

Section Loader.
Context `{Symbols}.

(** ** [loadLevel]

    The result carries the heap, the new values of [maxRow], [maxCol] and
    [player], and the returned pointer.  The message printed when the file
    cannot be opened is not modelled. *)

(** State of the reading loops: the stream, [spot] and the heap.  A [return]
    from inside the loops hands back the heap of that moment. *)
Definition read_tile (map : ptr) (player : Player)
    : Z → Z → istream * ascii * gmap nat (list (list ascii)) →
      exec (ctl (istream * ascii * gmap nat (list (list ascii)))
                (gmap nat (list (list ascii)))) :=
  let player_row := row player in
  let player_col := col player in
  λ row col s,
  let '(fin, spot, h) := s in
  let '(fin, spot) := get_char fin spot in
  if failbit fin then Done (Return h)
  else if decide (row = player_row ∧ col = player_col) then
    h ← store_at h map row col TILE_PLAYER; Done (Next (fin, spot, h))
  else if decide (spot = TILE_TREASURE) then
    h ← store_at h map row col TILE_TREASURE; Done (Next (fin, spot, h))
  else if decide (spot = TILE_PILLAR) then
    h ← store_at h map row col TILE_PILLAR; Done (Next (fin, spot, h))
  else if decide (spot = TILE_OPEN) then
    h ← store_at h map row col TILE_OPEN; Done (Next (fin, spot, h))
  else if decide (spot = TILE_AMULET) then
    h ← store_at h map row col TILE_AMULET; Done (Next (fin, spot, h))
  else if decide (spot = TILE_MONSTER) then
    h ← store_at h map row col TILE_MONSTER; Done (Next (fin, spot, h))
  else if decide (spot = TILE_DOOR) then
    h ← store_at h map row col TILE_DOOR; Done (Next (fin, spot, h))
  else if decide (spot = TILE_EXIT) then
    h ← store_at h map row col TILE_EXIT; Done (Next (fin, spot, h))
  else Done (Return h).

(** Body of the loops that look for a door or an exit; the state is
    [(hasDoor, hasExit)]. *)
Definition find_way_out (h : gmap nat (list (list ascii))) (map : ptr)
    (row col : Z) (s : bool * bool) : exec (bool * bool) :=
  let '(hasDoor, hasExit) := s in
  here ← load_at h map row col;
  if decide (here = TILE_EXIT) then
    if bool_decide (hasExit = false) then Done (hasDoor, true)
    else Done (hasDoor, hasExit)
  else
    here ← load_at h map row col;
    if decide (here = TILE_DOOR) then
      if bool_decide (hasDoor = false) then Done (true, hasExit)
      else Done (hasDoor, hasExit)
    else Done (hasDoor, hasExit).

Definition loadLevel (fs : FileSystem) (fileName : string)
    (h : gmap nat (list (list ascii))) (maxRow maxCol : Z) (player : Player)
    : exec (gmap nat (list (list ascii)) * Z * Z * Player * ptr) :=
  match fs fileName with
  | None => Done (h, maxRow, maxCol, player, nullptr)
  | Some text =>
    let fin := mkStream text false false in
    let '(fin, maxRow) := get_int fin maxRow in
    if failbit fin then Done (h, maxRow, maxCol, player, nullptr) else
    let '(fin, maxCol) := get_int fin maxCol in
    if failbit fin then Done (h, maxRow, maxCol, player, nullptr) else
    let totalSpots := wrap32 (maxRow * maxCol) in
    if decide (totalSpots ≤ 1) then Done (h, maxRow, maxCol, player, nullptr)
    else
    '(h, map) ← createMap h maxRow maxCol;
    let spot := "000"%char in
    let '(fin, v) := get_int fin (row player) in
    let player := mkPlayer v (col player) (treasure player) in
    if failbit fin then Done (h, maxRow, maxCol, player, nullptr) else
    let '(fin, v) := get_int fin (col player) in
    let player := mkPlayer (row player) v (treasure player) in
    if failbit fin then Done (h, maxRow, maxCol, player, nullptr) else
    if decide (col player >= maxCol ∨ row player >= maxRow) then
      Done (h, maxRow, maxCol, player, nullptr)
    else if decide (col player < 0 ∨ row player < 0) then
      Done (h, maxRow, maxCol, player, nullptr)
    else
    r ← for_range 0 maxRow (λ row s,
          nest <$> for_range 0 maxCol (λ col s,
            read_tile map player row col s) s) (fin, spot, h);
    match r with
    | inr h => Done (h, maxRow, maxCol, player, nullptr)
    | inl (fin, spot, h) =>
      let '(fin, spot) := get_char fin spot in
      if negb (eofbit fin) then Done (h, maxRow, maxCol, player, nullptr) else
      let hasDoor := false in
      let hasExit := false in
      '(hasDoor, hasExit) ←
        for_each 0 maxRow (λ row s,
          for_each 0 maxCol (λ col s,
            find_way_out h map row col s) s) (hasDoor, hasExit);
      if bool_decide (hasDoor = false) && bool_decide (hasExit = false)
      then Done (h, maxRow, maxCol, player, nullptr)
      else Done (h, maxRow, maxCol, player, map)
    end
  end.

End Loader.

(** ** States the operations are meant for

    A map and a player belong together when the map is a rectangle, the
    player's coordinates lie inside it and designate a cell holding
    [TILE_PLAYER], no other cell holds [TILE_PLAYER], and the treasure count
    is not negative.  All the numbers are [int]s. *)

Definition in_int (z : Z) : bool := (INT32_MIN <=? z) && (z <=? INT32_MAX).

Definition valid_state `{Symbols} (map : Grid) (maxRow maxCol : Z)
    (player : Player) : bool :=
  rect map maxRow maxCol
  && in_int maxRow && in_int maxCol
  && (0 <=? row player) && (row player <? maxRow)
  && (0 <=? col player) && (col player <? maxCol)
  && bool_decide (load_cell map (row player) (col player) = Some TILE_PLAYER)
  && Nat.eqb (count_tile TILE_PLAYER map) 1
  && (0 <=? treasure player) && in_int (treasure player).

(** ** Rays of the monster chase

    Vocabulary for what [doMonsterAttack] does along one ray.  [cell i] is
    the cell at distance [i] from the player; the cells at the distances
    [lo] to [hi] are those the loop looks at. *)

Definition tile_at (map : Grid) (pos : Z * Z) : exec ascii :=
  load_cell map pos.1 pos.2.

(** A monster stands at distance [k] and no pillar stands between the
    player and it. *)
Definition monster_seen `{Symbols} (map : Grid) (cell : Z → Z * Z)
    (lo hi k : Z) : Prop :=
  lo ≤ k ≤ hi ∧
  (∀ t, lo ≤ t ≤ k → tile_at map (cell t) ≠ Some TILE_PILLAR) ∧
  tile_at map (cell k) = Some TILE_MONSTER.

(** What has become of the cell at distance [j] when the loop is left: it
    holds the monster that stood one step further out, or it has been
    vacated, or it is as before. *)
Definition ray_outcome `{Symbols} (map map' : Grid) (cell : Z → Z * Z)
    (lo hi j : Z) : Prop :=
  (monster_seen map cell lo hi (j + 1) ∧
   tile_at map' (cell j) = Some TILE_MONSTER) ∨
  (¬ monster_seen map cell lo hi (j + 1) ∧ monster_seen map cell lo hi j ∧
   tile_at map' (cell j) = Some TILE_OPEN) ∨
  (¬ monster_seen map cell lo hi (j + 1) ∧ ¬ monster_seen map cell lo hi j ∧
   tile_at map' (cell j) = tile_at map (cell j)).

(** The four rays, in the order in which they are scanned. *)
Inductive Dir : Type := Up | Down | Right | Left.

Definition ray_cell (player : Player) (d : Dir) (i : Z) : Z * Z :=
  match d with
  | Up => (row player - i, col player)
  | Down => (row player + i, col player)
  | Right => (row player, col player + i)
  | Left => (row player, col player - i)
  end.

Definition ray_length (maxRow maxCol : Z) (player : Player) (d : Dir) : Z :=
  match d with
  | Up => row player
  | Down => (maxRow - 1) - row player
  | Right => (maxCol - 1) - col player
  | Left => col player
  end.

Definition monster_in_sight `{Symbols} (map : Grid) (maxRow maxCol : Z)
    (player : Player) (d : Dir) (k : Z) : Prop :=
  monster_seen map (ray_cell player d) 1 (ray_length maxRow maxCol player d) k.

#[global] Instance Dir_eq_dec : EqDecision Dir.
Proof. solve_decision. Defined.

(** The loop of [doMonsterAttack] that scans the ray [d]. *)
Definition scan_ray `{Symbols} (maxRow maxCol : Z) (player : Player) (d : Dir)
    (s : Grid * bool) : exec (Grid * bool) :=
  let pRow := row player in
  let pCol := col player in
  match d with
  | Up =>
      fell_through <$> for_range 1 (pRow + 1) (λ i,
        chase (pRow - i) pCol (pRow - i + 1) pCol i) s
  | Down =>
      fell_through <$> for_range 1 ((maxRow - 1) - pRow + 1) (λ i,
        chase (pRow + i) pCol (pRow + i - 1) pCol i) s
  | Right =>
      fell_through <$> for_range 1 ((maxCol - 1) - pCol + 1) (λ i,
        chase pRow (pCol + i) pRow (pCol + i - 1) i) s
  | Left =>
      fell_through <$> for_range 1 (pCol + 1) (λ i,
        chase pRow (pCol - i) pRow (pCol - i + 1) i) s
  end.

(** The state [(map', eaten)] reached from [map] once the rays [scanned]
    have been dealt with. *)
Definition rays_done `{Symbols} (map : Grid) (maxRow maxCol : Z)
    (player : Player) (scanned : list Dir) (map' : Grid) (eaten : bool)
    : Prop :=
  rect map' maxRow maxCol = true ∧
  (∀ d j, d ∈ scanned → 1 ≤ j ≤ ray_length maxRow maxCol player d →
     ray_outcome map map' (ray_cell player d) 1
       (ray_length maxRow maxCol player d) j) ∧
  (∀ d j, d ∉ scanned → 1 ≤ j ≤ ray_length maxRow maxCol player d →
     tile_at map' (ray_cell player d j) = tile_at map (ray_cell player d j)) ∧
  (((∃ d, d ∈ scanned ∧ monster_in_sight map maxRow maxCol player d 1) ∧
    tile_at map' (row player, col player) = Some TILE_MONSTER) ∨
   ((∀ d, d ∈ scanned → ¬ monster_in_sight map maxRow maxCol player d 1) ∧
    tile_at map' (row player, col player) =
      tile_at map (row player, col player))) ∧
  (∀ pos,
     (∀ d j, 0 ≤ j ≤ ray_length maxRow maxCol player d →
             ray_cell player d j ≠ pos) →
     tile_at map' pos = tile_at map pos) ∧
  (eaten = true ↔
   ∃ d, d ∈ scanned ∧ monster_in_sight map maxRow maxCol player d 1).

(** ** Vocabulary for [resizeMap] *)

(** The tile a copy of [t] outside the original quadrant is given. *)
Definition without_player `{Symbols} (t : ascii) : ascii :=
  if decide (t = TILE_PLAYER) then TILE_OPEN else t.

(** The tile in a cell that is known to exist. *)
Definition tile_of (map : Grid) (r c : Z) : ascii :=
  default "000"%char (load_cell map r c).

(** ** Vocabulary for [loadLevel] *)

(** The seven tile characters a level file may contain. *)
Definition recognized `{Symbols} (t : ascii) : bool :=
  bool_decide (t ∈ [TILE_TREASURE; TILE_PILLAR; TILE_OPEN; TILE_AMULET;
                    TILE_MONSTER; TILE_DOOR; TILE_EXIT]).

(** The characters that extraction of [char]s will deliver from a stream,
    in order: none when the stream is not good, otherwise what is left of
    the text without its white space. *)
Definition tile_tokens (fin : istream) : list ascii :=
  if good fin then filter (λ c, is_space c = false) (buf fin) else [].

(** The four numbers at the head of a level file, as [loadLevel] reads
    them, and the stream behind them. *)
Definition read_header (text : list ascii)
    : option (Z * Z * Z * Z * istream) :=
  let fin := mkStream text false false in
  let '(fin, maxRow) := get_int fin 0 in
  if failbit fin then None else
  let '(fin, maxCol) := get_int fin 0 in
  if failbit fin then None else
  let '(fin, startRow) := get_int fin 0 in
  if failbit fin then None else
  let '(fin, startCol) := get_int fin 0 in
  if failbit fin then None else
  Some (maxRow, maxCol, startRow, startCol, fin).

(** The state of the reading loops of [loadLevel] when the cells before
    [(rw, cl)], in row-major order, have been read: the block [b] of the heap
    holds a rectangle in which each of these cells holds the player, if it is
    the start cell, and otherwise the token read for it, a recognized one; the
    other cells are as in [g0]; the stream stands behind the tokens read. *)
Definition tiles_read `{Symbols} (h0 : Heap) (b : nat) (g0 : Grid)
    (maxRow maxCol : Z) (player : Player) (tokens : list ascii) (rw cl : Z)
    (s : istream * ascii * Heap) : Prop :=
  ∃ g : Grid,
    s.2 = <[b := g]> h0 ∧
    rect g maxRow maxCol = true ∧
    tile_tokens s.1.1 = drop (Z.to_nat (rw * maxCol + cl)) tokens ∧
    (∀ r c, 0 ≤ r < maxRow → 0 ≤ c < maxCol →
       load_cell g r c =
         if decide (r < rw ∨ (r = rw ∧ c < cl)) then
           if decide (r = row player ∧ c = col player) then Some TILE_PLAYER
           else tokens !! Z.to_nat (r * maxCol + c)
         else load_cell g0 r c) ∧
    (∀ r c, 0 ≤ r < maxRow → 0 ≤ c < maxCol →
       r < rw ∨ (r = rw ∧ c < cl) →
       ¬ (r = row player ∧ c = col player) →
       ∃ t, tokens !! Z.to_nat (r * maxCol + c) = Some t ∧
            recognized t = true).

(** A level file for concrete runs: two rows of two cells, the start at
    row 0, column 1, where the file has a character that is no tile. *)
Definition sample_level : list ascii :=
  list_ascii_of_string "2 2 0 1 - x ! -".

(** The same with the foreign character in a cell that is not the start. *)
Definition broken_level : list ascii :=
  list_ascii_of_string "2 2 0 0 - x ! -".

(** The sample level with an open tile in the start cell. *)
Definition plain_level : list ascii :=
  list_ascii_of_string "2 2 0 1 - - ! -".

Definition sample_files (name : string) : option (list ascii) :=
  if decide (name = "sample.txt"%string) then Some sample_level
  else if decide (name = "broken.txt"%string) then Some broken_level
  else None.

(** ** Repeated monster turns

    [attack_rounds n] calls [doMonsterAttack] up to [n] times in a row for a
    player that stays put, one call after the other on the map the call
    before has left, and stops at the first call that returns true.  The
    result tells whether one of the calls has returned true. *)
Fixpoint attack_rounds `{Symbols} (n : nat) (map : Grid) (maxRow maxCol : Z)
    (player : Player) : exec bool :=
  match n with
  | O => Done false
  | S n' =>
      '(map', eaten) ← doMonsterAttack map maxRow maxCol player;
      if (eaten : bool) then Done true
      else attack_rounds n' map' maxRow maxCol player
  end.

(** ** More vocabulary for [loadLevel] *)

(** The file has no token for the cell [(r, c)], or one that is not a
    recognized tile character although the cell is not the start cell. *)
Definition tile_missing_or_unknown `{Symbols} (tokens : list ascii)
    (maxCol : Z) (player : Player) (r c : Z) : Prop :=
  tokens !! Z.to_nat (r * maxCol + c) = None ∨
  (¬ (r = row player ∧ c = col player) ∧
   ∃ t, tokens !! Z.to_nat (r * maxCol + c) = Some t ∧ recognized t = false).

(** A level file [loadLevel] accepts: a readable header with positive
    dimensions, more than one cell and at most [INT32_MAX] of them, a start
    cell inside the map, exactly one token per cell, all of them recognized
    except possibly the one of the start cell, and a door or an exit in some
    cell other than the start cell. *)
Definition well_formed_level `{Symbols} (text : list ascii)
    (maxRow maxCol sr sc : Z) (fin : istream) : Prop :=
  read_header text = Some (maxRow, maxCol, sr, sc, fin) ∧
  0 < maxRow ∧ 0 < maxCol ∧ 1 < maxRow * maxCol ≤ INT32_MAX ∧
  0 ≤ sr < maxRow ∧ 0 ≤ sc < maxCol ∧
  Z.of_nat (length (tile_tokens fin)) = maxRow * maxCol ∧
  (∀ r c, 0 ≤ r < maxRow → 0 ≤ c < maxCol → ¬ (r = sr ∧ c = sc) →
     ∃ t, tile_tokens fin !! Z.to_nat (r * maxCol + c) = Some t ∧
          recognized t = true) ∧
  (∃ r c, 0 ≤ r < maxRow ∧ 0 ≤ c < maxCol ∧ ¬ (r = sr ∧ c = sc) ∧
     (tile_tokens fin !! Z.to_nat (r * maxCol + c) = Some TILE_DOOR ∨
      tile_tokens fin !! Z.to_nat (r * maxCol + c) = Some TILE_EXIT)).

(** The reading loops of [loadLevel] have come to [(rw, cl)] without a
    [return]: [tiles_read] holds, the tokens read so far were all there, and
    after the first token the stream is good. *)
Definition tiles_read_well `{Symbols} (h0 : Heap) (b : nat) (g0 : Grid)
    (maxRow maxCol : Z) (player : Player) (tokens : list ascii) (rw cl : Z)
    (s : istream * ascii * Heap) : Prop :=
  tiles_read h0 b g0 maxRow maxCol player tokens rw cl s ∧
  rw * maxCol + cl ≤ Z.of_nat (length tokens) ∧
  (0 < rw * maxCol + cl → good s.1.1 = true).

(** The reading loops have been left by a [return]: the heap handed back
    still holds the block [b], and some cell has no token or an unknown
    one. *)
Definition tiles_refused `{Symbols} (h0 : Heap) (b : nat)
    (maxRow maxCol : Z) (player : Player) (tokens : list ascii)
    (hh : Heap) : Prop :=
  (∃ g : Grid, hh = <[b := g]> h0) ∧
  ∃ r c, 0 ≤ r < maxRow ∧ 0 ≤ c < maxCol ∧
         tile_missing_or_unknown tokens maxCol player r c.

(** The flags of the search for a way out when the cells before [(rw, cl)]
    have been looked at: [hasDoor] tells whether one of them holds a door,
    [hasExit] whether one of them holds the exit. *)
Definition way_out_flags `{Symbols} (g : Grid) (maxRow maxCol rw cl : Z)
    (s : bool * bool) : Prop :=
  (s.1 = true ↔
   ∃ r c, 0 ≤ r < maxRow ∧ 0 ≤ c < maxCol ∧ (r < rw ∨ (r = rw ∧ c < cl)) ∧
          load_cell g r c = Some TILE_DOOR) ∧
  (s.2 = true ↔
   ∃ r c, 0 ≤ r < maxRow ∧ 0 ≤ c < maxCol ∧ (r < rw ∨ (r = rw ∧ c < cl)) ∧
          load_cell g r c = Some TILE_EXIT).

(** * Properties *)

(** ** Cells of a rectangular map *)

Lemma rect_spec (map : list (list ascii)) (maxRow maxCol : Z) :
  rect map maxRow maxCol = true ↔
  Z.of_nat (length map) = maxRow ∧
  ∀ (i : nat) (line : list ascii),
    map !! i = Some line → Z.of_nat (length line) = maxCol.
Proof.
  unfold rect. rewrite andb_true_iff, Z.eqb_eq, forallb_forall.
  split; intros [Hlen Hrows]; split; try done.
  - intros i line Hi. apply Z.eqb_eq, Hrows.
    apply list_elem_of_In, list_elem_of_lookup. by exists i.
  - intros line Hin. apply list_elem_of_In, list_elem_of_lookup in Hin.
    destruct Hin as [i Hi]. apply Z.eqb_eq. by eapply Hrows.
Qed.

Lemma load_cell_inside (map : list (list ascii)) (maxRow maxCol r c : Z) :
  rect map maxRow maxCol = true →
  0 ≤ r < maxRow → 0 ≤ c < maxCol →
  ∃ t, load_cell map r c = Some t.
Proof.
  intros [Hlen Hrows]%rect_spec Hr Hc. unfold load_cell.
  rewrite decide_True by lia.
  destruct (lookup_lt_is_Some_2 map (Z.to_nat r)) as [line Hline]; [lia|].
  rewrite Hline. simpl.
  apply lookup_lt_is_Some_2. specialize (Hrows _ _ Hline). lia.
Qed.

Lemma load_cell_bounds (map : list (list ascii)) (maxRow maxCol r c : Z)
    (t : ascii) :
  rect map maxRow maxCol = true →
  load_cell map r c = Some t →
  0 ≤ r < maxRow ∧ 0 ≤ c < maxCol.
Proof.
  intros [Hlen Hrows]%rect_spec. unfold load_cell.
  destruct (decide _) as [[Hr Hc]|]; [|done].
  destruct (map !! Z.to_nat r) as [line|] eqn:Hline; [|done]. simpl.
  intros Hcell. specialize (Hrows _ _ Hline).
  apply lookup_lt_Some in Hline, Hcell. lia.
Qed.

Lemma load_store_cell (map map' : list (list ascii)) (r c r' c' : Z)
    (v : ascii) :
  store_cell map r c v = Some map' →
  load_cell map' r' c' =
    if decide (r' = r ∧ c' = c) then Some v else load_cell map r' c'.
Proof.
  unfold store_cell, load_cell.
  destruct (decide (0 ≤ r ∧ 0 ≤ c)) as [[Hr Hc]|]; [|done].
  destruct (map !! Z.to_nat r) as [line|] eqn:Hline; [|done]. simpl.
  destruct (decide (Z.to_nat c < length line)%nat) as [Hlt|]; [|done].
  intros [= <-].
  destruct (decide (r' = r ∧ c' = c)) as [[-> ->]|Hne].
  - rewrite decide_True by done.
    rewrite list_lookup_insert_eq by (by eapply lookup_lt_Some). simpl.
    by rewrite list_lookup_insert_eq.
  - destruct (decide (0 ≤ r' ∧ 0 ≤ c')) as [[Hr' Hc']|]; [|done].
    destruct (decide (r' = r)) as [->|Hrr].
    + rewrite list_lookup_insert_eq by (by eapply lookup_lt_Some).
      rewrite Hline. simpl. rewrite list_lookup_insert_ne; [done|].
      intros Heq. apply Hne. split; [done|]. lia.
    + rewrite list_lookup_insert_ne; [done|]. lia.
Qed.

Lemma store_cell_rect (map map' : list (list ascii)) (maxRow maxCol r c : Z)
    (v : ascii) :
  store_cell map r c v = Some map' →
  rect map maxRow maxCol = true → rect map' maxRow maxCol = true.
Proof.
  unfold store_cell.
  destruct (decide (0 ≤ r ∧ 0 ≤ c)) as [[Hr Hc]|]; [|done].
  destruct (map !! Z.to_nat r) as [line|] eqn:Hline; [|done]. simpl.
  destruct (decide (Z.to_nat c < length line)%nat) as [Hlt|]; [|done].
  intros [= <-]. rewrite !rect_spec. intros [Hlen Hrows].
  split; [by rewrite length_insert|].
  intros i line' Hi.
  destruct (decide (i = Z.to_nat r)) as [->|Hne].
  - rewrite list_lookup_insert_eq in Hi by (by eapply lookup_lt_Some).
    injection Hi as <-. rewrite length_insert. by eapply Hrows.
  - rewrite list_lookup_insert_ne in Hi by done. by eapply Hrows.
Qed.

Lemma store_cell_inside (map : list (list ascii)) (maxRow maxCol r c : Z)
    (v : ascii) :
  rect map maxRow maxCol = true →
  0 ≤ r < maxRow → 0 ≤ c < maxCol →
  ∃ map', store_cell map r c v = Some map'.
Proof.
  intros [Hlen Hrows]%rect_spec Hr Hc. unfold store_cell.
  rewrite decide_True by lia.
  destruct (lookup_lt_is_Some_2 map (Z.to_nat r)) as [line Hline]; [lia|].
  rewrite Hline. simpl. specialize (Hrows _ _ Hline).
  rewrite decide_True by lia. by eexists.
Qed.

(** ** The tile characters differ *)

Lemma pairwise_distinct_NoDup (l : list ascii) :
  pairwise_distinct l = true → NoDup l.
Proof.
  induction l as [|x l IH]; simpl; [constructor|].
  rewrite andb_true_iff, forallb_forall. intros [Hx Hl].
  constructor; [|by apply IH].
  intros Hin%list_elem_of_In. specialize (Hx _ Hin).
  by rewrite Ascii.eqb_refl in Hx.
Qed.

(** Closes a goal whose hypotheses equate two different tile characters. *)
Ltac symbols_differ Hd :=
  exfalso;
  let Hn := fresh "Hn" in
  pose proof (pairwise_distinct_NoDup _ Hd) as Hn;
  unfold all_symbols in Hn;
  repeat (let Hx := fresh "Hx" in
          apply NoDup_cons in Hn as [Hx Hn];
          rewrite ?not_elem_of_cons in Hx);
  intuition congruence.


(** ** Valid states *)

Lemma valid_state_spec `{Symbols} (map : list (list ascii))
    (maxRow maxCol : Z) (player : Player) :
  valid_state map maxRow maxCol player = true →
  rect map maxRow maxCol = true ∧
  maxRow ≤ INT32_MAX ∧ maxCol ≤ INT32_MAX ∧
  0 ≤ row player < maxRow ∧ 0 ≤ col player < maxCol ∧
  load_cell map (row player) (col player) = Some TILE_PLAYER ∧
  count_tile TILE_PLAYER map = 1%nat ∧
  0 ≤ treasure player ≤ INT32_MAX.
Proof.
  unfold valid_state, in_int. rewrite !andb_true_iff.
  rewrite bool_decide_eq_true, Nat.eqb_eq, !Z.leb_le, !Z.ltb_lt.
  intros. repeat match goal with H : _ ∧ _ |- _ => destruct H end.
  repeat split; done.
Qed.

(** ** [doPlayerMove] *)

Section Move.
Context `{Symbols}.

Lemma step_onto_spec (map : list (list ascii)) (maxRow maxCol : Z)
    (player : Player) (nextRow nextCol : Z) :
  rect map maxRow maxCol = true →
  0 ≤ row player < maxRow → 0 ≤ col player < maxCol →
  0 ≤ nextRow < maxRow → 0 ≤ nextCol < maxCol →
  ∃ map',
    step_onto map player (row player) (col player) nextRow nextCol =
      Some (map', mkPlayer nextRow nextCol (treasure player)) ∧
    rect map' maxRow maxCol = true ∧
    ∀ r c, load_cell map' r c =
      if decide (r = row player ∧ c = col player) then Some TILE_OPEN
      else if decide (r = nextRow ∧ c = nextCol) then Some TILE_PLAYER
      else load_cell map r c.
Proof.
  intros Hrect Hr Hc Hnr Hnc. unfold step_onto.
  destruct (store_cell_inside map maxRow maxCol nextRow nextCol TILE_PLAYER)
    as [map1 H1]; [done..|].
  pose proof (store_cell_rect _ _ _ _ _ _ _ H1 Hrect) as Hrect1.
  destruct (store_cell_inside map1 maxRow maxCol (row player) (col player)
              TILE_OPEN) as [map2 H2]; [done..|].
  pose proof (store_cell_rect _ _ _ _ _ _ _ H2 Hrect1) as Hrect2.
  exists map2. rewrite H1. simpl. rewrite H2. simpl.
  split; [done|]. split; [done|].
  intros r c. rewrite (load_store_cell _ _ _ _ _ _ _ H2).
  destruct (decide (r = row player ∧ c = col player)); [done|].
  apply (load_store_cell _ _ _ _ _ _ _ H1).
Qed.

End Move.

Section MoveClaims.
Context `{Symbols}.

(** C6: a move whose target cell lies inside the map and holds a pillar or
    a monster returns [STATUS_STAY] and leaves the map and the player as
    they were, whatever the treasure count and the other tiles are. *)
Theorem move_blocked_by_pillar_or_monster (map : list (list ascii))
    (maxRow maxCol : Z) (player : Player) (nextRow nextCol : Z)
    (target : ascii) :
  valid_state map maxRow maxCol player = true →
  load_cell map nextRow nextCol = Some target →
  target = TILE_PILLAR ∨ target = TILE_MONSTER →
  doPlayerMove map maxRow maxCol player nextRow nextCol =
    Done (map, player, STATUS_STAY).
Proof.
  intros (Hrect & _)%valid_state_spec Htarget Hblock.
  destruct (load_cell_bounds _ _ _ _ _ _ Hrect Htarget) as [Hr Hc].
  unfold doPlayerMove.
  rewrite decide_False by lia. rewrite decide_False by lia.
  rewrite Htarget. simpl.
  rewrite decide_True by tauto. done.
Qed.

(** C5: a move onto a cell holding the exit returns [STATUS_STAY] and
    changes nothing when the player carries no treasure; with at least one
    treasure it returns [STATUS_ESCAPE], the player's coordinates become those
    of the target, the cell left holds [TILE_OPEN], the target holds
    [TILE_PLAYER] and no other cell changes. *)
Theorem move_onto_exit (map : list (list ascii)) (maxRow maxCol : Z)
    (player : Player) (nextRow nextCol : Z) :
  valid_state map maxRow maxCol player = true →
  distinct_symbols = true →
  load_cell map nextRow nextCol = Some TILE_EXIT →
  (treasure player = 0 →
     doPlayerMove map maxRow maxCol player nextRow nextCol =
       Done (map, player, STATUS_STAY)) ∧
  (1 ≤ treasure player →
     ∃ map',
       doPlayerMove map maxRow maxCol player nextRow nextCol =
         Done (map', mkPlayer nextRow nextCol (treasure player),
               STATUS_ESCAPE) ∧
       load_cell map' (row player) (col player) = Some TILE_OPEN ∧
       load_cell map' nextRow nextCol = Some TILE_PLAYER ∧
       ∀ r c, ¬ (r = row player ∧ c = col player) →
              ¬ (r = nextRow ∧ c = nextCol) →
              load_cell map' r c = load_cell map r c).
Proof.
  intros (Hrect & _ & _ & Hpr & Hpc & Hplayer & _)%valid_state_spec Hd Htarget.
  destruct (load_cell_bounds _ _ _ _ _ _ Hrect Htarget) as [Hr Hc].
  unfold doPlayerMove.
  rewrite decide_False by lia. rewrite decide_False by lia.
  rewrite Htarget. simpl.
  rewrite decide_False by (intros [?|?]; symbols_differ Hd).
  split.
  - intros Hzero. by rewrite decide_True.
  - intros Hpos.
    rewrite decide_False by lia. rewrite decide_True by (split; [done|lia]).
    destruct (step_onto_spec map maxRow maxCol player nextRow nextCol)
      as (map' & Hstep & _ & Hcells); [done..|].
    exists map'. rewrite Hstep. simpl. split; [done|].
    split; [|split].
    + rewrite Hcells. by rewrite decide_True.
    + rewrite Hcells. rewrite decide_False; [by rewrite decide_True|].
      intros [-> ->]. rewrite Hplayer in Htarget.
      injection Htarget as Heq. symbols_differ Hd.
    + intros r c H1 H2. rewrite Hcells.
      rewrite decide_False by done. by rewrite decide_False.
Qed.

(** C9: the stay input leaves the target at the player's own cell, and a
    move whose target is the player's own cell returns [STATUS_STAY] and
    leaves the map and the player as they were. *)
Theorem move_onto_own_cell (map : list (list ascii)) (maxRow maxCol : Z)
    (player : Player) :
  valid_state map maxRow maxCol player = true →
  distinct_symbols = true →
  getDirection INPUT_STAY (row player) (col player) =
    (row player, col player) ∧
  doPlayerMove map maxRow maxCol player (row player) (col player) =
    Done (map, player, STATUS_STAY).
Proof.
  intros (Hrect & _ & _ & Hpr & Hpc & Hplayer & _)%valid_state_spec Hd.
  split; [done|].
  unfold doPlayerMove.
  rewrite decide_False by lia. rewrite decide_False by lia.
  rewrite Hplayer. simpl.
  rewrite decide_False by (intros [?|?]; symbols_differ Hd).
  rewrite decide_False by (intros [? ?]; symbols_differ Hd).
  rewrite decide_False by (intros [? ?]; symbols_differ Hd).
  rewrite decide_False by (intros ?; symbols_differ Hd).
  rewrite decide_False by (intros ?; symbols_differ Hd).
  rewrite decide_False by (intros ?; symbols_differ Hd).
  rewrite decide_False by (intros ?; symbols_differ Hd).
  done.
Qed.

End MoveClaims.

Lemma move_blocked_by_pillar_or_monster_witness :
  doPlayerMove (H := dungeon_symbols)
    [["o"; "M"; "!"]; ["+"; "-"; "$"]]%char 2 3 (mkPlayer 0 0 0) 0 1 =
  Done ([["o"; "M"; "!"]; ["+"; "-"; "$"]]%char, mkPlayer 0 0 0, STATUS_STAY).
Proof.
  apply (move_blocked_by_pillar_or_monster (H := dungeon_symbols)
           [["o"; "M"; "!"]; ["+"; "-"; "$"]]%char 2 3 (mkPlayer 0 0 0) 0 1
           "M"%char).
  - reflexivity.
  - reflexivity.
  - right. reflexivity.
Defined.

Lemma move_onto_exit_witness :
  ∃ map',
    doPlayerMove (H := dungeon_symbols)
      [["o"; "!"]; ["+"; "-"]]%char 2 2 (mkPlayer 0 0 1) 0 1 =
      Done (map', mkPlayer 0 1 1, STATUS_ESCAPE) ∧
    load_cell map' 0 0 = Some "-"%char ∧
    load_cell map' 0 1 = Some "o"%char.
Proof.
  destruct (move_onto_exit (H := dungeon_symbols)
              [["o"; "!"]; ["+"; "-"]]%char 2 2 (mkPlayer 0 0 1) 0 1)
    as [_ Hescape].
  - reflexivity.
  - reflexivity.
  - reflexivity.
  - destruct Hescape as (map' & Hrun & Hold & Hnew & _); [simpl; lia|].
    exists map'. split; [exact Hrun|]. split; [exact Hold|exact Hnew].
Defined.

Lemma move_onto_own_cell_witness :
  doPlayerMove (H := dungeon_symbols)
    [["-"; "o"]; ["!"; "-"]]%char 2 2 (mkPlayer 0 1 0) 0 1 =
  Done ([["-"; "o"]; ["!"; "-"]]%char, mkPlayer 0 1 0, STATUS_STAY).
Proof.
  apply (move_onto_own_cell (H := dungeon_symbols)
           [["-"; "o"]; ["!"; "-"]]%char 2 2 (mkPlayer 0 1 0)).
  - reflexivity.
  - reflexivity.
Defined.

(** ** Machine arithmetic *)

Lemma wrap32_id (z : Z) : INT32_MIN ≤ z ≤ INT32_MAX → wrap32 z = z.
Proof.
  unfold wrap32, INT32_MIN, INT32_MAX. intros Hz.
  rewrite Z.mod_small by lia. lia.
Qed.

Lemma int_div_gt (a b m : Z) :
  0 ≤ m → 0 < b → (a > int_div m b ↔ a * b > m).
Proof.
  intros Hm Hb. unfold int_div. rewrite Z.quot_div_nonneg by lia.
  split; intros Hgt.
  - pose proof (Z.mul_succ_div_gt m b Hb). nia.
  - pose proof (Z.mul_div_le m b Hb).
    destruct (Z_le_gt_dec a (m / b)) as [Hle|]; [|done]. nia.
Qed.

(** ** [resizeMap] on dimensions that are too large *)

(** Releasing a map with its own row count frees the whole block. *)
Lemma deleteMap_whole (h : gmap nat (list (list ascii))) (a : nat)
    (rows : list (list ascii)) (maxRow : Z) :
  h !! a = Some rows →
  Z.of_nat (length rows) = maxRow →
  deleteMap h (addr a) maxRow = Done (delete a h, nullptr, 0).
Proof.
  intros Ha Hlen. unfold deleteMap. rewrite Ha. cbn [mbind option_bind].
  rewrite decide_True by lia. by rewrite drop_ge by lia.
Qed.

Section ResizeFailure.
Context `{Symbols}.

(** C10: when the doubled dimensions multiply to more than [INT32_MAX],
    [resizeMap] returns the null pointer and releases the map it was given,
    and the row and column counts it hands back are the doubled ones, not
    those it received. *)
Theorem resize_failure_keeps_doubled_counts
    (h : gmap nat (list (list ascii))) (a : nat) (rows : list (list ascii))
    (maxRow maxCol : Z) :
  h !! a = Some rows →
  Z.of_nat (length rows) = maxRow →
  0 < maxRow → 0 < maxCol →
  2 * maxRow ≤ INT32_MAX → 2 * maxCol ≤ INT32_MAX →
  (2 * maxRow) * (2 * maxCol) > INT32_MAX →
  resizeMap h (addr a) maxRow maxCol =
    Done (delete a h, 2 * maxRow, 2 * maxCol, nullptr) ∧
  delete a h !! a = None ∧
  2 * maxRow ≠ maxRow ∧ 2 * maxCol ≠ maxCol.
Proof.
  intros Ha Hlen Hr Hc Hr2 Hc2 Hover. unfold resizeMap.
  rewrite decide_False by lia. rewrite decide_False by done.
  rewrite !wrap32_id by (unfold INT32_MIN; lia).
  replace (maxRow * 2) with (2 * maxRow) by lia.
  replace (maxCol * 2) with (2 * maxCol) by lia.
  rewrite decide_True by (apply int_div_gt; [done|lia|lia]).
  rewrite (deleteMap_whole h a rows maxRow) by done.
  simpl.
  split; [done|]. split; [apply lookup_delete_eq|lia].
Qed.

End ResizeFailure.

Lemma resize_failure_keeps_doubled_counts_witness :
  resizeMap (H := dungeon_symbols) {[ 0%nat := [[]; []] ]} (addr 0)
    2 1073741823 =
  Done (delete 0%nat {[ 0%nat := [[]; []] ]}, 4, 2147483646, nullptr).
Proof.
  apply (resize_failure_keeps_doubled_counts (H := dungeon_symbols)
           {[ 0%nat := [[]; []] ]} 0 [[]; []] 2 1073741823).
  - reflexivity.
  - reflexivity.
  - lia.
  - lia.
  - unfold INT32_MAX. lia.
  - unfold INT32_MAX. lia.
  - unfold INT32_MAX. lia.
Defined.

(** ** Loops *)

Lemma for_loop_S {St R : Type} (n : nat) (i : Z)
    (body : Z → St → option (ctl St R)) (s : St) :
  for_loop (S n) i body s =
    c ← body i s;
    match c with
    | Next s' => for_loop n (i + 1) body s'
    | Break s' => Some (inl s')
    | Return r => Some (inr r)
    end.
Proof. reflexivity. Qed.

Lemma for_loop_ext {St R : Type} (n : nat) (i : Z)
    (body body' : Z → St → option (ctl St R)) (s : St) :
  (∀ j s', i ≤ j < i + Z.of_nat n → body j s' = body' j s') →
  for_loop n i body s = for_loop n i body' s.
Proof.
  revert i s. induction n as [|n IH]; intros i s Hext; [done|].
  rewrite !for_loop_S. rewrite Hext by lia.
  destruct (body' i s) as [[s'| |]|]; simpl; try done.
  apply IH. intros j s'' Hj. apply Hext. lia.
Qed.

(** ** One ray of the monster chase *)

Section Ray.
Context `{Symbols}.
Variable cell : Z → Z * Z.
Variables maxRow maxCol : Z.
Hypothesis Hd : distinct_symbols = true.

Local Abbreviation body :=
  (λ i, chase (cell i).1 (cell i).2 (cell (i - 1)).1 (cell (i - 1)).2 i).

Lemma chase_eq (r c r' c' i : Z) (map : list (list ascii)) (eaten : bool)
    (t : ascii) :
  load_cell map r c = Some t →
  chase r c r' c' i (map, eaten) =
    if decide (t = TILE_MONSTER) then
      map1 ← store_cell map r c TILE_OPEN;
      map2 ← store_cell map1 r' c' TILE_MONSTER;
      Some (Next (map2, if decide (i = 1) then true else eaten))
    else if decide (t = TILE_PILLAR) then Some (Break (map, eaten))
    else Some (Next (map, eaten)).
Proof. intros Ht. unfold chase. rewrite Ht. done. Qed.

Lemma monster_seen_below (map : list (list ascii)) (lo hi k : Z) :
  k < lo → ¬ monster_seen map cell lo hi k.
Proof. intros Hk (Hrange & _). lia. Qed.

Lemma monster_seen_above (map : list (list ascii)) (lo hi k : Z) :
  hi < k → ¬ monster_seen map cell lo hi k.
Proof. intros Hk (Hrange & _). lia. Qed.

Lemma monster_seen_pillar (map : list (list ascii)) (lo hi p k : Z) :
  lo ≤ p ≤ k → tile_at map (cell p) = Some TILE_PILLAR →
  ¬ monster_seen map cell lo hi k.
Proof. intros Hp Hpillar (_ & Hclear & _). by apply (Hclear p). Qed.

Lemma monster_seen_first (map : list (list ascii)) (lo hi : Z) :
  lo ≤ hi → tile_at map (cell lo) = Some TILE_MONSTER →
  monster_seen map cell lo hi lo.
Proof.
  intros Hhi Hmon. split; [lia|]. split; [|done].
  intros t Ht. replace t with lo by lia. rewrite Hmon.
  intros [= Heq]. symbols_differ Hd.
Qed.

Lemma monster_seen_shift (map map2 : list (list ascii)) (lo hi k : Z) :
  tile_at map (cell lo) ≠ Some TILE_PILLAR →
  (∀ t, lo + 1 ≤ t ≤ hi → tile_at map2 (cell t) = tile_at map (cell t)) →
  lo + 1 ≤ k →
  monster_seen map2 cell (lo + 1) hi k ↔ monster_seen map cell lo hi k.
Proof.
  intros Hlo Hsame Hk. unfold monster_seen. split.
  - intros (Hrange & Hclear & Hmon). split; [lia|]. split.
    + intros t Ht. destruct (decide (t = lo)) as [->|]; [done|].
      rewrite <- Hsame by lia. apply Hclear. lia.
    + rewrite <- Hsame by lia. done.
  - intros (Hrange & Hclear & Hmon). split; [lia|]. split.
    + intros t Ht. rewrite Hsame by lia. apply Hclear. lia.
    + rewrite Hsame by lia. done.
Qed.

Lemma chase_loop_spec (n : nat) :
  ∀ (i : Z) (map : list (list ascii)) (eaten : bool),
  1 ≤ i →
  rect map maxRow maxCol = true →
  (∀ j, i - 1 ≤ j ≤ i - 1 + Z.of_nat n →
        0 ≤ (cell j).1 < maxRow ∧ 0 ≤ (cell j).2 < maxCol) →
  (∀ j k, i - 1 ≤ j ≤ i - 1 + Z.of_nat n →
          i - 1 ≤ k ≤ i - 1 + Z.of_nat n → cell j = cell k → j = k) →
  ∃ map' eaten',
    for_loop n i body (map, eaten) = Some (inl (map', eaten')) ∧
    rect map' maxRow maxCol = true ∧
    (∀ pos, (∀ j, i - 1 ≤ j ≤ i - 1 + Z.of_nat n → cell j ≠ pos) →
            tile_at map' pos = tile_at map pos) ∧
    (∀ j, i - 1 ≤ j ≤ i - 1 + Z.of_nat n →
          ray_outcome map map' cell i (i - 1 + Z.of_nat n) j) ∧
    (eaten' = true ↔
     eaten = true ∨ monster_seen map cell i (i - 1 + Z.of_nat n) 1).
Proof.
  induction n as [|n IH]; intros i map eaten Hi Hrect Hin Hinj.
  - exists map, eaten. simpl. split; [done|]. split; [done|].
    split; [done|]. split.
    + intros j Hj. right. right.
      split; [apply monster_seen_above; lia|].
      split; [apply monster_seen_below; lia|done].
    + split; [by left|]. intros [?|Hseen]; [done|].
      exfalso. revert Hseen.
      destruct (decide (i = 1)) as [->|];
        [apply monster_seen_above|apply monster_seen_below]; lia.
  - set (hi := i - 1 + Z.of_nat (S n)).
    assert (hi = (i + 1) - 1 + Z.of_nat n) as Hhi by lia.
    destruct (load_cell_inside map maxRow maxCol (cell i).1 (cell i).2)
      as [t Ht]; [done|apply Hin; lia..|].
    assert (tile_at map (cell i) = Some t) as Htile by done.
    rewrite for_loop_S. cbv beta. rewrite (chase_eq _ _ _ _ _ _ _ _ Ht).
    destruct (decide (t = TILE_MONSTER)) as [->|Hnm].
    + (* a monster: it moves one step closer *)
      destruct (store_cell_inside map maxRow maxCol (cell i).1 (cell i).2
                  TILE_OPEN) as [map1 H1]; [done|apply Hin; lia..|].
      pose proof (store_cell_rect _ _ _ _ _ _ _ H1 Hrect) as Hrect1.
      destruct (store_cell_inside map1 maxRow maxCol (cell (i - 1)).1
                  (cell (i - 1)).2 TILE_MONSTER) as [map2 H2];
        [done|apply Hin; lia..|].
      pose proof (store_cell_rect _ _ _ _ _ _ _ H2 Hrect1) as Hrect2.
      rewrite H1. simpl. rewrite H2. simpl.
      assert (∀ pos, tile_at map2 pos =
                if decide (pos = cell (i - 1)) then Some TILE_MONSTER
                else if decide (pos = cell i) then Some TILE_OPEN
                else tile_at map pos) as Hmap2.
      { intros [r c]. unfold tile_at. simpl.
        rewrite (load_store_cell _ _ _ _ _ _ _ H2).
        rewrite (load_store_cell _ _ _ _ _ _ _ H1).
        destruct (cell (i - 1)) as [r1 c1]. destruct (cell i) as [r0 c0].
        simpl. repeat case_decide; naive_solver. }
      destruct (IH (i + 1) map2 (if decide (i = 1) then true else eaten))
        as (map' & eaten' & Hrun & Hrect' & Hframe & Hout & Heaten);
        [lia|done|intros j Hj; apply Hin; lia
        |intros j k Hj Hk; apply Hinj; lia|].
      rewrite <- Hhi in *.
      assert (∀ t, i + 1 ≤ t ≤ hi → tile_at map2 (cell t) = tile_at map (cell t))
        as Hsame.
      { intros u Hu. rewrite Hmap2.
        rewrite decide_False by (intros Heq; apply Hinj in Heq; lia).
        rewrite decide_False by (intros Heq; apply Hinj in Heq; lia). done. }
      assert (tile_at map (cell i) ≠ Some TILE_PILLAR) as Hnp.
      { rewrite Htile. intros [= Heq]. symbols_differ Hd. }
      assert (monster_seen map cell i hi i) as Hseen_i
        by (apply monster_seen_first; [lia|done]).
      exists map', eaten'. split; [done|]. split; [done|]. split; [|split].
      * intros pos Hpos. rewrite Hframe by (intros j Hj; apply Hpos; lia).
        rewrite Hmap2.
        rewrite decide_False by (intros ->; by apply (Hpos (i - 1)); [lia|]).
        rewrite decide_False by (intros ->; by apply (Hpos i); [lia|]). done.
      * intros j Hj. destruct (decide (j = i - 1)) as [->|Hj1].
        { left. replace (i - 1 + 1) with i by lia. split; [done|].
          rewrite Hframe by (intros k Hk Heq; apply Hinj in Heq; lia).
          rewrite Hmap2. by rewrite decide_True. }
        destruct (Hout j) as [(Hs & Ht')|[(Hns & Hs & Ht')|(Hns & Hnj & Ht')]];
          [lia|..].
        { left. split; [|done]. apply (monster_seen_shift map map2); [done..|lia|done]. }
        { right. left.
          split; [rewrite <- (monster_seen_shift map map2); [done..|lia]|].
          split; [|done].
          destruct (decide (j = i)) as [->|]; [done|].
          apply (monster_seen_shift map map2); [done..|lia|done]. }
        { destruct (decide (j = i)) as [->|Hji].
          - right. left.
            split; [rewrite <- (monster_seen_shift map map2); [done..|lia]|].
            split; [done|]. rewrite Ht', Hmap2.
            rewrite decide_False by (intros Heq; apply Hinj in Heq; lia).
            by rewrite decide_True.
          - right. right.
            split; [rewrite <- (monster_seen_shift map map2); [done..|lia]|].
            split; [rewrite <- (monster_seen_shift map map2); [done..|lia]|].
            rewrite Ht'. apply Hsame. lia. }
      * rewrite Heaten. split.
        { intros [Hc|Hs]; [|exfalso; revert Hs; apply monster_seen_below; lia].
          destruct (decide (i = 1)) as [->|]; [by right|by left]. }
        { intros [->|Hs]; [left; by case_decide|].
          left. rewrite decide_True; [done|]. destruct Hs as [? _]. lia. }
    + destruct (decide (t = TILE_PILLAR)) as [->|Hnp].
      * (* a pillar: the loop is left *)
        exists map, eaten. split; [done|]. split; [done|]. split; [done|].
        split.
        { intros j Hj. right. right.
          destruct (decide (i ≤ j)).
          - split; [apply (monster_seen_pillar _ _ _ i); [lia|done]|].
            split; [apply (monster_seen_pillar _ _ _ i); [lia|done]|done].
          - split; [|split; [apply monster_seen_below; lia|done]].
            apply (monster_seen_pillar _ _ _ i); [lia|done]. }
        { split; [by left|]. intros [?|Hs]; [done|]. exfalso. revert Hs.
          destruct (decide (i ≤ 1));
            [apply (monster_seen_pillar _ _ _ i); [lia|done]
            |apply monster_seen_below; lia]. }
      * (* anything else: the scan goes on *)
        destruct (IH (i + 1) map eaten)
          as (map' & eaten' & Hrun & Hrect' & Hframe & Hout & Heaten);
          [lia|done|intros j Hj; apply Hin; lia
          |intros j k Hj Hk; apply Hinj; lia|].
        rewrite <- Hhi in *.
        assert (tile_at map (cell i) ≠ Some TILE_PILLAR) as Hnp'
          by (rewrite Htile; congruence).
        assert (¬ monster_seen map cell i hi i) as Hns_i.
        { intros (_ & _ & Hm). rewrite Htile in Hm. congruence. }
        exists map', eaten'. split; [done|]. split; [done|]. split; [|split].
        { intros pos Hpos. apply Hframe. intros j Hj. apply Hpos. lia. }
        { intros j Hj. destruct (decide (j = i - 1)) as [->|Hj1].
          { right. right. replace (i - 1 + 1) with i by lia.
            split; [done|]. split; [apply monster_seen_below; lia|].
            apply Hframe. intros k Hk Heq. apply Hinj in Heq; lia. }
          destruct (Hout j) as [(Hs & Ht')|[(Hns & Hs & Ht')|(Hns & Hnj & Ht')]];
            [lia|..].
          - left. split; [|done].
            apply (monster_seen_shift map map); [done..|lia|done].
          - right. left.
            split; [rewrite <- (monster_seen_shift map map); [done..|lia]|].
            split; [|done].
            destruct (decide (j = i)) as [->|];
              [exfalso; revert Hs; apply monster_seen_below; lia|].
            apply (monster_seen_shift map map); [done..|lia|done].
          - right. right.
            split; [rewrite <- (monster_seen_shift map map); [done..|lia]|].
            split; [|done].
            destruct (decide (j = i)) as [->|]; [done|].
            rewrite <- (monster_seen_shift map map); [done..|lia]. }
        { rewrite Heaten. split.
          - intros [?|Hs]; [by left|].
            exfalso. revert Hs. apply monster_seen_below. lia.
          - intros [?|Hs]; [by left|]. exfalso.
            destruct (decide (i = 1)) as [->|].
            + destruct Hs as (_ & _ & Hm). rewrite Htile in Hm. congruence.
            + destruct Hs as [? _]. lia. }
Qed.

End Ray.

(** ** The four rays *)

Lemma ray_cell_origin (player : Player) (d : Dir) :
  ray_cell player d 0 = (row player, col player).
Proof. destruct d; simpl; f_equal; lia. Qed.

Lemma ray_cell_inside (maxRow maxCol : Z) (player : Player) (d : Dir) (j : Z) :
  0 ≤ row player < maxRow → 0 ≤ col player < maxCol →
  0 ≤ j ≤ ray_length maxRow maxCol player d →
  0 ≤ (ray_cell player d j).1 < maxRow ∧ 0 ≤ (ray_cell player d j).2 < maxCol.
Proof. destruct d; simpl; lia. Qed.

Lemma ray_cell_inj (player : Player) (d : Dir) (j k : Z) :
  ray_cell player d j = ray_cell player d k → j = k.
Proof. destruct d; simpl; intros [=]; lia. Qed.

Lemma ray_cell_disjoint (player : Player) (d d' : Dir) (j k : Z) :
  1 ≤ j → 0 ≤ k → ray_cell player d j = ray_cell player d' k →
  d = d' ∧ j = k.
Proof. destruct d, d'; simpl; intros Hj Hk [=]; (split; [done|lia]) || lia. Qed.

Lemma monster_seen_agree `{Symbols} (map map' : list (list ascii))
    (cell : Z → Z * Z) (lo hi k : Z) :
  (∀ t, lo ≤ t ≤ hi → tile_at map (cell t) = tile_at map' (cell t)) →
  monster_seen map cell lo hi k ↔ monster_seen map' cell lo hi k.
Proof.
  intros Hsame. unfold monster_seen.
  split; intros (Hrange & Hclear & Hmon); (split; [done|]); split.
  - intros t Ht. rewrite <- Hsame by lia. by apply Hclear.
  - by rewrite <- Hsame by lia.
  - intros t Ht. rewrite Hsame by lia. by apply Hclear.
  - by rewrite Hsame by lia.
Qed.

Lemma ray_outcome_agree `{Symbols} (map0 map map' map'' : list (list ascii))
    (cell : Z → Z * Z) (lo hi j : Z) :
  (∀ t, lo ≤ t ≤ hi → tile_at map (cell t) = tile_at map0 (cell t)) →
  tile_at map (cell j) = tile_at map0 (cell j) →
  tile_at map'' (cell j) = tile_at map' (cell j) →
  ray_outcome map map' cell lo hi j → ray_outcome map0 map'' cell lo hi j.
Proof.
  intros Hsame Hj Hj'. unfold ray_outcome.
  rewrite !(monster_seen_agree map map0) by done.
  rewrite Hj, Hj'. done.
Qed.

Lemma for_loop_change {St R : Type} (n n' : nat) (i : Z)
    (body body' : Z → St → option (ctl St R)) (s : St) :
  n = n' → (∀ j s', body j s' = body' j s') →
  for_loop n i body s = for_loop n' i body' s.
Proof. intros -> Hext. apply for_loop_ext. intros j s' _. apply Hext. Qed.

Section Rays.
Context `{Symbols}.
Variables maxRow maxCol : Z.
Variable player : Player.
Hypothesis Hd : distinct_symbols = true.
Hypothesis Hrow : 0 ≤ row player < maxRow.
Hypothesis Hcol : 0 ≤ col player < maxCol.

Local Abbreviation len := (ray_length maxRow maxCol player).

Lemma scan_ray_spec (d : Dir) (map : list (list ascii)) (eaten : bool) :
  rect map maxRow maxCol = true →
  ∃ map' eaten',
    scan_ray maxRow maxCol player d (map, eaten) = Some (map', eaten') ∧
    rect map' maxRow maxCol = true ∧
    (∀ pos, (∀ j, 0 ≤ j ≤ len d → ray_cell player d j ≠ pos) →
            tile_at map' pos = tile_at map pos) ∧
    (∀ j, 0 ≤ j ≤ len d →
          ray_outcome map map' (ray_cell player d) 1 (len d) j) ∧
    (eaten' = true ↔
     eaten = true ∨ monster_seen map (ray_cell player d) 1 (len d) 1).
Proof.
  intros Hrect.
  assert (0 ≤ len d) as Hlen by (destruct d; simpl; lia).
  destruct (chase_loop_spec (ray_cell player d) maxRow maxCol Hd
              (Z.to_nat (len d)) 1 map eaten)
    as (map' & eaten' & Hrun & Hrect' & Hframe & Hout & Heaten);
    [lia|done|intros j Hj; apply ray_cell_inside; [done..|lia]
    |intros j k _ _; apply ray_cell_inj|].
  replace (1 - 1 + Z.of_nat (Z.to_nat (len d))) with (len d) in * by lia.
  exists map', eaten'. split; [|split; [done|split; [|split; [|done]]]].
  - assert (scan_ray maxRow maxCol player d (map, eaten) =
            fell_through <$>
              for_loop (Z.to_nat (len d)) 1
                (λ i, chase (ray_cell player d i).1 (ray_cell player d i).2
                        (ray_cell player d (i - 1)).1
                        (ray_cell player d (i - 1)).2 i) (map, eaten)) as ->.
    { unfold scan_ray, for_range. destruct d; simpl; f_equal;
        (apply for_loop_change; [lia|intros j s'; f_equal; lia]). }
    rewrite Hrun. done.
  - intros pos Hpos. apply Hframe. intros j Hj. apply Hpos. lia.
  - intros j Hj. apply Hout. lia.
Qed.

Lemma rays_done_start (map : list (list ascii)) :
  rect map maxRow maxCol = true →
  rays_done map maxRow maxCol player [] map false.
Proof.
  intros Hrect. split; [done|]. split; [by intros d j ?%elem_of_nil|].
  split; [done|]. split; [right; split; [by intros d ?%elem_of_nil|done]|].
  split; [done|]. split; [done|]. by intros (d & ?%elem_of_nil & _).
Qed.

Lemma rays_done_step (map : list (list ascii)) (scanned : list Dir)
    (d : Dir) (map1 : list (list ascii)) (eaten1 : bool) :
  d ∉ scanned →
  rays_done map maxRow maxCol player scanned map1 eaten1 →
  ∃ map2 eaten2,
    scan_ray maxRow maxCol player d (map1, eaten1) = Some (map2, eaten2) ∧
    rays_done map maxRow maxCol player (d :: scanned) map2 eaten2.
Proof.
  intros Hnew (Hrect1 & Hdone & Htodo & Horigin & Hframe & Heaten).
  destruct (scan_ray_spec d map1 eaten1 Hrect1)
    as (map2 & eaten2 & Hrun & Hrect2 & Hframe2 & Hout & Heaten2).
  exists map2, eaten2. split; [done|].
  assert (∀ t, 1 ≤ t ≤ len d →
            tile_at map1 (ray_cell player d t) =
            tile_at map (ray_cell player d t)) as Hsame
    by (intros t Ht; by apply Htodo).
  assert (monster_seen map1 (ray_cell player d) 1 (len d) 1 ↔
          monster_in_sight map maxRow maxCol player d 1) as Hseen1
    by (by apply monster_seen_agree).
  split; [done|]. split; [|split; [|split; [|split]]].
  - intros d' j [->|Hd']%elem_of_cons Hj.
    + eapply ray_outcome_agree; [done|by apply Hsame|done|apply Hout; lia].
    + eapply ray_outcome_agree; [done|done| |by apply Hdone].
      apply Hframe2. intros k Hk Heq. symmetry in Heq.
      apply ray_cell_disjoint in Heq as [-> _]; [done|lia..].
  - intros d' j [Hne Hd']%not_elem_of_cons Hj.
    rewrite Hframe2; [by apply Htodo|].
    intros k Hk Heq. symmetry in Heq.
    apply ray_cell_disjoint in Heq as [-> _]; [done|lia..].
  - assert (0 ≤ len d) as Hlen by (destruct d; simpl; lia).
    destruct (Hout 0) as [(Hs & Ht)|[(_ & Hs & _)|(Hns & _ & Ht)]]; [lia|..].
    + left. rewrite ray_cell_origin in Ht. split; [|done].
      exists d. split; [by left|by apply Hseen1].
    + destruct Hs as [? _]. lia.
    + rewrite ray_cell_origin in Ht. rewrite Ht.
      destruct Horigin as [((d' & Hd' & Hs) & Ho)|(Hnone & Ho)].
      * left. split; [|done]. exists d'. split; [by right|done].
      * right. split; [|done].
        intros d' [->|Hd']%elem_of_cons; [by rewrite <- Hseen1|by apply Hnone].
  - intros pos Hpos. rewrite Hframe2 by (intros j Hj; by apply Hpos).
    by apply Hframe.
  - rewrite Heaten2, Heaten, Hseen1. split.
    + intros [(d' & Hd' & Hs)|Hs];
        [exists d'; split; [by right|done]|exists d; split; [by left|done]].
    + intros (d' & [->|Hd']%elem_of_cons & Hs); [by right|].
      left. by exists d'.
Qed.

End Rays.

(** ** [doMonsterAttack] as a whole *)

Section Attack.
Context `{Symbols}.

Lemma doMonsterAttack_rays (map : list (list ascii)) (maxRow maxCol : Z)
    (player : Player) :
  doMonsterAttack map maxRow maxCol player =
    s ← scan_ray maxRow maxCol player Up (map, false);
    s ← scan_ray maxRow maxCol player Down s;
    s ← scan_ray maxRow maxCol player Right s;
    s ← scan_ray maxRow maxCol player Left s;
    Some s.
Proof.
  unfold doMonsterAttack, scan_ray.
  destruct (fell_through <$> for_range 1 (row player + 1) _ _)
    as [s1|]; [simpl|done].
  destruct (fell_through <$> for_range 1 (maxRow - 1 - row player + 1) _ _)
    as [s2|]; [simpl|done].
  destruct (fell_through <$> for_range 1 (maxCol - 1 - col player + 1) _ _)
    as [s3|]; [simpl|done].
  destruct (fell_through <$> for_range 1 (col player + 1) _ _)
    as [[map4 [|]]|]; done.
Qed.

Local Opaque scan_ray.

Lemma doMonsterAttack_spec (map : list (list ascii)) (maxRow maxCol : Z)
    (player : Player) :
  valid_state map maxRow maxCol player = true →
  distinct_symbols = true →
  ∃ map' eaten,
    doMonsterAttack map maxRow maxCol player = Some (map', eaten) ∧
    rays_done map maxRow maxCol player [Left; Right; Down; Up] map' eaten.
Proof.
  intros (Hrect & _ & _ & Hrow & Hcol & _)%valid_state_spec Hd.
  rewrite doMonsterAttack_rays.
  pose proof (rays_done_start maxRow maxCol player map Hrect) as H0.
  destruct (rays_done_step maxRow maxCol player Hd Hrow Hcol map [] Up
              map false) as (map1 & e1 & Hrun1 & H1); [set_solver|done|].
  destruct (rays_done_step maxRow maxCol player Hd Hrow Hcol map [Up] Down
              map1 e1) as (map2 & e2 & Hrun2 & H2); [set_solver|done|].
  destruct (rays_done_step maxRow maxCol player Hd Hrow Hcol map [Down; Up]
              Right map2 e2) as (map3 & e3 & Hrun3 & H3); [set_solver|done|].
  destruct (rays_done_step maxRow maxCol player Hd Hrow Hcol map
              [Right; Down; Up] Left map3 e3)
    as (map4 & e4 & Hrun4 & H4); [set_solver|done|].
  exists map4, e4. rewrite Hrun1. simpl. rewrite Hrun2. simpl.
  rewrite Hrun3. simpl. rewrite Hrun4. done.
Qed.

Lemma all_rays (d : Dir) : d ∈ [Left; Right; Down; Up].
Proof. destruct d; set_solver. Qed.

(** A cell of the map lies on one of the rays or on none. *)
Lemma on_ray_or_not (maxRow maxCol : Z) (player : Player) (pos : Z * Z) :
  0 ≤ row player < maxRow → 0 ≤ col player < maxCol →
  0 ≤ pos.1 < maxRow → 0 ≤ pos.2 < maxCol →
  (∃ d j, 0 ≤ j ≤ ray_length maxRow maxCol player d ∧
          ray_cell player d j = pos) ∨
  (∀ d j, 0 ≤ j ≤ ray_length maxRow maxCol player d →
          ray_cell player d j ≠ pos).
Proof.
  destruct pos as [r c]. simpl. intros Hrow Hcol Hr Hc.
  destruct (decide (c = col player)) as [->|Hnc].
  - left. destruct (decide (r ≤ row player)).
    + exists Up, (row player - r). simpl. split; [lia|f_equal; lia].
    + exists Down, (r - row player). simpl. split; [lia|f_equal; lia].
  - destruct (decide (r = row player)) as [->|Hnr].
    + left. destruct (decide (c ≤ col player)).
      * exists Left, (col player - c). simpl. split; [lia|f_equal; lia].
      * exists Right, (c - col player). simpl. split; [lia|f_equal; lia].
    + right. intros d j Hj. destruct d; simpl; intros [=]; lia.
Qed.

End Attack.

Section AttackClaims.
Context `{Symbols}.

(** C7: a pillar ends the scan of its ray.  Every cell of a ray at or
    beyond a pillar of that ray is after the call as it was before, so no
    monster behind a pillar moves; and a cell that holds a pillar still holds
    it after the call, so no monster is ever put onto a pillar. *)
Theorem monsters_never_pass_pillars (map : list (list ascii))
    (maxRow maxCol : Z) (player : Player) :
  valid_state map maxRow maxCol player = true →
  distinct_symbols = true →
  ∃ map' eaten,
    doMonsterAttack map maxRow maxCol player = Done (map', eaten) ∧
    (∀ d k j,
       1 ≤ k ≤ j → j ≤ ray_length maxRow maxCol player d →
       tile_at map (ray_cell player d k) = Some TILE_PILLAR →
       tile_at map' (ray_cell player d j) = tile_at map (ray_cell player d j)) ∧
    (∀ pos,
       tile_at map pos = Some TILE_PILLAR →
       tile_at map' pos = Some TILE_PILLAR).
Proof.
  intros Hvalid Hd.
  destruct (doMonsterAttack_spec map maxRow maxCol player Hvalid Hd)
    as (map' & eaten & Hrun & _ & Hdone & _ & _ & Hframe & _).
  apply valid_state_spec in Hvalid
    as (Hrect & _ & _ & Hrow & Hcol & Hplayer & _).
  assert (∀ d k j,
            1 ≤ k ≤ j → j ≤ ray_length maxRow maxCol player d →
            tile_at map (ray_cell player d k) = Some TILE_PILLAR →
            tile_at map' (ray_cell player d j) =
            tile_at map (ray_cell player d j)) as Hbehind.
  { intros d k j Hk Hj Hpillar.
    destruct (Hdone d j (all_rays d)) as [(Hs & _)|[(_ & Hs & _)|(_ & _ & Ht)]];
      [lia| | |done];
      exfalso; revert Hs;
      apply (monster_seen_pillar _ _ _ _ k); (lia || done). }
  exists map', eaten. split; [done|]. split; [done|].
  intros pos Hpillar.
  destruct (load_cell_bounds _ _ _ _ _ _ Hrect Hpillar) as [Hr Hc].
  destruct (on_ray_or_not maxRow maxCol player pos Hrow Hcol Hr Hc)
    as [(d & j & Hj & <-)|Hoff].
  - destruct (decide (j = 0)) as [->|Hnz].
    + rewrite ray_cell_origin in Hpillar. unfold tile_at in Hpillar.
      simpl in Hpillar. rewrite Hplayer in Hpillar.
      injection Hpillar as Heq. symbols_differ Hd.
    + rewrite (Hbehind d j j); [done|lia|lia|done].
  - rewrite Hframe; done.
Qed.

(** C1, as the code has it: every monster that stands on a ray with no
    pillar between the player and it, the nearest one and those further out
    alike, is moved one step toward the player.  The cell one step closer
    holds a monster after the call; the cell the monster left holds
    [TILE_OPEN], unless the next cell outward held a monster in sight as well,
    which has then moved into it. *)
Theorem every_monster_in_sight_advances (map : list (list ascii))
    (maxRow maxCol : Z) (player : Player) :
  valid_state map maxRow maxCol player = true →
  distinct_symbols = true →
  ∃ map' eaten,
    doMonsterAttack map maxRow maxCol player = Done (map', eaten) ∧
    ∀ d k,
      monster_in_sight map maxRow maxCol player d k →
      tile_at map' (ray_cell player d (k - 1)) = Some TILE_MONSTER ∧
      (monster_in_sight map maxRow maxCol player d (k + 1) →
       tile_at map' (ray_cell player d k) = Some TILE_MONSTER) ∧
      (¬ monster_in_sight map maxRow maxCol player d (k + 1) →
       tile_at map' (ray_cell player d k) = Some TILE_OPEN).
Proof.
  intros Hvalid Hd.
  destruct (doMonsterAttack_spec map maxRow maxCol player Hvalid Hd)
    as (map' & eaten & Hrun & _ & Hdone & _ & Horigin & _).
  exists map', eaten. split; [done|].
  intros d k Hseen. pose proof Hseen as (Hk & _).
  split; [|split].
  - destruct (decide (k = 1)) as [->|Hk1].
    + replace (1 - 1) with 0 by lia. rewrite ray_cell_origin.
      destruct Horigin as [(_ & Ho)|(Hnone & _)]; [done|].
      exfalso. by apply (Hnone d (all_rays d)).
    + destruct (Hdone d (k - 1) (all_rays d))
        as [(_ & Ht)|[(Hns & _)|(Hns & _)]]; [lia|done|..];
        exfalso; apply Hns; by replace (k - 1 + 1) with k by lia.
  - intros Hnext.
    destruct (Hdone d k (all_rays d))
      as [(_ & Ht)|[(Hns & _)|(Hns & _)]]; [lia|done|..]; by exfalso.
  - intros Hnext.
    destruct (Hdone d k (all_rays d))
      as [(Hs & _)|[(_ & _ & Ht)|(_ & Hns & _)]]; [lia|..|done|]; by exfalso.
Qed.

End AttackClaims.

Lemma monsters_never_pass_pillars_witness :
  ∃ map' eaten,
    doMonsterAttack (H := dungeon_symbols)
      [["o"; "-"; "+"; "M"]; ["M"; "-"; "-"; "!"]]%char 2 4 (mkPlayer 0 0 0) =
      Done (map', eaten) ∧
    tile_at map' (0, 3) = Some "M"%char.
Proof.
  destruct (monsters_never_pass_pillars (H := dungeon_symbols)
              [["o"; "-"; "+"; "M"]; ["M"; "-"; "-"; "!"]]%char 2 4
              (mkPlayer 0 0 0))
    as (map' & eaten & Hrun & Hbehind & _).
  - reflexivity.
  - reflexivity.
  - exists map', eaten. split; [exact Hrun|].
    apply (Hbehind Right 2 3); [lia|simpl; lia|reflexivity].
Defined.

Lemma every_monster_in_sight_advances_witness :
  ∃ map' eaten,
    doMonsterAttack (H := dungeon_symbols)
      [["o"; "-"; "M"; "M"]; ["-"; "-"; "-"; "!"]]%char 2 4 (mkPlayer 0 0 0) =
      Done (map', eaten) ∧
    tile_at map' (0, 2) = Some "M"%char.
Proof.
  destruct (every_monster_in_sight_advances (H := dungeon_symbols)
              [["o"; "-"; "M"; "M"]; ["-"; "-"; "-"; "!"]]%char 2 4
              (mkPlayer 0 0 0))
    as (map' & eaten & Hrun & Hmoves).
  - reflexivity.
  - reflexivity.
  - exists map', eaten. split; [exact Hrun|].
    apply (Hmoves Right 3).
    split; [simpl; lia|]. split; [|reflexivity].
    intros t Ht.
    assert (t = 1 ∨ t = 2 ∨ t = 3) as Hcases by lia.
    destruct Hcases as [Ht1|[Ht1|Ht1]]; subst t; discriminate.
Defined.

(** C1, as the specification words it, fails.  It would have every cell
    beyond the nearest monster of a ray untouched.  Take the player at the
    left end of a row, the nearest monster of the ray to the right at distance
    2 and a second monster at distance 3: after the call the cell at distance
    3 has been vacated, the second monster has moved as well. *)
Lemma further_monster_moves_too :
  ¬ (∀ (map : list (list ascii)) (maxRow maxCol : Z) (player : Player)
       (map' : list (list ascii)) (eaten : bool) (d : Dir) (k : Z),
       valid_state (H := dungeon_symbols) map maxRow maxCol player = true →
       doMonsterAttack (H := dungeon_symbols) map maxRow maxCol player =
         Done (map', eaten) →
       monster_in_sight (H := dungeon_symbols) map maxRow maxCol player d k →
       (∀ j, 1 ≤ j < k →
             tile_at map (ray_cell player d j) ≠ Some "M"%char) →
       ∀ j, k < j ≤ ray_length maxRow maxCol player d →
            tile_at map' (ray_cell player d j) =
            tile_at map (ray_cell player d j)).
Proof.
  intros Hclaim.
  specialize (Hclaim
    [["o"; "-"; "M"; "M"]; ["-"; "-"; "-"; "!"]]%char 2 4 (mkPlayer 0 0 0)
    [["o"; "M"; "M"; "-"]; ["-"; "-"; "-"; "!"]]%char false Right 2
    eq_refl eq_refl).
  assert (∀ t, 1 ≤ t ≤ 2 → t = 1 ∨ t = 2) as Hcases by lia.
  specialize (Hclaim ltac:(split; [simpl; lia|split; [|reflexivity]];
    intros t [Ht|Ht]%Hcases; subst t; discriminate)).
  specialize (Hclaim ltac:(intros j Hj; replace j with 1 by lia; discriminate)).
  specialize (Hclaim 3 ltac:(simpl; lia)).
  discriminate Hclaim.
Qed.

(** ** Counting tiles *)

Lemma count_line_insert (t v x : ascii) (line : list ascii) (i : nat) :
  line !! i = Some x →
  (count_line t (<[i := v]> line) + (if decide (x = t) then 1 else 0) =
   count_line t line + (if decide (v = t) then 1 else 0))%nat.
Proof.
  revert i. induction line as [|y line IH]; intros i Hi; [done|].
  destruct i as [|i]; simpl in *.
  - injection Hi as ->. lia.
  - specialize (IH i Hi). lia.
Qed.

Lemma count_tile_insert (t : ascii) (map : list (list ascii)) (i : nat)
    (line line' : list ascii) :
  map !! i = Some line →
  (count_tile t (<[i := line']> map) + count_line t line =
   count_tile t map + count_line t line')%nat.
Proof.
  revert i. induction map as [|l map IH]; intros i Hi; [done|].
  destruct i as [|i]; simpl in *.
  - injection Hi as ->. lia.
  - specialize (IH i Hi). lia.
Qed.

Lemma count_tile_store (t v x : ascii) (map map' : list (list ascii))
    (r c : Z) :
  store_cell map r c v = Some map' →
  load_cell map r c = Some x →
  (count_tile t map' + (if decide (x = t) then 1 else 0) =
   count_tile t map + (if decide (v = t) then 1 else 0))%nat.
Proof.
  unfold store_cell, load_cell.
  destruct (decide (0 ≤ r ∧ 0 ≤ c)) as [_|]; [|done].
  destruct (map !! Z.to_nat r) as [line|] eqn:Hline; [|done]. simpl.
  destruct (decide (Z.to_nat c < length line)%nat) as [_|]; [|done].
  intros [= <-] Hx.
  pose proof (count_tile_insert t map _ _ (<[Z.to_nat c := v]> line) Hline).
  pose proof (count_line_insert t v x line _ Hx). lia.
Qed.

Lemma count_line_zero (t : ascii) (line : list ascii) :
  count_line t line = 0%nat ↔ ∀ i, line !! i ≠ Some t.
Proof.
  induction line as [|y line IH]; simpl; [done|].
  split.
  - intros Hsum [|i]; simpl.
    + intros [= ->]. rewrite decide_True in Hsum by done. lia.
    + apply IH. lia.
  - intros Hnone.
    rewrite decide_False by (intros ->; by apply (Hnone 0%nat)).
    simpl. apply IH. intros i. apply (Hnone (S i)).
Qed.

Lemma count_tile_zero (t : ascii) (map : list (list ascii)) :
  count_tile t map = 0%nat ↔ ∀ r c, load_cell map r c ≠ Some t.
Proof.
  split.
  - intros Hzero r c. unfold load_cell.
    destruct (decide (0 ≤ r ∧ 0 ≤ c)) as [_|]; [|done].
    generalize (Z.to_nat r). clear r. intros i. revert i.
    induction map as [|l map IH]; intros i; [done|].
    simpl in Hzero. destruct i as [|i]; simpl.
    + apply count_line_zero. lia.
    + apply IH. lia.
  - induction map as [|l map IH]; intros Hnone; [done|]. simpl.
    rewrite (proj2 (count_line_zero t l)).
    + apply IH. intros r c. unfold load_cell.
      destruct (decide (0 ≤ r ∧ 0 ≤ c)) as [[Hr Hc]|]; [|done].
      specialize (Hnone (r + 1) c). unfold load_cell in Hnone.
      rewrite decide_True in Hnone by lia.
      replace (Z.to_nat (r + 1)) with (S (Z.to_nat r)) in Hnone by lia.
      done.
    + intros i. specialize (Hnone 0 (Z.of_nat i)). unfold load_cell in Hnone.
      rewrite decide_True in Hnone by lia. simpl in Hnone.
      by rewrite Nat2Z.id in Hnone.
Qed.

(** A character that differs from [t]. *)
Lemma another_char (t : ascii) : ∃ v : ascii, v ≠ t.
Proof.
  destruct (decide (t = "000"%char)) as [->|];
    [by exists "001"%char|by exists "000"%char].
Qed.

Lemma count_tile_one (t : ascii) (map : list (list ascii)) (r c : Z) :
  load_cell map r c = Some t →
  (count_tile t map = 1%nat ↔
   ∀ r' c', load_cell map r' c' = Some t → r' = r ∧ c' = c).
Proof.
  intros Hcell. destruct (another_char t) as [v Hv].
  assert (∃ map', store_cell map r c v = Some map') as [map' Hstore].
  { revert Hcell. unfold load_cell, store_cell.
    destruct (decide (0 ≤ r ∧ 0 ≤ c)) as [_|]; [|done].
    destruct (map !! Z.to_nat r) as [line|]; [|done]. simpl.
    intros Hc%lookup_lt_Some. rewrite decide_True by done. by eexists. }
  pose proof (count_tile_store t v t map map' r c Hstore Hcell) as Hcount.
  rewrite decide_True in Hcount by done.
  rewrite decide_False in Hcount by done.
  split.
  - intros Hone r' c' Hcell'.
    destruct (decide (r' = r ∧ c' = c)) as [|Hne]; [done|]. exfalso.
    assert (count_tile t map' = 0%nat) as Hzero by lia.
    apply (proj1 (count_tile_zero t map') Hzero r' c').
    rewrite (load_store_cell _ _ _ _ _ _ _ Hstore).
    by rewrite decide_False.
  - intros Hunique.
    assert (count_tile t map' = 0%nat) as Hzero; [|lia].
    apply count_tile_zero. intros r' c'.
    rewrite (load_store_cell _ _ _ _ _ _ _ Hstore).
    destruct (decide (r' = r ∧ c' = c)) as [|Hne]; [congruence|].
    intros Hcell'. by apply Hne, Hunique.
Qed.

(** ** Loops over the cells of a block *)

Lemma each_loop_inv {St : Type} (P : Z → St → Prop) (n : nat) :
  ∀ (i : Z) (body : Z → St → option St) (s : St),
  P i s →
  (∀ j s', i ≤ j < i + Z.of_nat n → P j s' →
           ∃ s'', body j s' = Some s'' ∧ P (j + 1) s'') →
  ∃ s', each_loop n i body s = Some s' ∧ P (i + Z.of_nat n) s'.
Proof.
  induction n as [|n IH]; intros i body s Hs Hbody.
  - exists s. split; [done|]. by replace (i + Z.of_nat 0) with i by lia.
  - destruct (Hbody i s) as (s1 & Hrun & Hs1); [lia|done|].
    destruct (IH (i + 1) body s1) as (s2 & Hrun2 & Hs2); [done| |].
    { intros j s' Hj. apply Hbody. lia. }
    exists s2. simpl. rewrite Hrun. simpl. split; [done|].
    by replace (i + Z.of_nat (S n)) with (i + 1 + Z.of_nat n) by lia.
Qed.

Lemma for_each_inv {St : Type} (P : Z → St → Prop) (lo hi : Z)
    (body : Z → St → option St) (s : St) :
  lo ≤ hi →
  P lo s →
  (∀ j s', lo ≤ j < hi → P j s' → ∃ s'', body j s' = Some s'' ∧ P (j + 1) s'') →
  ∃ s', for_each lo hi body s = Some s' ∧ P hi s'.
Proof.
  intros Hle Hs Hbody. unfold for_each.
  destruct (each_loop_inv P (Z.to_nat (hi - lo)) lo body s Hs)
    as (s' & Hrun & Hs').
  - intros j s' Hj. apply Hbody. lia.
  - exists s'. split; [done|].
    by replace (lo + Z.of_nat (Z.to_nat (hi - lo))) with hi in Hs' by lia.
Qed.

Section Fill.
Variable h0 : gmap nat (list (list ascii)).
Variable b : nat.
Variables rows cols maxRow maxCol dr dc : Z.
Variable val : Z → Z → ascii.
Variable body : Z → Z → gmap nat (list (list ascii)) →
                option (gmap nat (list (list ascii))).

(** Each turn of the inner loop amounts to one assignment to the cell
    [(row + dr, col + dc)] of the block [b]. *)
Hypothesis body_ok :
  ∀ row col (g : list (list ascii)),
    0 ≤ row < rows → 0 ≤ col < cols → rect g maxRow maxCol = true →
    ∃ g', body row col (<[b := g]> h0) = Some (<[b := g']> h0) ∧
          rect g' maxRow maxCol = true ∧
          ∀ r c, load_cell g' r c =
                 if decide (r = row + dr ∧ c = col + dc)
                 then Some (val row col) else load_cell g r c.

Lemma fill_row (row : Z) (g : list (list ascii)) :
  0 ≤ row < rows → 0 ≤ cols → rect g maxRow maxCol = true →
  ∃ g', for_each 0 cols (λ col h, body row col h) (<[b := g]> h0) =
          Some (<[b := g']> h0) ∧
        rect g' maxRow maxCol = true ∧
        ∀ r c, load_cell g' r c =
               if decide (r = row + dr ∧ dc ≤ c < dc + cols)
               then Some (val row (c - dc)) else load_cell g r c.
Proof.
  intros Hrow Hcols Hrect.
  destruct (for_each_inv
    (λ col h, ∃ g', h = <[b := g']> h0 ∧ rect g' maxRow maxCol = true ∧
       ∀ r c, load_cell g' r c =
              if decide (r = row + dr ∧ dc ≤ c < dc + col)
              then Some (val row (c - dc)) else load_cell g r c)
    0 cols (λ col h, body row col h) (<[b := g]> h0))
    as (h' & Hrun & g' & -> & Hrect' & Hcells); [done| | |by exists g'].
  - exists g. split; [done|]. split; [done|]. intros r c.
    rewrite decide_False by lia. done.
  - intros col h Hcol (g1 & -> & Hrect1 & Hcells1).
    destruct (body_ok row col g1) as (g2 & Hbody & Hrect2 & Hcells2);
      [done..|].
    exists (<[b := g2]> h0). split; [done|]. exists g2.
    split; [done|]. split; [done|]. intros r c.
    rewrite Hcells2, Hcells1.
    destruct (decide (r = row + dr ∧ c = col + dc)) as [[-> ->]|Hne].
    + rewrite decide_True by lia. do 2 f_equal. lia.
    + destruct (decide (r = row + dr ∧ dc ≤ c < dc + col)).
      * by rewrite decide_True by lia.
      * by rewrite decide_False by lia.
Qed.

Lemma fill_rows (g : list (list ascii)) :
  0 ≤ rows → 0 ≤ cols → rect g maxRow maxCol = true →
  ∃ g', for_each 0 rows (λ row h,
          for_each 0 cols (λ col h, body row col h) h) (<[b := g]> h0) =
          Some (<[b := g']> h0) ∧
        rect g' maxRow maxCol = true ∧
        ∀ r c, load_cell g' r c =
               if decide (dr ≤ r < dr + rows ∧ dc ≤ c < dc + cols)
               then Some (val (r - dr) (c - dc)) else load_cell g r c.
Proof.
  intros Hrows Hcols Hrect.
  destruct (for_each_inv
    (λ row h, ∃ g', h = <[b := g']> h0 ∧ rect g' maxRow maxCol = true ∧
       ∀ r c, load_cell g' r c =
              if decide (dr ≤ r < dr + row ∧ dc ≤ c < dc + cols)
              then Some (val (r - dr) (c - dc)) else load_cell g r c)
    0 rows (λ row h, for_each 0 cols (λ col h, body row col h) h)
    (<[b := g]> h0))
    as (h' & Hrun & g' & -> & Hrect' & Hcells); [done| | |by exists g'].
  - exists g. split; [done|]. split; [done|]. intros r c.
    rewrite decide_False by lia. done.
  - intros row h Hrow (g1 & -> & Hrect1 & Hcells1).
    destruct (fill_row row g1) as (g2 & Hbody & Hrect2 & Hcells2); [done..|].
    exists (<[b := g2]> h0). split; [done|]. exists g2.
    split; [done|]. split; [done|]. intros r c.
    rewrite Hcells2, Hcells1.
    destruct (decide (r = row + dr ∧ dc ≤ c < dc + cols)) as [[-> ?]|Hne].
    + rewrite decide_True by lia. do 2 f_equal. lia.
    + destruct (decide (dr ≤ r < dr + row ∧ dc ≤ c < dc + cols)).
      * by rewrite decide_True by lia.
      * by rewrite decide_False by lia.
Qed.

End Fill.

(** ** Blocks of the heap *)

Lemma store_at_block (h0 : gmap nat (list (list ascii))) (b : nat)
    (g : list (list ascii)) (maxRow maxCol r c : Z) (v : ascii) :
  rect g maxRow maxCol = true → 0 ≤ r < maxRow → 0 ≤ c < maxCol →
  ∃ g', store_at (<[b := g]> h0) (addr b) r c v = Some (<[b := g']> h0) ∧
        rect g' maxRow maxCol = true ∧
        ∀ r' c', load_cell g' r' c' =
                 if decide (r' = r ∧ c' = c) then Some v
                 else load_cell g r' c'.
Proof.
  intros Hrect Hr Hc.
  destruct (store_cell_inside g maxRow maxCol r c v) as [g' Hstore];
    [done..|].
  exists g'. unfold store_at. rewrite lookup_insert_eq. simpl.
  rewrite Hstore. simpl. rewrite insert_insert_eq.
  split; [done|]. split; [by eapply store_cell_rect|].
  intros r' c'. by apply load_store_cell.
Qed.

Lemma load_at_other (h0 : gmap nat (list (list ascii))) (a b : nat)
    (g old : list (list ascii)) (r c : Z) :
  a ≠ b → h0 !! a = Some old →
  load_at (<[b := g]> h0) (addr a) r c = load_cell old r c.
Proof.
  intros Hne Ha. unfold load_at. rewrite lookup_insert_ne by done.
  by rewrite Ha.
Qed.

Lemma raw_block_rect (maxRow maxCol : Z) :
  0 ≤ maxRow → 0 ≤ maxCol →
  rect (raw_block maxRow maxCol) maxRow maxCol = true.
Proof.
  intros Hr Hc. apply rect_spec. unfold raw_block. split.
  - rewrite length_replicate. lia.
  - intros i line [-> _]%lookup_replicate. rewrite length_replicate. lia.
Qed.

Section Create.
Context `{Symbols}.

Lemma createMap_spec (h : gmap nat (list (list ascii))) (maxRow maxCol : Z) :
  0 < maxRow → 0 < maxCol → maxRow * maxCol ≤ INT32_MAX →
  ∃ g,
    createMap h maxRow maxCol =
      Some (<[fresh (dom h) := g]> h, addr (fresh (dom h))) ∧
    rect g maxRow maxCol = true ∧
    ∀ r c, 0 ≤ r < maxRow → 0 ≤ c < maxCol →
           load_cell g r c = Some TILE_OPEN.
Proof.
  intros Hr Hc Hfit. unfold createMap.
  rewrite decide_False by lia.
  rewrite decide_False by (rewrite int_div_gt; [lia|done|lia]).
  rewrite decide_False by (rewrite int_div_gt; [lia|done|lia]).
  destruct (fill_rows h (fresh (dom h)) maxRow maxCol maxRow maxCol 0 0
              (λ _ _, TILE_OPEN)
              (λ row col h', store_at h' (addr (fresh (dom h))) row col
                               TILE_OPEN))
    with (g := raw_block maxRow maxCol)
    as (g & Hrun & Hrect & Hcells).
  - intros row col g Hrow Hcol Hrect.
    replace (row + 0) with row by lia. replace (col + 0) with col by lia.
    by apply store_at_block.
  - lia.
  - lia.
  - apply raw_block_rect; lia.
  - exists g. cbv beta in Hrun. rewrite Hrun. simpl.
    split; [done|]. split; [done|]. intros r c Hrc Hcc.
    rewrite Hcells. by rewrite decide_True by lia.
Qed.

End Create.

(** ** [resizeMap] on dimensions that fit *)

Section Resize.
Context `{Symbols}.
Variable h : gmap nat (list (list ascii)).
Variables a b : nat.
Variable old : list (list ascii).
Variables maxRow maxCol : Z.
Hypothesis Hab : a ≠ b.
Hypothesis Hold : h !! a = Some old.
Hypothesis Hrect_old : rect old maxRow maxCol = true.

Local Opaque store_at load_at.

Lemma copy_step (g : list (list ascii)) (newRow newCol row col tr tc : Z) :
  0 ≤ row < maxRow → 0 ≤ col < maxCol →
  rect g newRow newCol = true → 0 ≤ tr < newRow → 0 ≤ tc < newCol →
  ∃ g',
    (v ← load_at (<[b := g]> h) (addr a) row col;
     store_at (<[b := g]> h) (addr b) tr tc v) = Some (<[b := g']> h) ∧
    rect g' newRow newCol = true ∧
    ∀ r c, load_cell g' r c =
           if decide (r = tr ∧ c = tc) then Some (tile_of old row col)
           else load_cell g r c.
Proof.
  intros Hrow Hcol Hrect Htr Htc.
  destruct (load_cell_inside old maxRow maxCol row col) as [t Ht]; [done..|].
  rewrite (load_at_other h a b g old) by done. rewrite Ht. simpl.
  unfold tile_of. rewrite Ht. simpl. by apply store_at_block.
Qed.

Lemma copy_strip_step (g : list (list ascii))
    (newRow newCol row col tr tc : Z) :
  0 ≤ row < maxRow → 0 ≤ col < maxCol →
  rect g newRow newCol = true → 0 ≤ tr < newRow → 0 ≤ tc < newCol →
  ∃ g',
    (v ← load_at (<[b := g]> h) (addr a) row col;
     h' ← store_at (<[b := g]> h) (addr b) tr tc v;
     v ← load_at h' (addr a) row col;
     if decide (v = TILE_PLAYER) then store_at h' (addr b) tr tc TILE_OPEN
     else Some h') = Some (<[b := g']> h) ∧
    rect g' newRow newCol = true ∧
    ∀ r c, load_cell g' r c =
           if decide (r = tr ∧ c = tc)
           then Some (without_player (tile_of old row col))
           else load_cell g r c.
Proof.
  intros Hrow Hcol Hrect Htr Htc.
  destruct (load_cell_inside old maxRow maxCol row col) as [t Ht]; [done..|].
  rewrite (load_at_other h a b g old) by done. rewrite Ht. simpl.
  destruct (store_at_block h b g newRow newCol tr tc t)
    as (g1 & Hstore1 & Hrect1 & Hcells1); [done..|].
  rewrite Hstore1. simpl.
  rewrite (load_at_other h a b g1 old) by done. rewrite Ht. simpl.
  unfold tile_of, without_player. rewrite Ht. simpl.
  destruct (decide (t = TILE_PLAYER)) as [->|Hnp].
  - destruct (store_at_block h b g1 newRow newCol tr tc TILE_OPEN)
      as (g2 & Hstore2 & Hrect2 & Hcells2); [done..|].
    exists g2. split; [done|]. split; [done|]. intros r c.
    rewrite Hcells2, Hcells1. by destruct (decide (r = tr ∧ c = tc)).
  - exists g1. done.
Qed.

Lemma resize_loops (g0 : list (list ascii)) :
  0 < maxRow → 0 < maxCol →
  rect g0 (2 * maxRow) (2 * maxCol) = true →
  ∃ g4,
    (h1 ← for_each 0 maxRow (λ row h,
             for_each 0 maxCol (λ col h,
               v ← load_at h (addr a) row col;
               store_at h (addr b) row col v) h) (<[b := g0]> h);
     h2 ← for_each 0 maxRow (λ row h,
             for_each 0 maxCol (λ col h,
               v ← load_at h (addr a) row col;
               h ← store_at h (addr b) (row + maxRow) col v;
               v ← load_at h (addr a) row col;
               if decide (v = TILE_PLAYER)
               then store_at h (addr b) (row + maxRow) col TILE_OPEN
               else Some h) h) h1;
     h3 ← for_each 0 maxRow (λ row h,
             for_each 0 maxCol (λ col h,
               v ← load_at h (addr a) row col;
               h ← store_at h (addr b) row (col + maxCol) v;
               v ← load_at h (addr a) row col;
               if decide (v = TILE_PLAYER)
               then store_at h (addr b) row (col + maxCol) TILE_OPEN
               else Some h) h) h2;
     for_each 0 maxRow (λ row h,
       for_each 0 maxCol (λ col h,
         v ← load_at h (addr a) row col;
         h ← store_at h (addr b) (row + maxRow) (col + maxCol) v;
         v ← load_at h (addr a) row col;
         if decide (v = TILE_PLAYER)
         then store_at h (addr b) (row + maxRow) (col + maxCol) TILE_OPEN
         else Some h) h) h3) = Some (<[b := g4]> h) ∧
    rect g4 (2 * maxRow) (2 * maxCol) = true ∧
    ∀ r c, load_cell g4 r c =
      if decide (maxRow ≤ r < maxRow + maxRow ∧ maxCol ≤ c < maxCol + maxCol)
      then Some (without_player (tile_of old (r - maxRow) (c - maxCol)))
      else if decide (0 ≤ r < 0 + maxRow ∧ maxCol ≤ c < maxCol + maxCol)
      then Some (without_player (tile_of old (r - 0) (c - maxCol)))
      else if decide (maxRow ≤ r < maxRow + maxRow ∧ 0 ≤ c < 0 + maxCol)
      then Some (without_player (tile_of old (r - maxRow) (c - 0)))
      else if decide (0 ≤ r < 0 + maxRow ∧ 0 ≤ c < 0 + maxCol)
      then Some (tile_of old (r - 0) (c - 0))
      else load_cell g0 r c.
Proof.
  intros Hr Hc Hrect0.
  destruct (fill_rows h b maxRow maxCol (2 * maxRow) (2 * maxCol) 0 0
              (λ row col, tile_of old row col)
              (λ row col h, v ← load_at h (addr a) row col;
                            store_at h (addr b) row col v))
    with (g := g0) as (g1 & Hrun1 & Hrect1 & Hcells1); [|lia|lia|done|].
  { intros row col g Hrow Hcol Hrect.
    replace (row + 0) with row by lia. replace (col + 0) with col by lia.
    apply copy_step; (done || lia). }
  destruct (fill_rows h b maxRow maxCol (2 * maxRow) (2 * maxCol) maxRow 0
              (λ row col, without_player (tile_of old row col))
              (λ row col h,
                 v ← load_at h (addr a) row col;
                 h ← store_at h (addr b) (row + maxRow) col v;
                 v ← load_at h (addr a) row col;
                 if decide (v = TILE_PLAYER)
                 then store_at h (addr b) (row + maxRow) col TILE_OPEN
                 else Some h))
    with (g := g1) as (g2 & Hrun2 & Hrect2 & Hcells2); [|lia|lia|done|].
  { intros row col g Hrow Hcol Hrect.
    replace (col + 0) with col by lia.
    apply copy_strip_step; (done || lia). }
  destruct (fill_rows h b maxRow maxCol (2 * maxRow) (2 * maxCol) 0 maxCol
              (λ row col, without_player (tile_of old row col))
              (λ row col h,
                 v ← load_at h (addr a) row col;
                 h ← store_at h (addr b) row (col + maxCol) v;
                 v ← load_at h (addr a) row col;
                 if decide (v = TILE_PLAYER)
                 then store_at h (addr b) row (col + maxCol) TILE_OPEN
                 else Some h))
    with (g := g2) as (g3 & Hrun3 & Hrect3 & Hcells3); [|lia|lia|done|].
  { intros row col g Hrow Hcol Hrect.
    replace (row + 0) with row by lia.
    apply copy_strip_step; (done || lia). }
  destruct (fill_rows h b maxRow maxCol (2 * maxRow) (2 * maxCol)
              maxRow maxCol
              (λ row col, without_player (tile_of old row col))
              (λ row col h,
                 v ← load_at h (addr a) row col;
                 h ← store_at h (addr b) (row + maxRow) (col + maxCol) v;
                 v ← load_at h (addr a) row col;
                 if decide (v = TILE_PLAYER)
                 then store_at h (addr b) (row + maxRow) (col + maxCol)
                        TILE_OPEN
                 else Some h))
    with (g := g3) as (g4 & Hrun4 & Hrect4 & Hcells4); [|lia|lia|done|].
  { intros row col g Hrow Hcol Hrect.
    apply copy_strip_step; (done || lia). }
  cbv beta in Hrun1, Hrun2, Hrun3, Hrun4.
  exists g4. rewrite Hrun1. simpl. rewrite Hrun2. simpl.
  rewrite Hrun3. simpl. rewrite Hrun4.
  split; [done|]. split; [done|]. intros r c.
  rewrite Hcells4, Hcells3, Hcells2, Hcells1. done.
Qed.

End Resize.

Lemma tile_of_inside (map : list (list ascii)) (maxRow maxCol r c : Z) :
  rect map maxRow maxCol = true → 0 ≤ r < maxRow → 0 ≤ c < maxCol →
  load_cell map r c = Some (tile_of map r c).
Proof.
  intros Hrect Hr Hc.
  destruct (load_cell_inside map maxRow maxCol r c) as [t Ht]; [done..|].
  unfold tile_of. by rewrite Ht.
Qed.

Section ResizeSuccess.
Context `{Symbols}.

Local Opaque store_at load_at.

Lemma resizeMap_spec (h : gmap nat (list (list ascii))) (a : nat)
    (map : list (list ascii)) (maxRow maxCol : Z) :
  h !! a = Some map →
  rect map maxRow maxCol = true →
  0 < maxRow → 0 < maxCol →
  (2 * maxRow) * (2 * maxCol) ≤ INT32_MAX →
  ∃ b map',
    resizeMap h (addr a) maxRow maxCol =
      Some (delete a (<[b := map']> h), 2 * maxRow, 2 * maxCol, addr b) ∧
    b ≠ a ∧
    rect map' (2 * maxRow) (2 * maxCol) = true ∧
    ∀ r c, 0 ≤ r < maxRow → 0 ≤ c < maxCol →
      load_cell map' r c = Some (tile_of map r c) ∧
      load_cell map' (r + maxRow) c =
        Some (without_player (tile_of map r c)) ∧
      load_cell map' r (c + maxCol) =
        Some (without_player (tile_of map r c)) ∧
      load_cell map' (r + maxRow) (c + maxCol) =
        Some (without_player (tile_of map r c)).
Proof.
  intros Ha Hrect Hr Hc Hfit.
  set (b := fresh (dom h)).
  assert (a ≠ b) as Hab.
  { intros ->. apply (is_fresh (dom h)). by apply elem_of_dom_2 in Ha. }
  destruct (createMap_spec h (2 * maxRow) (2 * maxCol))
    as (g0 & Hcreate & Hrect0 & _); [lia..|].
  destruct (resize_loops h a b map maxRow maxCol Hab Ha Hrect g0)
    as (g4 & Hloops & Hrect4 & Hcells); [done..|].
  exists b, g4. split; [|split; [done|split; [done|]]].
  - unfold resizeMap.
    rewrite decide_False by lia. rewrite decide_False by done.
    rewrite !wrap32_id by (unfold INT32_MIN, INT32_MAX in *; lia).
    replace (maxRow * 2) with (2 * maxRow) by lia.
    replace (maxCol * 2) with (2 * maxCol) by lia.
    rewrite decide_False by (rewrite int_div_gt; [lia|done|lia]).
    rewrite Hcreate. fold b. cbn [mbind option_bind].
    apply bind_Some in Hloops as (h1 & Hrun1 & Hloops). rewrite Hrun1.
    cbn [mbind option_bind].
    apply bind_Some in Hloops as (h2 & Hrun2 & Hloops). rewrite Hrun2.
    cbn [mbind option_bind].
    apply bind_Some in Hloops as (h3 & Hrun3 & Hloops). rewrite Hrun3.
    cbn [mbind option_bind]. rewrite Hloops. cbn [mbind option_bind].
    apply rect_spec in Hrect as [Hlen _].
    by rewrite (deleteMap_whole _ a map maxRow)
      by (by rewrite ?lookup_insert_ne by done).
  - intros r c Hrr Hcc. rewrite !Hcells. repeat split.
    + rewrite decide_False by lia. rewrite decide_False by lia.
      rewrite decide_False by lia. rewrite decide_True by lia.
      do 2 f_equal; lia.
    + rewrite decide_False by lia. rewrite decide_False by lia.
      rewrite decide_True by lia. do 3 f_equal; lia.
    + rewrite decide_False by lia. rewrite decide_True by lia.
      do 3 f_equal; lia.
    + rewrite decide_True by lia. do 3 f_equal; lia.
Qed.

Lemma resizeMap_success (h : gmap nat (list (list ascii))) (a : nat)
    (map : list (list ascii)) (maxRow maxCol pr pc : Z) :
  h !! a = Some map →
  rect map maxRow maxCol = true →
  load_cell map pr pc = Some TILE_PLAYER →
  count_tile TILE_PLAYER map = 1%nat →
  distinct_symbols = true →
  (2 * maxRow) * (2 * maxCol) ≤ INT32_MAX →
  ∃ b map',
    resizeMap h (addr a) maxRow maxCol =
      Some (delete a (<[b := map']> h), 2 * maxRow, 2 * maxCol, addr b) ∧
    b ≠ a ∧
    rect map' (2 * maxRow) (2 * maxCol) = true ∧
    (∀ r c t, load_cell map r c = Some t →
       load_cell map' r c = Some t ∧
       load_cell map' (r + maxRow) c = Some (without_player t) ∧
       load_cell map' r (c + maxCol) = Some (without_player t) ∧
       load_cell map' (r + maxRow) (c + maxCol) = Some (without_player t)) ∧
    count_tile TILE_PLAYER map' = 1%nat ∧
    load_cell map' pr pc = Some TILE_PLAYER.
Proof.
  intros Ha Hrect Hplayer Hone Hd Hfit.
  destruct (load_cell_bounds _ _ _ _ _ _ Hrect Hplayer) as [Hpr Hpc].
  destruct (resizeMap_spec h a map maxRow maxCol)
    as (b & map' & Hrun & Hab & Hrect' & Hcells); [done|done|lia|lia|done|].
  assert (∀ r c t, load_cell map r c = Some t →
            load_cell map' r c = Some t ∧
            load_cell map' (r + maxRow) c = Some (without_player t) ∧
            load_cell map' r (c + maxCol) = Some (without_player t) ∧
            load_cell map' (r + maxRow) (c + maxCol) =
              Some (without_player t)) as Hquad.
  { intros r c t Ht.
    destruct (load_cell_bounds _ _ _ _ _ _ Hrect Ht) as [Hr Hc].
    specialize (Hcells r c Hr Hc). unfold tile_of in Hcells.
    by rewrite Ht in Hcells. }
  assert (∀ t, without_player t ≠ TILE_PLAYER) as Hwp.
  { intros t. unfold without_player.
    destruct (decide (t = TILE_PLAYER)); [|done].
    intros Heq. symbols_differ Hd. }
  exists b, map'. split; [done|]. split; [done|]. split; [done|].
  split; [done|].
  pose proof (proj1 (Hquad pr pc _ Hplayer)) as Hplayer'.
  split; [|done].
  apply (count_tile_one _ _ pr pc); [done|].
  intros r c Hcell.
  destruct (load_cell_bounds _ _ _ _ _ _ Hrect' Hcell) as [Hr Hc].
  set (r0 := if decide (r < maxRow) then r else r - maxRow).
  set (c0 := if decide (c < maxCol) then c else c - maxCol).
  destruct (Hcells r0 c0) as (H1 & H2 & H3 & H4);
    [unfold r0; case_decide; lia|unfold c0; case_decide; lia|].
  unfold r0, c0 in *.
  destruct (decide (r < maxRow)), (decide (c < maxCol)).
  - rewrite Hcell in H1.
    rewrite <- (tile_of_inside map maxRow maxCol) in H1 by (done || lia).
    by apply (proj1 (count_tile_one _ _ pr pc Hplayer) Hone).
  - replace (c - maxCol + maxCol) with c in H3 by lia.
    rewrite Hcell in H3. injection H3 as H3. symmetry in H3. by apply Hwp in H3.
  - replace (r - maxRow + maxRow) with r in H2 by lia.
    rewrite Hcell in H2. injection H2 as H2. symmetry in H2. by apply Hwp in H2.
  - replace (r - maxRow + maxRow) with r in H4 by lia.
    replace (c - maxCol + maxCol) with c in H4 by lia.
    rewrite Hcell in H4. injection H4 as H4. symmetry in H4. by apply Hwp in H4.
Qed.

(** C4: on a map of [maxRow] by [maxCol] cells with exactly one player
    tile, whose doubled dimensions multiply to at most [INT32_MAX],
    [resizeMap] returns a new map of twice the rows and twice the columns and
    releases the old one.  The new map holds the old one in its top left
    quadrant and a copy of it in each of the three other quadrants, with
    [TILE_OPEN] where the copy would hold the player; exactly one player tile
    is left, at its old coordinates. *)
Theorem resize_tiles_four_copies (h : gmap nat (list (list ascii))) (a : nat)
    (map : list (list ascii)) (maxRow maxCol pr pc : Z) :
  h !! a = Some map →
  rect map maxRow maxCol = true →
  load_cell map pr pc = Some TILE_PLAYER →
  count_tile TILE_PLAYER map = 1%nat →
  distinct_symbols = true →
  (2 * maxRow) * (2 * maxCol) ≤ INT32_MAX →
  ∃ b map',
    resizeMap h (addr a) maxRow maxCol =
      Done (delete a (<[b := map']> h), 2 * maxRow, 2 * maxCol, addr b) ∧
    b ≠ a ∧
    rect map' (2 * maxRow) (2 * maxCol) = true ∧
    (∀ r c t, load_cell map r c = Some t →
       load_cell map' r c = Some t ∧
       load_cell map' (r + maxRow) c = Some (without_player t) ∧
       load_cell map' r (c + maxCol) = Some (without_player t) ∧
       load_cell map' (r + maxRow) (c + maxCol) = Some (without_player t)) ∧
    count_tile TILE_PLAYER map' = 1%nat ∧
    load_cell map' pr pc = Some TILE_PLAYER.
Proof. apply resizeMap_success. Qed.

End ResizeSuccess.

Lemma resize_tiles_four_copies_witness :
  ∃ b map',
    resizeMap (H := dungeon_symbols)
      {[ 0%nat := [["o"; "!"]; ["M"; "+"]]%char ]} (addr 0) 2 2 =
      Done (delete 0%nat (<[b := map']> {[ 0%nat := [["o"; "!"]; ["M"; "+"]]%char ]}),
            4, 4, addr b) ∧
    count_tile "o"%char map' = 1%nat.
Proof.
  destruct (resize_tiles_four_copies (H := dungeon_symbols)
              {[ 0%nat := [["o"; "!"]; ["M"; "+"]]%char ]} 0
              [["o"; "!"]; ["M"; "+"]]%char 2 2 0 0)
    as (b & map' & Hrun & _ & _ & _ & Hone & _).
  - reflexivity.
  - reflexivity.
  - reflexivity.
  - reflexivity.
  - reflexivity.
  - unfold INT32_MAX. lia.
  - exists b, map'. split; [exact Hrun|exact Hone].
Defined.

(** ** Extraction from a stream *)

Lemma skipws_tokens (l : list ascii) :
  filter (λ c, is_space c = false) (skipws l) =
  filter (λ c, is_space c = false) l.
Proof.
  induction l as [|c l IH]; [done|]. simpl.
  destruct (is_space c) eqn:Hc; [|done].
  rewrite filter_cons_False by (by rewrite Hc). done.
Qed.

Lemma skipws_head (l : list ascii) (c : ascii) (rest : list ascii) :
  skipws l = c :: rest → is_space c = false.
Proof.
  induction l as [|x l IH]; [done|]. simpl.
  destruct (is_space x) eqn:Hx; [done|]. by intros [= <- _].
Qed.

Lemma get_char_tokens (fin : istream) (spot : ascii) :
  match tile_tokens fin with
  | [] => failbit (get_char fin spot).1 = true
  | t :: ts =>
      ∃ fin', get_char fin spot = (fin', t) ∧ failbit fin' = false ∧
              tile_tokens fin' = ts
  end.
Proof.
  unfold tile_tokens, get_char. destruct (good fin); [|done].
  rewrite <- skipws_tokens.
  destruct (skipws (buf fin)) as [|c rest] eqn:Hskip; [done|].
  rewrite filter_cons_True by (by eapply skipws_head).
  by eexists.
Qed.

Lemma get_int_old (fin : istream) (v w : Z) :
  failbit (get_int fin v).1 = false → get_int fin v = get_int fin w.
Proof.
  unfold get_int. destruct (good fin); [|done].
  destruct (skipws (buf fin)) as [|c rest]; [done|].
  by destruct (if decide (c = "-"%char) then _ else _) as [negative body].
Qed.

(** ** The reading loops of [loadLevel] *)

Lemma for_loop_inv {St R : Type} (P : Z → St → Prop) (Q : R → Prop)
    (n : nat) :
  ∀ (i : Z) (body : Z → St → option (ctl St R)) (s : St),
  P i s →
  (∀ j s', i ≤ j < i + Z.of_nat n → P j s' →
     ∃ c, body j s' = Some c ∧
          match c with
          | Next s'' => P (j + 1) s''
          | Break _ => False
          | Return r => Q r
          end) →
  ∃ res, for_loop n i body s = Some res ∧
         match res with
         | inl s' => P (i + Z.of_nat n) s'
         | inr r => Q r
         end.
Proof.
  induction n as [|n IH]; intros i body s Hs Hbody.
  - exists (inl s). split; [done|].
    by replace (i + Z.of_nat 0) with i by lia.
  - destruct (Hbody i s) as (c & Hrun & Hc); [lia|done|].
    rewrite for_loop_S, Hrun. simpl. destruct c as [s1|s1|r]; [|done|].
    + destruct (IH (i + 1) body s1) as (res & Hrun' & Hres); [done| |].
      { intros j s' Hj. apply Hbody. lia. }
      exists res. split; [done|].
      by replace (i + Z.of_nat (S n)) with (i + 1 + Z.of_nat n) by lia.
    + by exists (inr r).
Qed.

Section ReadTile.
Context `{Symbols}.
Variable h0 : gmap nat (list (list ascii)).
Variable b : nat.
Variables maxRow maxCol : Z.
Variable player : Player.

Local Opaque store_at.

Lemma read_tile_step (g : list (list ascii)) (rw cl : Z) (fin : istream)
    (spot : ascii) :
  rect g maxRow maxCol = true → 0 ≤ rw < maxRow → 0 ≤ cl < maxCol →
  match tile_tokens fin with
  | [] =>
      read_tile (addr b) player rw cl (fin, spot, <[b := g]> h0) =
        Some (Return (<[b := g]> h0))
  | t :: ts =>
      if decide (rw = row player ∧ cl = col player) then
        ∃ fin' g',
          read_tile (addr b) player rw cl (fin, spot, <[b := g]> h0) =
            Some (Next (fin', t, <[b := g']> h0)) ∧
          tile_tokens fin' = ts ∧ rect g' maxRow maxCol = true ∧
          ∀ r c, load_cell g' r c =
                 if decide (r = rw ∧ c = cl) then Some TILE_PLAYER
                 else load_cell g r c
      else if recognized t then
        ∃ fin' g',
          read_tile (addr b) player rw cl (fin, spot, <[b := g]> h0) =
            Some (Next (fin', t, <[b := g']> h0)) ∧
          tile_tokens fin' = ts ∧ rect g' maxRow maxCol = true ∧
          ∀ r c, load_cell g' r c =
                 if decide (r = rw ∧ c = cl) then Some t
                 else load_cell g r c
      else
        read_tile (addr b) player rw cl (fin, spot, <[b := g]> h0) =
          Some (Return (<[b := g]> h0))
  end.
Proof.
  intros Hrect Hrw Hcl. pose proof (get_char_tokens fin spot) as Hget.
  unfold read_tile.
  destruct (tile_tokens fin) as [|t ts].
  - destruct (get_char fin spot) as [fin' spot']. simpl in Hget.
    by rewrite Hget.
  - destruct Hget as (fin' & -> & Hgood & Htoks). rewrite Hgood.
    destruct (decide (rw = row player ∧ cl = col player)) as [Hstart|_].
    + destruct (store_at_block h0 b g maxRow maxCol rw cl TILE_PLAYER)
        as (g' & -> & Hrect' & Hcells); [done..|].
      by exists fin', g'.
    + unfold recognized.
      assert (∀ v, t = v →
        ∃ fin'' g',
          (h ← store_at (<[b := g]> h0) (addr b) rw cl v;
           Some (Next (fin', t, h))) =
            Some (Next (fin'', t, <[b := g']> h0)
                    : ctl (istream * ascii * gmap nat (list (list ascii)))
                          (gmap nat (list (list ascii)))) ∧
          tile_tokens fin'' = ts ∧ rect g' maxRow maxCol = true ∧
          ∀ r c, load_cell g' r c =
                 if decide (r = rw ∧ c = cl) then Some t
                 else load_cell g r c) as Hstore.
      { intros v <-.
        destruct (store_at_block h0 b g maxRow maxCol rw cl t)
          as (g' & -> & Hrect' & Hcells); [done..|].
        by exists fin', g'. }
      repeat match goal with
             | |- context [decide (t = ?v)] =>
                 let Heq := fresh "Heq" in
                 destruct (decide (t = v)) as [Heq|?];
                 [rewrite bool_decide_eq_true_2 by (rewrite Heq; set_solver);
                  by apply Hstore|]
             end.
      rewrite bool_decide_eq_false_2; [done|]. set_solver.
Qed.

End ReadTile.

Section ReadLoops.
Context `{Symbols}.
Variable h0 : gmap nat (list (list ascii)).
Variable b : nat.
Variable g0 : list (list ascii).
Variables maxRow maxCol : Z.
Variable player : Player.
Variable tokens : list ascii.

Local Abbreviation read_upto := (tiles_read h0 b g0 maxRow maxCol player tokens).

Lemma tiles_read_start (fin : istream) (spot : ascii) :
  rect g0 maxRow maxCol = true → tile_tokens fin = tokens →
  read_upto 0 0 (fin, spot, <[b := g0]> h0).
Proof.
  intros Hrect Htoks. exists g0. simpl.
  split; [done|]. split; [done|]. split; [by rewrite Htoks|].
  split.
  - intros r c Hr Hc. by rewrite decide_False by lia.
  - intros r c Hr Hc Hvisited. lia.
Qed.

Lemma tiles_read_next_row (rw : Z) (s : istream * ascii * gmap nat (list (list ascii))) :
  read_upto rw maxCol s → read_upto (rw + 1) 0 s.
Proof.
  intros (g & Hheap & Hrect & Htoks & Hcells & Hrec).
  exists g. split; [done|]. split; [done|]. split; [|split].
  - by replace ((rw + 1) * maxCol + 0) with (rw * maxCol + maxCol) by ring.
  - intros r c Hr Hc. rewrite Hcells by done.
    destruct (decide (r < rw ∨ r = rw ∧ c < maxCol)),
      (decide (r < rw + 1 ∨ r = rw + 1 ∧ c < 0)); (done || lia).
  - intros r c Hr Hc Hvisited. apply Hrec; [done..|lia].
Qed.

Lemma read_tile_inv (rw cl : Z)
    (s : istream * ascii * gmap nat (list (list ascii))) :
  0 ≤ rw < maxRow → 0 ≤ cl < maxCol →
  read_upto rw cl s →
  ∃ c, read_tile (addr b) player rw cl s = Some c ∧
       match c with
       | Next s' => read_upto rw (cl + 1) s'
       | Break _ => False
       | Return _ => True
       end.
Proof.
  intros Hrw Hcl (g & Hheap & Hrect & Htoks & Hcells & Hrec).
  destruct s as [[fin spot] hh]. simpl in Hheap, Htoks. subst hh.
  pose proof (read_tile_step h0 b maxRow maxCol player g rw cl fin spot
                Hrect Hrw Hcl) as Hstep.
  rewrite Htoks in Hstep.
  assert (0 ≤ rw * maxCol + cl) as Hidx by nia.
  destruct (drop (Z.to_nat (rw * maxCol + cl)) tokens) as [|t ts] eqn:Hdrop.
  { eexists. split; [exact Hstep|done]. }
  assert (tokens !! Z.to_nat (rw * maxCol + cl) = Some t) as Ht.
  { rewrite <- (Nat.add_0_r (Z.to_nat _)), <- lookup_drop.
    by rewrite Hdrop. }
  assert (drop (Z.to_nat (rw * maxCol + (cl + 1))) tokens = ts) as Hts.
  { replace (Z.to_nat (rw * maxCol + (cl + 1)))
      with (S (Z.to_nat (rw * maxCol + cl))) by lia.
    rewrite (drop_S _ _ _ Ht) in Hdrop. by injection Hdrop. }
  assert (∀ r c, 0 ≤ r < maxRow → 0 ≤ c < maxCol →
            ¬ (r = rw ∧ c = cl) →
            (r < rw ∨ r = rw ∧ c < cl + 1) ↔ (r < rw ∨ r = rw ∧ c < cl))
    as Hvisited by (intros; lia).
  destruct (decide (rw = row player ∧ cl = col player)) as [[Hsr Hsc]|Hns].
  - destruct Hstep as (fin' & g' & Hrun & Htoks' & Hrect' & Hcells').
    eexists. split; [exact Hrun|]. exists g'. simpl.
    split; [done|]. split; [done|]. split; [by rewrite Htoks'|]. split.
    + intros r c Hr Hc. rewrite Hcells'.
      destruct (decide (r = rw ∧ c = cl)) as [[-> ->]|Hne].
      * rewrite (decide_True (P := _ ∨ _)) by lia. by rewrite decide_True.
      * rewrite Hcells by done.
        destruct (decide (r < rw ∨ r = rw ∧ c < cl)),
          (decide (r < rw ∨ r = rw ∧ c < cl + 1)); (done || lia).
    + intros r c Hr Hc Hv Hnstart. apply Hrec; [done..| |done].
      apply Hvisited; [done..|lia|done].
  - destruct (recognized t) eqn:Hrt.
    + destruct Hstep as (fin' & g' & Hrun & Htoks' & Hrect' & Hcells').
      eexists. split; [exact Hrun|]. exists g'. simpl.
      split; [done|]. split; [done|]. split; [by rewrite Htoks'|]. split.
      * intros r c Hr Hc. rewrite Hcells'.
        destruct (decide (r = rw ∧ c = cl)) as [[-> ->]|Hne].
        -- rewrite (decide_True (P := _ ∨ _)) by lia. by rewrite decide_False.
        -- rewrite Hcells by done.
           destruct (decide (r < rw ∨ r = rw ∧ c < cl)),
             (decide (r < rw ∨ r = rw ∧ c < cl + 1)); (done || lia).
      * intros r c Hr Hc Hv Hnstart.
        destruct (decide (r = rw ∧ c = cl)) as [[-> ->]|Hne];
          [by exists t|].
        apply Hrec; [done..| |done]. by apply Hvisited.
    + eexists. split; [exact Hstep|done].
Qed.

Lemma read_row_inv (rw : Z)
    (s : istream * ascii * gmap nat (list (list ascii))) :
  0 ≤ rw < maxRow → 0 ≤ maxCol →
  read_upto rw 0 s →
  ∃ c, nest <$> for_range 0 maxCol (λ col s',
                  read_tile (addr b) player rw col s') s = Some c ∧
       match c with
       | Next s' => read_upto (rw + 1) 0 s'
       | Break _ => False
       | Return _ => True
       end.
Proof.
  intros Hrw Hcols Hs. unfold for_range.
  destruct (for_loop_inv (λ cl s', read_upto rw cl s') (λ _, True)
              (Z.to_nat (maxCol - 0)) 0
              (λ col s', read_tile (addr b) player rw col s') s Hs)
    as (res & Hrun & Hres).
  - intros cl s' Hcl Hs'. apply read_tile_inv; [done|lia|done].
  - exists (nest res). rewrite Hrun. split; [done|].
    destruct res as [s'|r]; simpl; [|done].
    apply tiles_read_next_row.
    by replace (0 + Z.of_nat (Z.to_nat (maxCol - 0))) with maxCol in Hres
      by lia.
Qed.

Lemma read_loops (fin : istream) (spot : ascii) :
  rect g0 maxRow maxCol = true → 0 ≤ maxRow → 0 ≤ maxCol →
  tile_tokens fin = tokens →
  ∃ res,
    for_range 0 maxRow (λ row s,
      nest <$> for_range 0 maxCol (λ col s,
                 read_tile (addr b) player row col s) s)
      (fin, spot, <[b := g0]> h0) = Some res ∧
    match res with
    | inl s => read_upto maxRow 0 s
    | inr _ => True
    end.
Proof.
  intros Hrect Hrows Hcols Htoks. unfold for_range at 1.
  destruct (for_loop_inv (λ rw s', read_upto rw 0 s') (λ _, True)
              (Z.to_nat (maxRow - 0)) 0
              (λ row s, nest <$> for_range 0 maxCol (λ col s,
                          read_tile (addr b) player row col s) s)
              (fin, spot, <[b := g0]> h0))
    as (res & Hrun & Hres).
  - by apply tiles_read_start.
  - intros rw s' Hrw Hs'. apply read_row_inv; [lia|done|done].
  - exists res. split; [done|]. destruct res as [s'|r]; [|done].
    by replace (0 + Z.of_nat (Z.to_nat (maxRow - 0))) with maxRow in Hres
      by lia.
Qed.

End ReadLoops.

(** ** [loadLevel] *)

Section Load.
Context `{Symbols}.

Local Opaque get_int get_char createMap for_range for_each.

Lemma read_header_steps (text : list ascii) (maxRow maxCol sr sc : Z)
    (fin : istream) (v1 v2 v3 v4 : Z) :
  read_header text = Some (maxRow, maxCol, sr, sc, fin) →
  ∃ f1 f2 f3,
    get_int (mkStream text false false) v1 = (f1, maxRow) ∧
    failbit f1 = false ∧
    get_int f1 v2 = (f2, maxCol) ∧ failbit f2 = false ∧
    get_int f2 v3 = (f3, sr) ∧ failbit f3 = false ∧
    get_int f3 v4 = (fin, sc) ∧ failbit fin = false.
Proof.
  unfold read_header.
  destruct (get_int (mkStream text false false) 0) as [f1 r1] eqn:E1.
  destruct (failbit f1) eqn:F1; [done|].
  destruct (get_int f1 0) as [f2 r2] eqn:E2.
  destruct (failbit f2) eqn:F2; [done|].
  destruct (get_int f2 0) as [f3 r3] eqn:E3.
  destruct (failbit f3) eqn:F3; [done|].
  destruct (get_int f3 0) as [f4 r4] eqn:E4.
  destruct (failbit f4) eqn:F4; [done|].
  intros [= -> -> -> -> ->]. exists f1, f2, f3.
  rewrite <- (get_int_old _ 0 v1) by (by rewrite E1).
  rewrite <- (get_int_old _ 0 v2) by (by rewrite E2).
  rewrite <- (get_int_old _ 0 v3) by (by rewrite E3).
  rewrite <- (get_int_old _ 0 v4) by (by rewrite E4).
  done.
Qed.

Lemma loadLevel_no_header (fs : string → option (list ascii))
    (fileName : string) (h : gmap nat (list (list ascii)))
    (maxRow0 maxCol0 : Z) (player0 : Player) (text : list ascii) :
  fs fileName = Some text → read_header text = None →
  ∀ h' maxRow maxCol player a,
    loadLevel fs fileName h maxRow0 maxCol0 player0 ≠
      Some (h', maxRow, maxCol, player, addr a).
Proof.
  intros Hfs Hheader h' maxRow maxCol player a. unfold loadLevel.
  rewrite Hfs. revert Hheader. unfold read_header.
  destruct (get_int (mkStream text false false) maxRow0) as [f1 r1] eqn:E1.
  destruct (failbit f1) eqn:F1; [done|].
  rewrite <- (get_int_old _ maxRow0 0) by (by rewrite E1). rewrite E1, F1.
  destruct (get_int f1 maxCol0) as [f2 r2] eqn:E2.
  destruct (failbit f2) eqn:F2; [done|].
  rewrite <- (get_int_old _ maxCol0 0) by (by rewrite E2). rewrite E2, F2.
  destruct (decide (wrap32 (r1 * r2) ≤ 1)); [done|].
  destruct (createMap h r1 r2) as [[h1 map]|]; [|done].
  cbn [mbind option_bind].
  destruct (get_int f2 (row player0)) as [f3 r3] eqn:E3.
  destruct (failbit f3) eqn:F3; [done|].
  rewrite <- (get_int_old _ (row player0) 0) by (by rewrite E3).
  rewrite E3, F3. cbn [row col treasure].
  destruct (get_int f3 (col player0)) as [f4 r4] eqn:E4.
  destruct (failbit f4) eqn:F4; [done|].
  rewrite <- (get_int_old _ (col player0) 0) by (by rewrite E4).
  rewrite E4, F4. done.
Qed.

Lemma loadLevel_after_header (fs : string → option (list ascii))
    (fileName : string) (h : gmap nat (list (list ascii)))
    (maxRow0 maxCol0 : Z) (player0 : Player) (text : list ascii)
    (maxRow maxCol sr sc : Z) (fin : istream) :
  fs fileName = Some text →
  read_header text = Some (maxRow, maxCol, sr, sc, fin) →
  loadLevel fs fileName h maxRow0 maxCol0 player0 =
    if decide (wrap32 (maxRow * maxCol) ≤ 1)
    then Some (h, maxRow, maxCol, player0, nullptr)
    else
      '(h, map) ← createMap h maxRow maxCol;
      let player := mkPlayer sr sc (treasure player0) in
      if decide (sc >= maxCol ∨ sr >= maxRow) then
        Some (h, maxRow, maxCol, player, nullptr)
      else if decide (sc < 0 ∨ sr < 0) then
        Some (h, maxRow, maxCol, player, nullptr)
      else
        r ← for_range 0 maxRow (λ row s,
              nest <$> for_range 0 maxCol (λ col s,
                read_tile map player row col s) s) (fin, "000"%char, h);
        match r with
        | inr h => Some (h, maxRow, maxCol, player, nullptr)
        | inl (fin, spot, h) =>
          let '(fin, spot) := get_char fin spot in
          if negb (eofbit fin) then Some (h, maxRow, maxCol, player, nullptr)
          else
            '(hasDoor, hasExit) ←
              for_each 0 maxRow (λ row s,
                for_each 0 maxCol (λ col s,
                  find_way_out h map row col s) s) (false, false);
            if bool_decide (hasDoor = false) && bool_decide (hasExit = false)
            then Some (h, maxRow, maxCol, player, nullptr)
            else Some (h, maxRow, maxCol, player, map)
        end.
Proof.
  intros Hfs Hheader.
  destruct (read_header_steps text maxRow maxCol sr sc fin
              maxRow0 maxCol0 (row player0) (col player0) Hheader)
    as (f1 & f2 & f3 & E1 & F1 & E2 & F2 & E3 & F3 & E4 & F4).
  unfold loadLevel. rewrite Hfs, E1, F1, E2, F2.
  destruct (decide (wrap32 (maxRow * maxCol) ≤ 1)); [done|].
  destruct (createMap h maxRow maxCol) as [[h1 map]|]; [|done].
  cbn [mbind option_bind]. rewrite E3, F3. cbn [row col treasure].
  rewrite E4, F4. cbn [row col treasure]. done.
Qed.

End Load.

Section LoadResults.
Context `{Symbols}.

Lemma createMap_inv (h h1 : gmap nat (list (list ascii))) (maxRow maxCol : Z)
    (b : nat) :
  createMap h maxRow maxCol = Some (h1, addr b) →
  0 < maxRow ∧ 0 < maxCol ∧ maxRow * maxCol ≤ INT32_MAX ∧
  ∃ g0, h1 = <[b := g0]> h ∧ rect g0 maxRow maxCol = true.
Proof.
  intros Hcreate.
  assert (0 < maxRow ∧ 0 < maxCol ∧ maxRow * maxCol ≤ INT32_MAX)
    as (Hr & Hc & Hfit).
  { revert Hcreate. unfold createMap.
    destruct (decide (maxRow ≤ 0 ∨ maxCol ≤ 0)); [done|].
    destruct (decide (maxRow > int_div INT32_MAX maxCol)) as [|Hfit]; [done|].
    intros _. rewrite int_div_gt in Hfit by (done || lia). lia. }
  split; [done|]. split; [done|]. split; [done|].
  destruct (createMap_spec h maxRow maxCol Hr Hc Hfit)
    as (g0 & Hspec & Hrect & _).
  rewrite Hspec in Hcreate. injection Hcreate as <- <-. by exists g0.
Qed.

Lemma read_tile_null (player : Player) (rw cl : Z)
    (s : istream * ascii * gmap nat (list (list ascii))) :
  read_tile nullptr player rw cl s = None ∨
  ∃ h, read_tile nullptr player rw cl s = Some (Return h).
Proof.
  destruct s as [[fin spot] hh]. unfold read_tile.
  destruct (get_char fin spot) as [fin' spot'].
  destruct (failbit fin'); [by right; eexists|].
  repeat (case_decide; [by left|]). by right; eexists.
Qed.

Lemma read_loops_null (player : Player) (maxRow maxCol : Z)
    (s : istream * ascii * gmap nat (list (list ascii)))
    (res : istream * ascii * gmap nat (list (list ascii)) +
           gmap nat (list (list ascii))) :
  0 < maxRow → 0 < maxCol →
  for_range 0 maxRow (λ row s,
    nest <$> for_range 0 maxCol (λ col s,
               read_tile nullptr player row col s) s) s = Some res →
  ∃ h, res = inr h.
Proof.
  intros Hr Hc. unfold for_range.
  destruct (Z.to_nat (maxRow - 0)) as [|n] eqn:Hn; [lia|].
  destruct (Z.to_nat (maxCol - 0)) as [|m] eqn:Hm; [lia|].
  rewrite for_loop_S. rewrite for_loop_S.
  destruct (read_tile_null player 0 0 s) as [->|[h' ->]]; [done|].
  simpl. intros [= <-]. by exists h'.
Qed.

Local Opaque createMap for_range for_each get_char.

Lemma loadLevel_accepts (fs : string → option (list ascii))
    (fileName : string) (h h' : gmap nat (list (list ascii)))
    (maxRow0 maxCol0 maxRow maxCol : Z) (player0 player : Player) (a : nat) :
  loadLevel fs fileName h maxRow0 maxCol0 player0 =
    Some (h', maxRow, maxCol, player, addr a) →
  distinct_symbols = true →
  ∃ text fin map,
    fs fileName = Some text ∧
    read_header text =
      Some (maxRow, maxCol, row player, col player, fin) ∧
    h' !! a = Some map ∧
    rect map maxRow maxCol = true ∧
    load_cell map (row player) (col player) = Some TILE_PLAYER ∧
    count_tile TILE_PLAYER map = 1%nat ∧
    ∀ r c, 0 ≤ r < maxRow → 0 ≤ c < maxCol →
           ¬ (r = row player ∧ c = col player) →
           load_cell map r c = tile_tokens fin !! Z.to_nat (r * maxCol + c).
Proof.
  intros Hload Hd.
  destruct (fs fileName) as [text|] eqn:Hfs;
    [|by unfold loadLevel in Hload; rewrite Hfs in Hload].
  destruct (read_header text) as [[[[[mr mc] sr] sc] fin]|] eqn:Hheader;
    [|by destruct (loadLevel_no_header fs fileName h maxRow0 maxCol0 player0
                     text Hfs Hheader h' maxRow maxCol player a)].
  rewrite (loadLevel_after_header fs fileName h maxRow0 maxCol0 player0 text
             mr mc sr sc fin Hfs Hheader) in Hload.
  destruct (decide (wrap32 (mr * mc) ≤ 1)); [done|].
  destruct (createMap h mr mc) as [[h1 map]|] eqn:Hcreate; [|done].
  cbn [mbind option_bind] in Hload. cbv zeta in Hload.
  destruct (decide (sc >= mc ∨ sr >= mr)); [done|].
  destruct (decide (sc < 0 ∨ sr < 0)); [done|].
  destruct (for_range 0 mr _ _) as [res|] eqn:Hloops; [|done].
  cbn [mbind option_bind] in Hload.
  destruct map as [|b].
  { apply read_loops_null in Hloops as [hh ->]; [done|lia..]. }
  apply createMap_inv in Hcreate as (Hr & Hc & Hfit & g0 & -> & Hrect0).
  destruct (read_loops h b g0 mr mc (mkPlayer sr sc (treasure player0))
              (tile_tokens fin) fin "000"%char)
    as (res' & Hloops' & Hres); [done|lia|lia|done|].
  rewrite Hloops in Hloops'. injection Hloops' as <-.
  destruct res as [[[fin' spot'] hh]|hh]; [|done].
  destruct Hres as (g & Hheap & Hrect & _ & Hcells & Hrec).
  simpl in Hheap. subst hh.
  destruct (get_char fin' spot') as [fin'' spot''].
  destruct (negb (eofbit fin'')); [done|].
  destruct (for_each 0 mr _ _) as [[hasDoor hasExit]|]; [|done].
  cbn [mbind option_bind] in Hload.
  destruct (bool_decide (hasDoor = false) && bool_decide (hasExit = false));
    [done|].
  injection Hload as <- <- <- <- <-. cbn [row col] in *.
  assert (load_cell g sr sc = Some TILE_PLAYER) as Hplayer.
  { rewrite Hcells by lia. rewrite decide_True by lia.
    by rewrite decide_True. }
  exists text, fin, g. split; [done|]. split; [done|].
  split; [apply lookup_insert_eq|]. split; [done|]. split; [done|].
  split.
  - apply (count_tile_one _ _ sr sc); [done|]. intros r c Hcell.
    destruct (load_cell_bounds _ _ _ _ _ _ Hrect Hcell) as [Hrr Hcc].
    destruct (decide (r = sr ∧ c = sc)) as [|Hne]; [done|]. exfalso.
    destruct (Hrec r c) as (t & Ht & Hrt); [done|done|lia|done|].
    rewrite Hcells in Hcell by done.
    rewrite decide_True in Hcell by lia.
    rewrite decide_False in Hcell by done.
    rewrite Ht in Hcell. injection Hcell as ->.
    apply bool_decide_eq_true_1 in Hrt.
    rewrite !elem_of_cons, elem_of_nil in Hrt. symbols_differ Hd.
  - intros r c Hrr Hcc Hne. rewrite Hcells by done.
    rewrite decide_True by lia. by rewrite decide_False.
Qed.

Lemma loadLevel_rejects (fs : string → option (list ascii))
    (fileName : string) (h : gmap nat (list (list ascii)))
    (maxRow0 maxCol0 : Z) (player0 : Player) (text : list ascii)
    (maxRow maxCol sr sc : Z) (fin : istream) (r c : Z) (t : ascii) :
  fs fileName = Some text →
  read_header text = Some (maxRow, maxCol, sr, sc, fin) →
  maxRow * maxCol ≤ INT32_MAX →
  0 ≤ r < maxRow → 0 ≤ c < maxCol → ¬ (r = sr ∧ c = sc) →
  tile_tokens fin !! Z.to_nat (r * maxCol + c) = Some t →
  recognized t = false →
  ∃ h' player',
    loadLevel fs fileName h maxRow0 maxCol0 player0 =
      Some (h', maxRow, maxCol, player', nullptr).
Proof.
  intros Hfs Hheader Hfit Hr Hc Hne Ht Hrt.
  rewrite (loadLevel_after_header fs fileName h maxRow0 maxCol0 player0 text
             maxRow maxCol sr sc fin Hfs Hheader).
  destruct (decide (wrap32 (maxRow * maxCol) ≤ 1)); [by eexists _, _|].
  destruct (createMap_spec h maxRow maxCol) as (g0 & -> & Hrect0 & _);
    [lia..|].
  cbn [mbind option_bind]. cbv zeta.
  destruct (decide (sc >= maxCol ∨ sr >= maxRow)); [by eexists _, _|].
  destruct (decide (sc < 0 ∨ sr < 0)); [by eexists _, _|].
  destruct (read_loops h (fresh (dom h)) g0 maxRow maxCol
              (mkPlayer sr sc (treasure player0))
              (tile_tokens fin) fin "000"%char)
    as (res & -> & Hres); [done|lia|lia|done|].
  cbn [mbind option_bind].
  destruct res as [[[fin' spot'] hh]|hh]; [|by eexists _, _].
  exfalso. destruct Hres as (g & _ & _ & _ & _ & Hrec).
  destruct (Hrec r c) as (t' & Ht' & Hrt'); [done|done|lia|done|].
  congruence.
Qed.

End LoadResults.

(** ** The player tile is unique *)

Section OnePlayer.
Context `{Symbols}.

Lemma doPlayerMove_keeps_player (map : list (list ascii)) (maxRow maxCol : Z)
    (player : Player) (nextRow nextCol : Z) :
  valid_state map maxRow maxCol player = true →
  distinct_symbols = true →
  ∃ map' player' status,
    doPlayerMove map maxRow maxCol player nextRow nextCol =
      Some (map', player', status) ∧
    rect map' maxRow maxCol = true ∧
    load_cell map' (row player') (col player') = Some TILE_PLAYER ∧
    count_tile TILE_PLAYER map' = 1%nat.
Proof.
  intros (Hrect & _ & _ & Hpr & Hpc & Hplayer & Hone & _)%valid_state_spec Hd.
  assert (∀ status : Z, ∃ map' player' (status' : Z),
            Some (map, player, status) = Some (map', player', status') ∧
            rect map' maxRow maxCol = true ∧
            load_cell map' (row player') (col player') = Some TILE_PLAYER ∧
            count_tile TILE_PLAYER map' = 1%nat) as Hsame
    by (intros status; by exists map, player, status).
  unfold doPlayerMove.
  destruct (decide (nextRow >= maxRow ∨ nextCol >= maxCol)); [apply Hsame|].
  destruct (decide (nextRow < 0 ∨ nextCol < 0)); [apply Hsame|].
  destruct (load_cell_inside map maxRow maxCol nextRow nextCol)
    as [target Htarget]; [done|lia|lia|].
  rewrite Htarget. cbn [mbind option_bind].
  assert (∀ (treasure' : Z) (status : Z),
    target ≠ TILE_PLAYER →
    ∃ map' player' (status' : Z),
      ('(map1, player1) ←
         step_onto map (mkPlayer (row player) (col player) treasure')
           (row player) (col player) nextRow nextCol;
       Some (map1, player1, status)) = Some (map', player', status') ∧
      rect map' maxRow maxCol = true ∧
      load_cell map' (row player') (col player') = Some TILE_PLAYER ∧
      count_tile TILE_PLAYER map' = 1%nat) as Hmove.
  { intros treasure' status Hnp.
    destruct (step_onto_spec map maxRow maxCol
                (mkPlayer (row player) (col player) treasure')
                nextRow nextCol)
      as (map' & Hstep & Hrect' & Hcells); [done|done|done|lia|lia|].
    cbn [row col treasure] in *. rewrite Hstep. cbn [mbind option_bind].
    assert (¬ (nextRow = row player ∧ nextCol = col player)) as Hne.
    { intros [-> ->]. congruence. }
    assert (load_cell map' nextRow nextCol = Some TILE_PLAYER) as Hnew.
    { rewrite Hcells. rewrite decide_False by done. by rewrite decide_True. }
    eexists _, _, _. split; [done|]. split; [done|]. cbn [row col].
    split; [done|].
    apply (count_tile_one _ _ nextRow nextCol); [done|].
    intros r c. rewrite Hcells.
    destruct (decide (r = row player ∧ c = col player)) as [_|Hno].
    { intros [= Heq]. symbols_differ Hd. }
    destruct (decide (r = nextRow ∧ c = nextCol)); [done|].
    intros Hcell. destruct Hno.
    by apply (proj1 (count_tile_one _ _ _ _ Hplayer) Hone). }
  destruct (decide (target = TILE_MONSTER ∨ target = TILE_PILLAR));
    [apply Hsame|].
  destruct (decide (target = TILE_EXIT ∧ treasure player = 0));
    [apply Hsame|].
  destruct (decide (target = TILE_EXIT ∧ treasure player ≠ 0)) as [[-> _]|_].
  { destruct player. apply Hmove. intros Heq. symbols_differ Hd. }
  destruct (decide (target = TILE_DOOR)) as [->|_].
  { destruct player. apply Hmove. intros Heq. symbols_differ Hd. }
  destruct (decide (target = TILE_TREASURE)) as [->|_].
  { apply Hmove. intros Heq. symbols_differ Hd. }
  destruct (decide (target = TILE_AMULET)) as [->|_].
  { destruct player. apply Hmove. intros Heq. symbols_differ Hd. }
  destruct (decide (target = TILE_OPEN)) as [->|_].
  { destruct player. apply Hmove. intros Heq. symbols_differ Hd. }
  apply Hsame.
Qed.

Lemma doMonsterAttack_player_cell (map : list (list ascii))
    (maxRow maxCol : Z) (player : Player) :
  valid_state map maxRow maxCol player = true →
  distinct_symbols = true →
  ∃ map' eaten,
    doMonsterAttack map maxRow maxCol player = Some (map', eaten) ∧
    (eaten = false →
       load_cell map' (row player) (col player) = Some TILE_PLAYER ∧
       count_tile TILE_PLAYER map' = 1%nat) ∧
    (eaten = true →
       load_cell map' (row player) (col player) = Some TILE_MONSTER).
Proof.
  intros Hvalid Hd.
  destruct (doMonsterAttack_spec map maxRow maxCol player Hvalid Hd)
    as (map' & eaten & Hrun & Hrect' & Hdone & _ & Horigin & Hframe & Heaten).
  apply valid_state_spec in Hvalid
    as (Hrect & _ & _ & Hrow & Hcol & Hplayer & Hone & _).
  exists map', eaten. split; [done|]. split.
  - intros ->.
    assert (load_cell map' (row player) (col player) = Some TILE_PLAYER)
      as Hplayer'.
    { destruct Horigin as [(Hseen & _)|(_ & Ho)]; [|by rewrite <- Hplayer].
      apply Heaten in Hseen. done. }
    split; [done|].
    apply (count_tile_one _ _ _ _ Hplayer'). intros r c Hcell.
    destruct (load_cell_bounds _ _ _ _ _ _ Hrect' Hcell) as [Hr Hc].
    assert (∀ pos, tile_at map pos = Some TILE_PLAYER →
                   pos = (row player, col player)) as Hunique.
    { intros [r0 c0] Hpos.
      destruct (proj1 (count_tile_one _ _ _ _ Hplayer) Hone r0 c0 Hpos)
        as [-> ->]. done. }
    destruct (on_ray_or_not maxRow maxCol player (r, c) Hrow Hcol Hr Hc)
      as [(d & j & Hj & Hpos)|Hoff].
    + destruct (decide (j = 0)) as [->|Hnz].
      { rewrite ray_cell_origin in Hpos. by injection Hpos as <- <-. }
      exfalso.
      assert (tile_at map' (ray_cell player d j) = Some TILE_PLAYER) as Ht
        by (by rewrite Hpos).
      destruct (Hdone d j (all_rays d))
        as [(_ & Ht')|[(_ & _ & Ht')|(_ & _ & Ht')]]; [lia|..];
        rewrite Ht in Ht'.
      * injection Ht' as Heq. symbols_differ Hd.
      * injection Ht' as Heq. symbols_differ Hd.
      * symmetry in Ht'. apply Hunique in Ht'.
        rewrite <- (ray_cell_origin player d) in Ht'.
        apply ray_cell_inj in Ht'. lia.
    + exfalso. apply (Hoff Up 0); [simpl; lia|].
      rewrite ray_cell_origin. symmetry. apply Hunique.
      rewrite <- (Hframe (r, c)) by done. done.
  - intros ->.
    destruct Horigin as [(_ & Ho)|(Hnone & _)]; [done|].
    destruct (proj1 Heaten eq_refl) as (d & Hin & Hseen).
    by destruct (Hnone d Hin).
Qed.

(** A monster in sight at distance one is a monster on the next cell of
    the ray. *)
Lemma adjacent_monster_in_sight (map : list (list ascii)) (maxRow maxCol : Z)
    (player : Player) (d : Dir) :
  distinct_symbols = true →
  monster_in_sight map maxRow maxCol player d 1 ↔
  1 ≤ ray_length maxRow maxCol player d ∧
  tile_at map (ray_cell player d 1) = Some TILE_MONSTER.
Proof.
  intros Hd. unfold monster_in_sight, monster_seen. split.
  - intros (Hlen & _ & Hmon). split; [lia|done].
  - intros (Hlen & Hmon). split; [lia|]. split; [|done].
    intros t Ht. replace t with 1 by lia. rewrite Hmon.
    intros [= Heq]. symbols_differ Hd.
Qed.

(** What [doMonsterAttack] does to the player's cell, and when. *)
Lemma doMonsterAttack_capture (map : list (list ascii))
    (maxRow maxCol : Z) (player : Player) :
  valid_state map maxRow maxCol player = true →
  distinct_symbols = true →
  ∃ map' eaten,
    doMonsterAttack map maxRow maxCol player = Some (map', eaten) ∧
    (eaten = true ↔
     ∃ d, 1 ≤ ray_length maxRow maxCol player d ∧
          tile_at map (ray_cell player d 1) = Some TILE_MONSTER) ∧
    (eaten = false →
       load_cell map' (row player) (col player) = Some TILE_PLAYER ∧
       count_tile TILE_PLAYER map' = 1%nat) ∧
    (eaten = true →
       load_cell map' (row player) (col player) = Some TILE_MONSTER ∧
       count_tile TILE_PLAYER map' = 0%nat).
Proof.
  intros Hvalid Hd.
  destruct (doMonsterAttack_player_cell map maxRow maxCol player Hvalid Hd)
    as (map' & eaten & Hrun & Hkept & Hcaught).
  destruct (doMonsterAttack_spec map maxRow maxCol player Hvalid Hd)
    as (map'' & eaten' & Hrun' & Hrect' & Hdone & _ & _ & Hframe & Heaten).
  rewrite Hrun in Hrun'. injection Hrun' as <- <-.
  apply valid_state_spec in Hvalid
    as (Hrect & _ & _ & Hrow & Hcol & Hplayer & Hone & _).
  exists map', eaten. split; [done|]. split; [|split; [done|]].
  - rewrite Heaten. split.
    + intros (d & _ & Hseen). exists d. by apply adjacent_monster_in_sight.
    + intros (d & Hnear). exists d. split; [apply all_rays|].
      by apply adjacent_monster_in_sight.
  - intros Hyes. specialize (Hcaught Hyes). split; [done|].
    apply count_tile_zero. intros r c Hcell.
    destruct (load_cell_bounds _ _ _ _ _ _ Hrect' Hcell) as [Hr Hc].
    assert (∀ pos, tile_at map pos = Some TILE_PLAYER →
                   pos = (row player, col player)) as Hunique.
    { intros [r0 c0] Hpos.
      destruct (proj1 (count_tile_one _ _ _ _ Hplayer) Hone r0 c0 Hpos)
        as [-> ->]. done. }
    destruct (on_ray_or_not maxRow maxCol player (r, c) Hrow Hcol Hr Hc)
      as [(d & j & Hj & Hpos)|Hoff].
    + destruct (decide (j = 0)) as [->|Hnz].
      { rewrite ray_cell_origin in Hpos. injection Hpos as <- <-.
        rewrite Hcell in Hcaught. injection Hcaught as Heq.
        symbols_differ Hd. }
      assert (tile_at map' (ray_cell player d j) = Some TILE_PLAYER) as Ht
        by (by rewrite Hpos).
      destruct (Hdone d j (all_rays d))
        as [(_ & Ht')|[(_ & _ & Ht')|(_ & _ & Ht')]]; [lia|..];
        rewrite Ht in Ht'.
      * injection Ht' as Heq. symbols_differ Hd.
      * injection Ht' as Heq. symbols_differ Hd.
      * symmetry in Ht'. apply Hunique in Ht'.
        rewrite <- (ray_cell_origin player d) in Ht'.
        apply ray_cell_inj in Ht'. lia.
    + apply (Hoff Up 0); [simpl; lia|].
      rewrite ray_cell_origin. symmetry. apply Hunique.
      rewrite <- (Hframe (r, c)) by done. done.
Qed.

End OnePlayer.

Section LoadClaims.
Context `{Symbols}.

(** C8: when [loadLevel] accepts a level file, the map it returns is a
    rectangle of the declared size that holds exactly one player tile, in the
    cell of the declared start row and column, which are also the
    coordinates given to the player.  Every other cell holds the token the
    file has for it; the token of the start cell is not used. *)
Theorem load_places_one_player (fs : string → option (list ascii))
    (fileName : string) (h h' : gmap nat (list (list ascii)))
    (maxRow0 maxCol0 maxRow maxCol : Z) (player0 player : Player) (a : nat) :
  loadLevel fs fileName h maxRow0 maxCol0 player0 =
    Done (h', maxRow, maxCol, player, addr a) →
  distinct_symbols = true →
  ∃ text fin map,
    fs fileName = Some text ∧
    read_header text =
      Some (maxRow, maxCol, row player, col player, fin) ∧
    h' !! a = Some map ∧
    rect map maxRow maxCol = true ∧
    load_cell map (row player) (col player) = Some TILE_PLAYER ∧
    count_tile TILE_PLAYER map = 1%nat ∧
    ∀ r c, 0 ≤ r < maxRow → 0 ≤ c < maxCol →
           ¬ (r = row player ∧ c = col player) →
           load_cell map r c = tile_tokens fin !! Z.to_nat (r * maxCol + c).
Proof. apply loadLevel_accepts. Qed.

(** C2, as the code has it: loading, moving and a resize that succeeds
    leave exactly one player tile on the map, in the cell the player's
    coordinates designate.  [doMonsterAttack] returns true exactly when a
    monster stands on one of the four cells next to the player.  When it
    returns false it leaves exactly one player tile, in the player's cell;
    when it returns true it has put a monster onto the player's cell and no
    cell of the map holds the player tile any more. *)
Theorem one_player_tile_preserved :
  distinct_symbols = true →
  (∀ (fs : string → option (list ascii)) (fileName : string)
     (h h' : gmap nat (list (list ascii))) (maxRow0 maxCol0 maxRow maxCol : Z)
     (player0 player : Player) (a : nat),
     loadLevel fs fileName h maxRow0 maxCol0 player0 =
       Done (h', maxRow, maxCol, player, addr a) →
     ∃ map, h' !! a = Some map ∧
            load_cell map (row player) (col player) = Some TILE_PLAYER ∧
            count_tile TILE_PLAYER map = 1%nat) ∧
  (∀ (map : list (list ascii)) (maxRow maxCol : Z) (player : Player)
     (nextRow nextCol : Z),
     valid_state map maxRow maxCol player = true →
     ∃ map' player' status,
       doPlayerMove map maxRow maxCol player nextRow nextCol =
         Done (map', player', status) ∧
       load_cell map' (row player') (col player') = Some TILE_PLAYER ∧
       count_tile TILE_PLAYER map' = 1%nat) ∧
  (∀ (h : gmap nat (list (list ascii))) (a : nat) (map : list (list ascii))
     (maxRow maxCol : Z) (player : Player),
     h !! a = Some map →
     valid_state map maxRow maxCol player = true →
     (2 * maxRow) * (2 * maxCol) ≤ INT32_MAX →
     ∃ b map',
       resizeMap h (addr a) maxRow maxCol =
         Done (delete a (<[b := map']> h), 2 * maxRow, 2 * maxCol, addr b) ∧
       b ≠ a ∧
       load_cell map' (row player) (col player) = Some TILE_PLAYER ∧
       count_tile TILE_PLAYER map' = 1%nat) ∧
  (∀ (map : list (list ascii)) (maxRow maxCol : Z) (player : Player),
     valid_state map maxRow maxCol player = true →
     ∃ map' eaten,
       doMonsterAttack map maxRow maxCol player = Done (map', eaten) ∧
       (eaten = true ↔
        ∃ d, 1 ≤ ray_length maxRow maxCol player d ∧
             tile_at map (ray_cell player d 1) = Some TILE_MONSTER) ∧
       (eaten = false →
          load_cell map' (row player) (col player) = Some TILE_PLAYER ∧
          count_tile TILE_PLAYER map' = 1%nat) ∧
       (eaten = true →
          load_cell map' (row player) (col player) = Some TILE_MONSTER ∧
          count_tile TILE_PLAYER map' = 0%nat)).
Proof.
  intros Hd. split; [|split; [|split]].
  - intros fs fileName h h' maxRow0 maxCol0 maxRow maxCol player0 player a
      Hload.
    destruct (loadLevel_accepts _ _ _ _ _ _ _ _ _ _ _ Hload Hd)
      as (_ & _ & map & _ & _ & Hmap & _ & Hplayer & Hone & _).
    by exists map.
  - intros map maxRow maxCol player nextRow nextCol Hvalid.
    destruct (doPlayerMove_keeps_player map maxRow maxCol player
                nextRow nextCol Hvalid Hd)
      as (map' & player' & status & Hrun & _ & Hplayer & Hone).
    by exists map', player', status.
  - intros h a map maxRow maxCol player Ha Hvalid Hfit.
    apply valid_state_spec in Hvalid
      as (Hrect & _ & _ & _ & _ & Hplayer & Hone & _).
    destruct (resizeMap_success h a map maxRow maxCol (row player)
                (col player) Ha Hrect Hplayer Hone Hd Hfit)
      as (b & map' & Hrun & Hab & _ & _ & Hone' & Hplayer').
    by exists b, map'.
  - intros map maxRow maxCol player Hvalid.
    by apply doMonsterAttack_capture.
Qed.

End LoadClaims.

Lemma load_places_one_player_witness :
  ∃ map : list (list ascii),
    count_tile "o"%char map = 1%nat ∧ load_cell map 0 1 = Some "o"%char.
Proof.
  destruct (load_places_one_player (H := dungeon_symbols) sample_files
              "sample.txt" ∅ (<[0%nat := [["-"; "o"]; ["!"; "-"]]%char]> ∅)
              0 0 2 2 (mkPlayer 0 0 0) (mkPlayer 0 1 0) 0)
    as (text & fin & map & _ & _ & _ & _ & Hplayer & Hone & _).
  - vm_compute. reflexivity.
  - reflexivity.
  - exists map. split; [exact Hone|exact Hplayer].
Defined.

Lemma one_player_tile_preserved_witness :
  ∃ map' eaten,
    doMonsterAttack (H := dungeon_symbols)
      [["o"; "-"; "M"]; ["-"; "+"; "!"]]%char 2 3 (mkPlayer 0 0 0) =
      Done (map', eaten) ∧
    (eaten = false →
       load_cell map' 0 0 = Some "o"%char ∧
       count_tile "o"%char map' = 1%nat) ∧
    (eaten = true →
       load_cell map' 0 0 = Some "M"%char ∧
       count_tile "o"%char map' = 0%nat).
Proof.
  destruct (one_player_tile_preserved (H := dungeon_symbols))
    as (_ & _ & _ & Hattack).
  - reflexivity.
  - destruct (Hattack [["o"; "-"; "M"]; ["-"; "+"; "!"]]%char 2 3
                (mkPlayer 0 0 0))
      as (map' & eaten & Hrun & _ & Hkept & Hcaught).
    + reflexivity.
    + exists map', eaten. split; [exact Hrun|]. split; [exact Hkept|].
      exact Hcaught.
Defined.

(** C3, as the specification words it, fails: in the sample level the token
    for the start cell, row 0 and column 1, is the character x, which is no
    tile, and the level is accepted all the same. *)
Lemma unknown_tile_at_start_is_accepted :
  ¬ (∀ (fs : string → option (list ascii)) (fileName : string)
       (h : gmap nat (list (list ascii))) (maxRow0 maxCol0 : Z)
       (player0 : Player) (text : list ascii) (maxRow maxCol sr sc : Z)
       (fin : istream) (r c : Z) (t : ascii),
       fs fileName = Some text →
       read_header text = Some (maxRow, maxCol, sr, sc, fin) →
       0 ≤ r < maxRow → 0 ≤ c < maxCol →
       tile_tokens fin !! Z.to_nat (r * maxCol + c) = Some t →
       recognized (H := dungeon_symbols) t = false →
       ∃ h' maxRow' maxCol' player',
         loadLevel (H := dungeon_symbols) fs fileName h maxRow0 maxCol0
           player0 = Done (h', maxRow', maxCol', player', nullptr)).
Proof.
  intros Hclaim.
  destruct (Hclaim sample_files "sample.txt"%string ∅ 0 0 (mkPlayer 0 0 0)
              sample_level 2 2 0 1
              (mkStream (list_ascii_of_string " - x ! -") false false)
              0 1 "x"%char)
    as (h' & maxRow' & maxCol' & player' & Hload);
    [reflexivity|reflexivity|lia|lia|reflexivity|reflexivity|].
  vm_compute in Hload. discriminate Hload.
Qed.

(** C2, as the specification words it, fails: a monster next to the player
    is moved onto the player's cell, after which no cell holds the player. *)
Lemma monster_overwrites_player :
  ¬ (∀ (map : list (list ascii)) (maxRow maxCol : Z) (player : Player)
       (map' : list (list ascii)) (eaten : bool),
       valid_state (H := dungeon_symbols) map maxRow maxCol player = true →
       doMonsterAttack (H := dungeon_symbols) map maxRow maxCol player =
         Done (map', eaten) →
       load_cell map' (row player) (col player) =
         load_cell map (row player) (col player) ∧
       count_tile "o"%char map' = 1%nat).
Proof.
  intros Hclaim.
  destruct (Hclaim [["o"; "M"]; ["-"; "!"]]%char 2 2 (mkPlayer 0 0 0)
              [["M"; "-"]; ["-"; "!"]]%char true eq_refl eq_refl)
    as [Hcell _].
  discriminate Hcell.
Qed.

(** * Further properties of the module *)

(** ** The map container *)

Section Container.
Context `{Symbols}.

(** X1: with positive dimensions whose product does not exceed
    [INT32_MAX], [createMap] returns a block that was not in use, holding a
    rectangle of the size asked for with [TILE_OPEN] in every cell; the
    blocks that existed are as they were. *)
Theorem createMap_allocates_open_map (h : gmap nat (list (list ascii)))
    (maxRow maxCol : Z) :
  0 < maxRow → 0 < maxCol → maxRow * maxCol ≤ INT32_MAX →
  ∃ b g,
    createMap h maxRow maxCol = Done (<[b := g]> h, addr b) ∧
    h !! b = None ∧
    rect g maxRow maxCol = true ∧
    (∀ r c, 0 ≤ r < maxRow → 0 ≤ c < maxCol →
            load_cell g r c = Some TILE_OPEN) ∧
    (∀ a, a ≠ b → <[b := g]> h !! a = h !! a).
Proof.
  intros Hr Hc Hfit.
  destruct (createMap_spec h maxRow maxCol Hr Hc Hfit)
    as (g & Hrun & Hrect & Hcells).
  exists (fresh (dom h)), g. split; [done|]. split; [|split; [done|split]].
  - apply not_elem_of_dom, is_fresh.
  - done.
  - intros a Ha. by rewrite lookup_insert_ne.
Qed.

(** X2: [createMap] returns the null pointer, and leaves the heap as it
    was, exactly when a dimension is not positive or the product of the
    dimensions exceeds [INT32_MAX]. *)
Theorem createMap_null_iff (h : gmap nat (list (list ascii)))
    (maxRow maxCol : Z) :
  (maxRow ≤ 0 ∨ maxCol ≤ 0 ∨ maxRow * maxCol > INT32_MAX →
   createMap h maxRow maxCol = Done (h, nullptr)) ∧
  (∀ h', createMap h maxRow maxCol = Done (h', nullptr) →
         maxRow ≤ 0 ∨ maxCol ≤ 0 ∨ maxRow * maxCol > INT32_MAX).
Proof.
  split.
  - intros Hbad. unfold createMap.
    destruct (decide (maxRow ≤ 0 ∨ maxCol ≤ 0)) as [|Hpos]; [done|].
    rewrite decide_True; [done|].
    apply int_div_gt; [done|lia|lia].
  - intros h' Hnull.
    destruct (decide (maxRow ≤ 0)); [by left|].
    destruct (decide (maxCol ≤ 0)); [by right; left|].
    destruct (decide (maxRow * maxCol > INT32_MAX)); [by right; right|].
    destruct (createMap_spec h maxRow maxCol) as (g & Hrun & _); [lia..|].
    rewrite Hrun in Hnull. done.
Qed.

(** X3: releasing a map right after it was created gives back the heap
    from before the creation, the null pointer and a row count of 0. *)
Theorem createMap_then_deleteMap (h h1 : gmap nat (list (list ascii)))
    (maxRow maxCol : Z) (b : nat) :
  createMap h maxRow maxCol = Done (h1, addr b) →
  deleteMap h1 (addr b) maxRow = Done (h, nullptr, 0).
Proof.
  intros Hcreate.
  assert (0 < maxRow ∧ 0 < maxCol ∧ maxRow * maxCol ≤ INT32_MAX)
    as (Hr & Hc & Hfit) by (by apply createMap_inv in Hcreate as (? & ? & ? & _)).
  destruct (createMap_spec h maxRow maxCol Hr Hc Hfit)
    as (g & Hrun & Hrect & _).
  rewrite Hrun in Hcreate. injection Hcreate as <- <-.
  apply rect_spec in Hrect as [Hlen _].
  rewrite (deleteMap_whole _ (fresh (dom h)) g maxRow)
    by (done || apply lookup_insert_eq).
  rewrite delete_insert_id; [done|]. apply not_elem_of_dom, is_fresh.
Qed.

End Container.

Lemma createMap_allocates_open_map_witness :
  ∃ b g,
    createMap (H := dungeon_symbols) ∅ 2 3 = Done (<[b := g]> ∅, addr b) ∧
    load_cell g 1 2 = Some "-"%char.
Proof.
  destruct (createMap_allocates_open_map (H := dungeon_symbols) ∅ 2 3)
    as (b & g & Hrun & _ & _ & Hcells & _).
  - lia.
  - lia.
  - unfold INT32_MAX. lia.
  - exists b, g. split; [exact Hrun|]. apply Hcells; lia.
Defined.

Lemma createMap_then_deleteMap_witness :
  deleteMap
    (<[0%nat := [["-"; "-"]; ["-"; "-"]]%char]> ∅) (addr 0) 2 =
  Done (∅, nullptr, 0).
Proof.
  apply (createMap_then_deleteMap (H := dungeon_symbols) ∅
           (<[0%nat := [["-"; "-"]; ["-"; "-"]]%char]> ∅) 2 2 0).
  vm_compute. reflexivity.
Defined.

Section Release.


End Release.


(** ** The movement resolver *)

Lemma valid_state_intro `{Symbols} (map : list (list ascii))
    (maxRow maxCol : Z) (player : Player) :
  rect map maxRow maxCol = true →
  maxRow ≤ INT32_MAX → maxCol ≤ INT32_MAX →
  0 ≤ row player < maxRow → 0 ≤ col player < maxCol →
  load_cell map (row player) (col player) = Some TILE_PLAYER →
  count_tile TILE_PLAYER map = 1%nat →
  0 ≤ treasure player ≤ INT32_MAX →
  valid_state map maxRow maxCol player = true.
Proof.
  intros Hrect Hr Hc Hpr Hpc Hplayer Hone Ht.
  unfold valid_state, in_int, INT32_MIN, INT32_MAX in *.
  rewrite !andb_true_iff, bool_decide_eq_true, Nat.eqb_eq.
  rewrite !Z.leb_le, !Z.ltb_lt. repeat split; (done || lia).
Qed.

Section MoveCases.
Context `{Symbols}.

(** Every run of [doPlayerMove] on a valid state is of one of two kinds:
    nothing happens and the status is [STATUS_STAY], or the player steps onto
    the target, whose tile decides the status and the treasure count. *)
Lemma doPlayerMove_cases (map : list (list ascii)) (maxRow maxCol : Z)
    (player : Player) (nextRow nextCol : Z) :
  valid_state map maxRow maxCol player = true →
  distinct_symbols = true →
  (doPlayerMove map maxRow maxCol player nextRow nextCol =
     Some (map, player, STATUS_STAY) ∧
   (¬ (0 ≤ nextRow < maxRow ∧ 0 ≤ nextCol < maxCol) ∨
    ∃ t, load_cell map nextRow nextCol = Some t ∧
         t ≠ TILE_DOOR ∧ t ≠ TILE_TREASURE ∧ t ≠ TILE_AMULET ∧
         t ≠ TILE_OPEN ∧ (t = TILE_EXIT → treasure player = 0))) ∨
  (∃ t map' treasure' status,
     load_cell map nextRow nextCol = Some t ∧
     doPlayerMove map maxRow maxCol player nextRow nextCol =
       Some (map', mkPlayer nextRow nextCol treasure', status) ∧
     rect map' maxRow maxCol = true ∧
     ¬ (nextRow = row player ∧ nextCol = col player) ∧
     (∀ r c, load_cell map' r c =
        if decide (r = row player ∧ c = col player) then Some TILE_OPEN
        else if decide (r = nextRow ∧ c = nextCol) then Some TILE_PLAYER
        else load_cell map r c) ∧
     ((t = TILE_EXIT ∧ status = STATUS_ESCAPE ∧ treasure' = treasure player ∧
       treasure player ≠ 0) ∨
      (t = TILE_DOOR ∧ status = STATUS_LEAVE ∧ treasure' = treasure player) ∨
      (t = TILE_TREASURE ∧ status = STATUS_TREASURE ∧
       treasure' = wrap32 (treasure player + 1)) ∨
      (t = TILE_AMULET ∧ status = STATUS_AMULET ∧
       treasure' = treasure player) ∨
      (t = TILE_OPEN ∧ status = STATUS_MOVE ∧ treasure' = treasure player))).
Proof.
  intros (Hrect & _ & _ & Hpr & Hpc & Hplayer & _)%valid_state_spec Hd.
  unfold doPlayerMove.
  destruct (decide (nextRow >= maxRow ∨ nextCol >= maxCol));
    [left; split; [done|left; lia]|].
  destruct (decide (nextRow < 0 ∨ nextCol < 0));
    [left; split; [done|left; lia]|].
  destruct (load_cell_inside map maxRow maxCol nextRow nextCol)
    as [t Ht]; [done|lia|lia|].
  rewrite Ht. cbn [mbind option_bind].
  assert (∀ (treasure' status : Z),
    t ≠ TILE_PLAYER →
    ∃ map',
      ('(map1, player1) ←
         step_onto map (mkPlayer (row player) (col player) treasure')
           (row player) (col player) nextRow nextCol;
       Some (map1, player1, status)) =
        Some (map', mkPlayer nextRow nextCol treasure', status) ∧
      rect map' maxRow maxCol = true ∧
      ¬ (nextRow = row player ∧ nextCol = col player) ∧
      (∀ r c, load_cell map' r c =
         if decide (r = row player ∧ c = col player) then Some TILE_OPEN
         else if decide (r = nextRow ∧ c = nextCol) then Some TILE_PLAYER
         else load_cell map r c)) as Hmove.
  { intros treasure' status Hnp.
    destruct (step_onto_spec map maxRow maxCol
                (mkPlayer (row player) (col player) treasure')
                nextRow nextCol)
      as (map' & Hstep & Hrect' & Hcells); [done|done|done|lia|lia|].
    cbn [row col treasure] in *. rewrite Hstep. cbn [mbind option_bind].
    exists map'. split; [done|]. split; [done|]. split; [|done].
    intros [-> ->]. congruence. }
  destruct (decide (t = TILE_MONSTER ∨ t = TILE_PILLAR)) as [Hblock|_].
  { left. split; [done|]. right. exists t. split; [done|].
    repeat split; intros Heq; symbols_differ Hd. }
  destruct (decide (t = TILE_EXIT ∧ treasure player = 0)) as [[-> Hzero]|Hne].
  { left. split; [done|]. right. exists TILE_EXIT. split; [done|].
    repeat split; try done; intros Heq; symbols_differ Hd. }
  destruct (decide (t = TILE_EXIT ∧ treasure player ≠ 0)) as [[-> Hnz]|Hne'].
  { right. destruct player as [pr pc tr]. cbn [row col treasure] in *.
    destruct (Hmove tr STATUS_ESCAPE) as (map' & Hrun & Hrest);
      [intros Heq; symbols_differ Hd|].
    exists TILE_EXIT, map', tr, STATUS_ESCAPE.
    split; [done|]. split; [done|]. destruct Hrest as (? & ? & ?).
    repeat split; try done. by left. }
  destruct (decide (t = TILE_DOOR)) as [->|Hnd].
  { right. destruct player as [pr pc tr]. cbn [row col treasure] in *.
    destruct (Hmove tr STATUS_LEAVE) as (map' & Hrun & Hrest);
      [intros Heq; symbols_differ Hd|].
    exists TILE_DOOR, map', tr, STATUS_LEAVE.
    split; [done|]. split; [done|]. destruct Hrest as (? & ? & ?).
    repeat split; try done. right. by left. }
  destruct (decide (t = TILE_TREASURE)) as [->|Hnt].
  { right.
    destruct (Hmove (wrap32 (treasure player + 1)) STATUS_TREASURE)
      as (map' & Hrun & Hrest); [intros Heq; symbols_differ Hd|].
    exists TILE_TREASURE, map', (wrap32 (treasure player + 1)),
      STATUS_TREASURE.
    split; [done|]. split; [done|]. destruct Hrest as (? & ? & ?).
    repeat split; try done. right. right. by left. }
  destruct (decide (t = TILE_AMULET)) as [->|Hna].
  { right. destruct player as [pr pc tr]. cbn [row col treasure] in *.
    destruct (Hmove tr STATUS_AMULET) as (map' & Hrun & Hrest);
      [intros Heq; symbols_differ Hd|].
    exists TILE_AMULET, map', tr, STATUS_AMULET.
    split; [done|]. split; [done|]. destruct Hrest as (? & ? & ?).
    repeat split; try done. right. right. right. by left. }
  destruct (decide (t = TILE_OPEN)) as [->|Hno].
  { right. destruct player as [pr pc tr]. cbn [row col treasure] in *.
    destruct (Hmove tr STATUS_MOVE) as (map' & Hrun & Hrest);
      [intros Heq; symbols_differ Hd|].
    exists TILE_OPEN, map', tr, STATUS_MOVE.
    split; [done|]. split; [done|]. destruct Hrest as (? & ? & ?).
    repeat split; try done. right. right. right. by right. }
  left. split; [done|]. right. exists t. split; [done|].
  repeat split; try done. intros ->. apply dec_stable. intros Hnz.
  apply Hne'. done.
Qed.

End MoveCases.

Section MoveExtras.
Context `{Symbols}.

(** X4: on a valid state [doPlayerMove] always returns, with a status from
    0 to 5.  With [STATUS_STAY] the map and the player are as they were.
    With any other status the player's coordinates are those of the target,
    the cell left holds [TILE_OPEN], the target holds [TILE_PLAYER] and no
    other cell has changed. *)
Theorem move_stays_or_steps (map : list (list ascii)) (maxRow maxCol : Z)
    (player : Player) (nextRow nextCol : Z) :
  valid_state map maxRow maxCol player = true →
  distinct_symbols = true →
  ∃ map' player' status,
    doPlayerMove map maxRow maxCol player nextRow nextCol =
      Done (map', player', status) ∧
    0 ≤ status ≤ 5 ∧
    (status = STATUS_STAY → map' = map ∧ player' = player) ∧
    (status ≠ STATUS_STAY →
       row player' = nextRow ∧ col player' = nextCol ∧
       load_cell map' (row player) (col player) = Some TILE_OPEN ∧
       load_cell map' nextRow nextCol = Some TILE_PLAYER ∧
       ∀ r c, ¬ (r = row player ∧ c = col player) →
              ¬ (r = nextRow ∧ c = nextCol) →
              load_cell map' r c = load_cell map r c).
Proof.
  intros Hvalid Hd.
  destruct (doPlayerMove_cases map maxRow maxCol player nextRow nextCol
              Hvalid Hd)
    as [(Hrun & _)|(t & map' & treasure' & status & _ & Hrun & _ & Hne &
                    Hcells & Htable)].
  - exists map, player, STATUS_STAY. split; [done|].
    split; [unfold STATUS_STAY; lia|]. split; done.
  - exists map', (mkPlayer nextRow nextCol treasure'), status.
    split; [done|].
    assert (1 ≤ status ≤ 5) as Hstatus.
    { destruct Htable
        as [(_ & -> & _)|[(_ & -> & _)|[(_ & -> & _)|[(_ & -> & _)|
            (_ & -> & _)]]]];
        unfold STATUS_ESCAPE, STATUS_LEAVE, STATUS_TREASURE, STATUS_AMULET,
          STATUS_MOVE; lia. }
    split; [lia|]. split; [unfold STATUS_STAY; lia|]. intros _.
    cbn [row col]. split; [done|]. split; [done|]. split; [|split].
    + rewrite Hcells. by rewrite decide_True.
    + rewrite Hcells. rewrite decide_False by done. by rewrite decide_True.
    + intros r c H1 H2. rewrite Hcells.
      rewrite decide_False by done. by rewrite decide_False.
Qed.

(** X5: the tile of the target decides the outcome of a move onto a door,
    a treasure, an amulet or an open cell: the player is put on the target
    and the status is [STATUS_LEAVE], [STATUS_TREASURE], [STATUS_AMULET] or
    [STATUS_MOVE]; the treasure count goes up by one for a treasure and is
    kept otherwise. *)
Theorem move_status_follows_tile (map : list (list ascii))
    (maxRow maxCol : Z) (player : Player) (nextRow nextCol : Z) (t : ascii) :
  valid_state map maxRow maxCol player = true →
  distinct_symbols = true →
  treasure player < INT32_MAX →
  load_cell map nextRow nextCol = Some t →
  ∃ map' player' status,
    doPlayerMove map maxRow maxCol player nextRow nextCol =
      Done (map', player', status) ∧
    (t = TILE_DOOR →
       status = STATUS_LEAVE ∧
       player' = mkPlayer nextRow nextCol (treasure player)) ∧
    (t = TILE_TREASURE →
       status = STATUS_TREASURE ∧
       player' = mkPlayer nextRow nextCol (treasure player + 1)) ∧
    (t = TILE_AMULET →
       status = STATUS_AMULET ∧
       player' = mkPlayer nextRow nextCol (treasure player)) ∧
    (t = TILE_OPEN →
       status = STATUS_MOVE ∧
       player' = mkPlayer nextRow nextCol (treasure player)).
Proof.
  intros Hvalid Hd Hroom Ht.
  pose proof (valid_state_spec _ _ _ _ Hvalid)
    as (_ & _ & _ & _ & _ & _ & _ & Htr).
  assert (wrap32 (treasure player + 1) = treasure player + 1) as Hwrap
    by (apply wrap32_id; unfold INT32_MIN, INT32_MAX in *; lia).
  destruct (doPlayerMove_cases map maxRow maxCol player nextRow nextCol
              Hvalid Hd)
    as [(Hrun & Hwhy)|(t' & map' & treasure' & status & Ht' & Hrun & _ & _ &
                       _ & Htable)].
  - exists map, player, STATUS_STAY. split; [done|].
    destruct Hwhy as [Hout|(t' & Ht' & Hnd & Hnt & Hna & Hno & _)].
    { apply (load_cell_bounds _ maxRow maxCol) in Ht; [lia|].
      by apply valid_state_spec in Hvalid as (? & _). }
    rewrite Ht in Ht'. injection Ht' as <-. repeat split; congruence.
  - rewrite Ht in Ht'. injection Ht' as <-.
    exists map', (mkPlayer nextRow nextCol treasure'), status.
    split; [done|].
    destruct Htable
      as [(-> & -> & -> & _)|[(-> & -> & ->)|[(-> & -> & ->)|[(-> & -> & ->)|
          (-> & -> & ->)]]]];
      repeat split;
      first [done | by rewrite Hwrap | by (intros _; rewrite Hwrap)
            | symbols_differ Hd | intros Heq; symbols_differ Hd].
Qed.

(** X6: a move never lowers the treasure count; it raises it, by exactly
    one, exactly when it returns [STATUS_TREASURE]. *)
Theorem move_counts_treasure (map : list (list ascii)) (maxRow maxCol : Z)
    (player : Player) (nextRow nextCol : Z) :
  valid_state map maxRow maxCol player = true →
  distinct_symbols = true →
  treasure player < INT32_MAX →
  ∃ map' player' status,
    doPlayerMove map maxRow maxCol player nextRow nextCol =
      Done (map', player', status) ∧
    (status = STATUS_TREASURE → treasure player' = treasure player + 1) ∧
    (status ≠ STATUS_TREASURE → treasure player' = treasure player).
Proof.
  intros Hvalid Hd Hroom.
  pose proof (valid_state_spec _ _ _ _ Hvalid)
    as (_ & _ & _ & _ & _ & _ & _ & Htr).
  assert (wrap32 (treasure player + 1) = treasure player + 1) as Hwrap
    by (apply wrap32_id; unfold INT32_MIN, INT32_MAX in *; lia).
  destruct (doPlayerMove_cases map maxRow maxCol player nextRow nextCol
              Hvalid Hd)
    as [(Hrun & _)|(t & map' & treasure' & status & _ & Hrun & _ & _ & _ &
                    Htable)].
  - exists map, player, STATUS_STAY. split; [done|]. split; [done|done].
  - exists map', (mkPlayer nextRow nextCol treasure'), status.
    split; [done|]. cbn [treasure].
    destruct Htable
      as [(_ & -> & -> & _)|[(_ & -> & ->)|[(_ & -> & ->)|[(_ & -> & ->)|
          (_ & -> & ->)]]]];
      split; try done; by rewrite Hwrap.
Qed.

(** X7: a move takes a valid state to a valid state, as long as the
    treasure count has room for one more. *)
Theorem move_keeps_state_valid (map : list (list ascii)) (maxRow maxCol : Z)
    (player : Player) (nextRow nextCol : Z) :
  valid_state map maxRow maxCol player = true →
  distinct_symbols = true →
  treasure player < INT32_MAX →
  ∃ map' player' status,
    doPlayerMove map maxRow maxCol player nextRow nextCol =
      Done (map', player', status) ∧
    valid_state map' maxRow maxCol player' = true.
Proof.
  intros Hvalid Hd Hroom.
  destruct (doPlayerMove_keeps_player map maxRow maxCol player nextRow
              nextCol Hvalid Hd)
    as (map' & player' & status & Hrun & Hrect' & Hplayer' & Hone').
  exists map', player', status. split; [done|].
  pose proof (valid_state_spec _ _ _ _ Hvalid)
    as (_ & Hr & Hc & _ & _ & _ & _ & Htr).
  destruct (load_cell_bounds _ _ _ _ _ _ Hrect' Hplayer') as [Hpr Hpc].
  apply valid_state_intro; try done.
  assert (wrap32 (treasure player + 1) = treasure player + 1) as Hwrap
    by (apply wrap32_id; unfold INT32_MIN, INT32_MAX in *; lia).
  destruct (doPlayerMove_cases map maxRow maxCol player nextRow nextCol
              Hvalid Hd)
    as [(Hrun2 & _)|(t & map2 & treasure' & status2 & _ & Hrun2 & _ & _ & _ &
                     Htable)];
    rewrite Hrun in Hrun2; injection Hrun2 as -> -> ->; [done|].
  cbn [treasure].
  destruct Htable
    as [(_ & _ & -> & _)|[(_ & _ & ->)|[(_ & _ & ->)|[(_ & _ & ->)|
        (_ & _ & ->)]]]]; lia.
Qed.

End MoveExtras.

Section MoveComposed.
Context `{Symbols}.

(** X8: whatever key is pressed, [getDirection] applied to the player's
    coordinates followed by [doPlayerMove] leaves the player where it was or
    one step away in one of the four directions; a key that is none of the
    four movement keys never moves the player. *)
Theorem key_moves_at_most_one_step (map : list (list ascii))
    (maxRow maxCol : Z) (player : Player) (input : ascii) :
  valid_state map maxRow maxCol player = true →
  distinct_symbols = true →
  ∃ map' player' status,
    doPlayerMove map maxRow maxCol player
      (getDirection input (row player) (col player)).1
      (getDirection input (row player) (col player)).2 =
      Done (map', player', status) ∧
    Z.abs (row player' - row player) + Z.abs (col player' - col player) ≤ 1 ∧
    (input ≠ MOVE_UP → input ≠ MOVE_DOWN → input ≠ MOVE_LEFT →
     input ≠ MOVE_RIGHT → map' = map ∧ player' = player).
Proof.
  intros Hvalid Hd.
  pose proof (valid_state_spec _ _ _ _ Hvalid)
    as (Hrect & Hr & Hc & Hpr & Hpc & Hplayer & _).
  assert (∀ z, -1 ≤ z ≤ INT32_MAX → wrap32 z = z) as Hwrap
    by (intros z Hz; apply wrap32_id; unfold INT32_MIN, INT32_MAX in *; lia).
  set (next := getDirection input (row player) (col player)).
  assert (Z.abs (next.1 - row player) + Z.abs (next.2 - col player) ≤ 1 ∧
          (input ≠ MOVE_UP → input ≠ MOVE_DOWN → input ≠ MOVE_LEFT →
           input ≠ MOVE_RIGHT →
           next = (row player, col player))) as [Hnear Hstay].
  { unfold next, getDirection.
    repeat case_decide; cbn [fst snd]; rewrite ?Hwrap by lia;
      (split; [lia|done]). }
  destruct (doPlayerMove_cases map maxRow maxCol player next.1 next.2
              Hvalid Hd)
    as [(Hrun & _)|(t & map' & treasure' & status & _ & Hrun & _ & Hne & _)].
  - exists map, player, STATUS_STAY. split; [done|]. split; [lia|done].
  - exists map', (mkPlayer next.1 next.2 treasure'), status.
    split; [done|]. cbn [row col]. split; [done|].
    intros H1 H2 H3 H4. exfalso. apply Hne.
    by rewrite (Hstay H1 H2 H3 H4).
Qed.

(** X9: once the player has stepped onto a treasure, a move onto a cell
    that holds the exit succeeds: the first move returns
    [STATUS_TREASURE], the second [STATUS_ESCAPE] and puts the player on the
    exit. *)
Theorem treasure_then_exit_escapes (map : list (list ascii))
    (maxRow maxCol : Z) (player : Player) (tRow tCol eRow eCol : Z) :
  valid_state map maxRow maxCol player = true →
  distinct_symbols = true →
  treasure player < INT32_MAX →
  load_cell map tRow tCol = Some TILE_TREASURE →
  load_cell map eRow eCol = Some TILE_EXIT →
  ∃ map1 player1 map2 player2,
    doPlayerMove map maxRow maxCol player tRow tCol =
      Done (map1, player1, STATUS_TREASURE) ∧
    doPlayerMove map1 maxRow maxCol player1 eRow eCol =
      Done (map2, player2, STATUS_ESCAPE) ∧
    row player2 = eRow ∧ col player2 = eCol ∧
    load_cell map2 eRow eCol = Some TILE_PLAYER.
Proof.
  intros Hvalid Hd Hroom Htreasure Hexit.
  pose proof (valid_state_spec _ _ _ _ Hvalid)
    as (Hrect & Hr & Hc & Hpr & Hpc & Hplayer & Hone & Htr).
  assert (wrap32 (treasure player + 1) = treasure player + 1) as Hwrap
    by (apply wrap32_id; unfold INT32_MIN, INT32_MAX in *; lia).
  destruct (doPlayerMove_cases map maxRow maxCol player tRow tCol Hvalid Hd)
    as [(_ & Hwhy)|(t & map1 & treasure1 & status1 & Ht & Hrun1 & Hrect1 &
                    Hne1 & Hcells1 & Htable1)].
  { exfalso. destruct Hwhy as [Hout|(t & Ht & _ & Hnt & _)].
    - apply (load_cell_bounds _ maxRow maxCol) in Htreasure; [lia|done].
    - congruence. }
  rewrite Htreasure in Ht. injection Ht as <-.
  assert (status1 = STATUS_TREASURE ∧ treasure1 = treasure player + 1)
    as [-> ->].
  { destruct Htable1
      as [(Heq & _)|[(Heq & _)|[(_ & -> & ->)|[(Heq & _)|(Heq & _)]]]];
      [symbols_differ Hd|symbols_differ Hd|by rewrite Hwrap
      |symbols_differ Hd|symbols_differ Hd]. }
  destruct (doPlayerMove_keeps_player map maxRow maxCol player tRow tCol
              Hvalid Hd)
    as (map1' & player1' & status1' & Hrun1' & _ & Hplayer1 & Hone1).
  rewrite Hrun1 in Hrun1'. injection Hrun1' as <- <- <-.
  destruct (load_cell_bounds _ _ _ _ _ _ Hrect1 Hplayer1) as [Hpr1 Hpc1].
  assert (valid_state map1 maxRow maxCol
            (mkPlayer tRow tCol (treasure player + 1)) = true) as Hvalid1
    by (apply valid_state_intro; try done; cbn [treasure]; lia).
  assert (load_cell map1 eRow eCol = Some TILE_EXIT) as Hexit1.
  { rewrite Hcells1.
    rewrite decide_False
      by (intros [-> ->]; rewrite Hplayer in Hexit;
          injection Hexit as Heq; symbols_differ Hd).
    rewrite decide_False
      by (intros [-> ->]; rewrite Htreasure in Hexit;
          injection Hexit as Heq; symbols_differ Hd).
    done. }
  destruct (doPlayerMove_cases map1 maxRow maxCol
              (mkPlayer tRow tCol (treasure player + 1)) eRow eCol
              Hvalid1 Hd)
    as [(_ & Hwhy)|(t & map2 & treasure2 & status2 & Ht & Hrun2 & _ & Hne2 &
                    Hcells2 & Htable2)].
  { exfalso. destruct Hwhy as [Hout|(t & Ht & _ & _ & _ & _ & Hzero)].
    - apply (load_cell_bounds _ maxRow maxCol) in Hexit1; [lia|done].
    - rewrite Hexit1 in Ht. injection Ht as <-.
      specialize (Hzero eq_refl). cbn [treasure] in Hzero. lia. }
  rewrite Hexit1 in Ht. injection Ht as <-.
  assert (status2 = STATUS_ESCAPE) as ->.
  { destruct Htable2
      as [(_ & -> & _)|[(Heq & _)|[(Heq & _)|[(Heq & _)|(Heq & _)]]]];
      [done|symbols_differ Hd..]. }
  exists map1, (mkPlayer tRow tCol (treasure player + 1)), map2,
    (mkPlayer eRow eCol treasure2).
  split; [done|]. split; [done|]. cbn [row col]. split; [done|].
  split; [done|]. rewrite Hcells2. cbn [row col] in *.
  rewrite decide_False by done. by rewrite decide_True.
Qed.

End MoveComposed.

Lemma move_stays_or_steps_witness :
  ∃ map' player' status,
    doPlayerMove (H := dungeon_symbols)
      [["o"; "$"]; ["!"; "-"]]%char 2 2 (mkPlayer 0 0 0) 0 1 =
      Done (map', player', status) ∧ 0 ≤ status ≤ 5.
Proof.
  destruct (move_stays_or_steps (H := dungeon_symbols)
              [["o"; "$"]; ["!"; "-"]]%char 2 2 (mkPlayer 0 0 0) 0 1)
    as (map' & player' & status & Hrun & Hstatus & _).
  - reflexivity.
  - reflexivity.
  - exists map', player', status. split; [exact Hrun|exact Hstatus].
Defined.

Lemma move_status_follows_tile_witness :
  ∃ map' player' status,
    doPlayerMove (H := dungeon_symbols)
      [["o"; "$"]; ["!"; "-"]]%char 2 2 (mkPlayer 0 0 0) 0 1 =
      Done (map', player', status) ∧
    status = STATUS_TREASURE ∧ player' = mkPlayer 0 1 1.
Proof.
  destruct (move_status_follows_tile (H := dungeon_symbols)
              [["o"; "$"]; ["!"; "-"]]%char 2 2 (mkPlayer 0 0 0) 0 1
              "$"%char)
    as (map' & player' & status & Hrun & _ & Htreasure & _).
  - reflexivity.
  - reflexivity.
  - unfold INT32_MAX. simpl. lia.
  - reflexivity.
  - exists map', player', status. split; [exact Hrun|].
    apply Htreasure. reflexivity.
Defined.

Lemma move_counts_treasure_witness :
  ∃ map' player' status,
    doPlayerMove (H := dungeon_symbols)
      [["o"; "$"]; ["!"; "-"]]%char 2 2 (mkPlayer 0 0 0) 1 0 =
      Done (map', player', status) ∧
    (status ≠ STATUS_TREASURE → treasure player' = 0).
Proof.
  destruct (move_counts_treasure (H := dungeon_symbols)
              [["o"; "$"]; ["!"; "-"]]%char 2 2 (mkPlayer 0 0 0) 1 0)
    as (map' & player' & status & Hrun & _ & Hsame).
  - reflexivity.
  - reflexivity.
  - unfold INT32_MAX. simpl. lia.
  - exists map', player', status. split; [exact Hrun|exact Hsame].
Defined.

Lemma move_keeps_state_valid_witness :
  ∃ map' player' status,
    doPlayerMove (H := dungeon_symbols)
      [["o"; "$"]; ["!"; "-"]]%char 2 2 (mkPlayer 0 0 0) 0 1 =
      Done (map', player', status) ∧
    valid_state (H := dungeon_symbols) map' 2 2 player' = true.
Proof.
  apply (move_keeps_state_valid (H := dungeon_symbols)
           [["o"; "$"]; ["!"; "-"]]%char 2 2 (mkPlayer 0 0 0) 0 1).
  - reflexivity.
  - reflexivity.
  - unfold INT32_MAX. simpl. lia.
Defined.

Lemma key_moves_at_most_one_step_witness :
  ∃ map' player' status,
    doPlayerMove (H := dungeon_symbols)
      [["o"; "$"]; ["!"; "-"]]%char 2 2 (mkPlayer 0 0 0)
      (getDirection "d" 0 0).1 (getDirection "d" 0 0).2 =
      Done (map', player', status) ∧
    Z.abs (row player' - 0) + Z.abs (col player' - 0) ≤ 1.
Proof.
  destruct (key_moves_at_most_one_step (H := dungeon_symbols)
              [["o"; "$"]; ["!"; "-"]]%char 2 2 (mkPlayer 0 0 0) "d"%char)
    as (map' & player' & status & Hrun & Hnear & _).
  - reflexivity.
  - reflexivity.
  - exists map', player', status. split; [exact Hrun|exact Hnear].
Defined.

Lemma treasure_then_exit_escapes_witness :
  ∃ map1 player1 map2 player2,
    doPlayerMove (H := dungeon_symbols)
      [["o"; "$"]; ["!"; "-"]]%char 2 2 (mkPlayer 0 0 0) 0 1 =
      Done (map1, player1, STATUS_TREASURE) ∧
    doPlayerMove (H := dungeon_symbols) map1 2 2 player1 1 0 =
      Done (map2, player2, STATUS_ESCAPE).
Proof.
  destruct (treasure_then_exit_escapes (H := dungeon_symbols)
              [["o"; "$"]; ["!"; "-"]]%char 2 2 (mkPlayer 0 0 0) 0 1 1 0)
    as (map1 & player1 & map2 & player2 & Hrun1 & Hrun2 & _).
  - reflexivity.
  - reflexivity.
  - unfold INT32_MAX. simpl. lia.
  - reflexivity.
  - reflexivity.
  - exists map1, player1, map2, player2. split; [exact Hrun1|exact Hrun2].
Defined.

(** ** The monster chase *)

Lemma grid_ext (map map' : list (list ascii)) (maxRow maxCol : Z) :
  rect map maxRow maxCol = true → rect map' maxRow maxCol = true →
  (∀ r c, 0 ≤ r < maxRow → 0 ≤ c < maxCol →
          load_cell map' r c = load_cell map r c) →
  map' = map.
Proof.
  intros [Hlen Hrows]%rect_spec [Hlen' Hrows']%rect_spec Hcells.
  apply list_eq. intros i.
  destruct (decide (i < length map)%nat) as [Hi|Hi].
  - destruct (lookup_lt_is_Some_2 map i Hi) as [line Hline].
    destruct (lookup_lt_is_Some_2 map' i) as [line' Hline']; [lia|].
    rewrite Hline, Hline'. f_equal. apply list_eq. intros j.
    pose proof (Hrows _ _ Hline) as Hl. pose proof (Hrows' _ _ Hline') as Hl'.
    destruct (decide (j < length line)%nat) as [Hj|Hj].
    + specialize (Hcells (Z.of_nat i) (Z.of_nat j)).
      unfold load_cell in Hcells. rewrite !decide_True in Hcells by lia.
      rewrite !Nat2Z.id, Hline, Hline' in Hcells.
      cbn [mbind option_bind] in Hcells. apply Hcells; lia.
    + rewrite !lookup_ge_None_2 by lia. done.
  - rewrite !lookup_ge_None_2 by lia. done.
Qed.

Section ChaseExtras.
Context `{Symbols}.

(** X10: [doMonsterAttack] returns true exactly when a monster stands on
    one of the four cells next to the player. *)
Theorem capture_iff_adjacent_monster (map : list (list ascii))
    (maxRow maxCol : Z) (player : Player) :
  valid_state map maxRow maxCol player = true →
  distinct_symbols = true →
  ∃ map' eaten,
    doMonsterAttack map maxRow maxCol player = Done (map', eaten) ∧
    (eaten = true ↔
     ∃ d, 1 ≤ ray_length maxRow maxCol player d ∧
          tile_at map (ray_cell player d 1) = Some TILE_MONSTER).
Proof.
  intros Hvalid Hd.
  destruct (doMonsterAttack_spec map maxRow maxCol player Hvalid Hd)
    as (map' & eaten & Hrun & _ & _ & _ & _ & _ & Heaten).
  exists map', eaten. split; [done|]. rewrite Heaten. split.
  - intros (d & _ & Hseen). exists d. by apply adjacent_monster_in_sight.
  - intros (d & Hnear). exists d. split; [apply all_rays|].
    by apply adjacent_monster_in_sight.
Qed.

(** X11: when no monster is in the player's sight, on no ray, the call
    leaves the map exactly as it was and returns false. *)
Theorem no_monster_in_sight_no_change (map : list (list ascii))
    (maxRow maxCol : Z) (player : Player) :
  valid_state map maxRow maxCol player = true →
  distinct_symbols = true →
  (∀ d k, ¬ monster_in_sight map maxRow maxCol player d k) →
  doMonsterAttack map maxRow maxCol player = Done (map, false).
Proof.
  intros Hvalid Hd Hnone.
  destruct (doMonsterAttack_spec map maxRow maxCol player Hvalid Hd)
    as (map' & eaten & Hrun & Hrect' & Hdone & _ & Horigin & Hframe & Heaten).
  apply valid_state_spec in Hvalid as (Hrect & _ & _ & Hrow & Hcol & _).
  assert (eaten = false) as ->.
  { destruct eaten; [|done].
    destruct (proj1 Heaten eq_refl) as (d & _ & Hseen).
    by destruct (Hnone d 1). }
  assert (map' = map) as ->; [|done].
  apply (grid_ext map map' maxRow maxCol Hrect Hrect').
  intros r c Hr Hc.
  destruct (on_ray_or_not maxRow maxCol player (r, c) Hrow Hcol Hr Hc)
    as [(d & j & Hj & Hpos)|Hoff].
  - change (tile_at map' (r, c) = tile_at map (r, c)). rewrite <- Hpos.
    destruct (decide (j = 0)) as [->|Hnz].
    + rewrite ray_cell_origin.
      destruct Horigin as [((d' & _ & Hseen) & _)|(_ & Ho)]; [|done].
      by destruct (Hnone d' 1).
    + destruct (Hdone d j (all_rays d))
        as [(Hs & _)|[(_ & Hs & _)|(_ & _ & Ht)]]; [lia| | |done].
      * by destruct (Hnone d (j + 1)).
      * by destruct (Hnone d j).
  - by apply (Hframe (r, c)).
Qed.

(** X12: the call keeps the map a rectangle of the same size, changes no
    cell outside the player's row and column, and leaves in every cell
    either the tile it held, a monster or [TILE_OPEN]. *)
Theorem attack_changes_only_rays (map : list (list ascii))
    (maxRow maxCol : Z) (player : Player) :
  valid_state map maxRow maxCol player = true →
  distinct_symbols = true →
  ∃ map' eaten,
    doMonsterAttack map maxRow maxCol player = Done (map', eaten) ∧
    rect map' maxRow maxCol = true ∧
    (∀ r c, r ≠ row player → c ≠ col player →
            load_cell map' r c = load_cell map r c) ∧
    (∀ r c, 0 ≤ r < maxRow → 0 ≤ c < maxCol →
            load_cell map' r c = load_cell map r c ∨
            load_cell map' r c = Some TILE_MONSTER ∨
            load_cell map' r c = Some TILE_OPEN).
Proof.
  intros Hvalid Hd.
  destruct (doMonsterAttack_spec map maxRow maxCol player Hvalid Hd)
    as (map' & eaten & Hrun & Hrect' & Hdone & _ & Horigin & Hframe & _).
  apply valid_state_spec in Hvalid as (Hrect & _ & _ & Hrow & Hcol & _).
  exists map', eaten. split; [done|]. split; [done|]. split.
  - intros r c Hr Hc. apply (Hframe (r, c)).
    intros d j _. destruct d; simpl; intros [=]; lia.
  - intros r c Hr Hc.
    destruct (on_ray_or_not maxRow maxCol player (r, c) Hrow Hcol Hr Hc)
      as [(d & j & Hj & Hpos)|Hoff].
    + change (tile_at map' (r, c) = tile_at map (r, c) ∨
              tile_at map' (r, c) = Some TILE_MONSTER ∨
              tile_at map' (r, c) = Some TILE_OPEN).
      rewrite <- Hpos. destruct (decide (j = 0)) as [->|Hnz].
      * rewrite ray_cell_origin.
        destruct Horigin as [(_ & Ho)|(_ & Ho)]; [by right; left|by left].
      * destruct (Hdone d j (all_rays d))
          as [(_ & Ht)|[(_ & _ & Ht)|(_ & _ & Ht)]]; [lia|..];
          [by right; left|by right; right|by left].
    + left. by apply (Hframe (r, c)).
Qed.

(** X13: a call that returns false takes a valid state to a valid state. *)
Theorem attack_keeps_state_valid (map : list (list ascii))
    (maxRow maxCol : Z) (player : Player) :
  valid_state map maxRow maxCol player = true →
  distinct_symbols = true →
  ∃ map' eaten,
    doMonsterAttack map maxRow maxCol player = Done (map', eaten) ∧
    (eaten = false → valid_state map' maxRow maxCol player = true).
Proof.
  intros Hvalid Hd.
  destruct (doMonsterAttack_spec map maxRow maxCol player Hvalid Hd)
    as (map' & eaten & Hrun & Hrect' & _).
  destruct (doMonsterAttack_player_cell map maxRow maxCol player Hvalid Hd)
    as (map2 & eaten2 & Hrun2 & Hkept & _).
  rewrite Hrun in Hrun2. injection Hrun2 as <- <-.
  exists map', eaten. split; [done|]. intros Hfalse.
  destruct (Hkept Hfalse) as [Hplayer' Hone'].
  apply valid_state_spec in Hvalid as (_ & ? & ? & ? & ? & _ & _ & ?).
  by apply valid_state_intro.
Qed.

End ChaseExtras.

Section ChaseRounds.
Context `{Symbols}.

Lemma monster_comes_closer (map map' : list (list ascii))
    (maxRow maxCol : Z) (player : Player) (d : Dir) (k : Z) :
  valid_state map maxRow maxCol player = true →
  distinct_symbols = true →
  doMonsterAttack map maxRow maxCol player = Some (map', false) →
  monster_in_sight map maxRow maxCol player d k →
  2 ≤ k ∧
  valid_state map' maxRow maxCol player = true ∧
  monster_in_sight map' maxRow maxCol player d (k - 1).
Proof.
  intros Hvalid Hd Hrun Hseen.
  destruct (doMonsterAttack_spec map maxRow maxCol player Hvalid Hd)
    as (map2 & eaten & Hrun2 & Hrect' & Hdone & _ & _ & _ & Heaten).
  rewrite Hrun in Hrun2. injection Hrun2 as <- <-.
  destruct (doMonsterAttack_player_cell map maxRow maxCol player Hvalid Hd)
    as (map2 & eaten2 & Hrun2 & Hkept & _).
  rewrite Hrun in Hrun2. injection Hrun2 as <- <-.
  destruct (Hkept eq_refl) as [Hplayer' Hone'].
  pose proof Hseen as (Hk & Hclear & Hmon).
  assert (2 ≤ k) as Hk2.
  { destruct (decide (k = 1)) as [->|]; [|lia].
    assert (false = true) as Habs; [|done].
    apply Heaten. exists d. split; [apply all_rays|done]. }
  split; [done|]. split.
  { apply valid_state_spec in Hvalid as (_ & ? & ? & ? & ? & _ & _ & ?).
    by apply valid_state_intro. }
  split; [lia|]. split.
  - intros t Ht.
    destruct (Hdone d t (all_rays d))
      as [(_ & Ht')|[(_ & _ & Ht')|(_ & _ & Ht')]]; [lia|..]; rewrite Ht'.
    + intros [= Heq]. symbols_differ Hd.
    + intros [= Heq]. symbols_differ Hd.
    + apply Hclear. lia.
  - destruct (Hdone d (k - 1) (all_rays d))
      as [(_ & Ht')|[(Hns & _)|(Hns & _)]]; [lia|done|..];
      exfalso; apply Hns; by replace (k - 1 + 1) with k by lia.
Qed.

(** X14: a monster the player is in the sight of reaches a player that
    stays put: if a monster stands at distance [k] on a ray with no pillar
    between the player and it, one of the next [k] calls of
    [doMonsterAttack] returns true. *)
Theorem monster_in_sight_captures (map : list (list ascii))
    (maxRow maxCol : Z) (player : Player) (d : Dir) (k : Z) :
  valid_state map maxRow maxCol player = true →
  distinct_symbols = true →
  monster_in_sight map maxRow maxCol player d k →
  attack_rounds (Z.to_nat k) map maxRow maxCol player = Done true.
Proof.
  intros Hvalid Hd Hseen.
  assert (1 ≤ k) as Hk by (destruct Hseen as [? _]; lia).
  remember (Z.to_nat k) as n eqn:Hn.
  revert map k Hvalid Hseen Hk Hn.
  induction n as [|n IH]; intros map k Hvalid Hseen Hk Hn; [lia|].
  cbn [attack_rounds].
  destruct (doMonsterAttack_spec map maxRow maxCol player Hvalid Hd)
    as (map' & eaten & Hrun & _).
  rewrite Hrun. cbn [mbind option_bind]. destruct eaten; [done|].
  destruct (monster_comes_closer map map' maxRow maxCol player d k
              Hvalid Hd Hrun Hseen) as (Hk2 & Hvalid' & Hseen').
  apply (IH map' (k - 1)); [done|done|lia|lia].
Qed.

End ChaseRounds.

Lemma capture_iff_adjacent_monster_witness :
  ∃ map' eaten,
    doMonsterAttack (H := dungeon_symbols)
      [["o"; "M"]; ["-"; "!"]]%char 2 2 (mkPlayer 0 0 0) =
      Done (map', eaten) ∧ eaten = true.
Proof.
  destruct (capture_iff_adjacent_monster (H := dungeon_symbols)
              [["o"; "M"]; ["-"; "!"]]%char 2 2 (mkPlayer 0 0 0))
    as (map' & eaten & Hrun & Hiff).
  - reflexivity.
  - reflexivity.
  - exists map', eaten. split; [exact Hrun|]. apply Hiff.
    exists Right. split; [simpl; lia|reflexivity].
Defined.

Lemma no_monster_in_sight_no_change_witness :
  doMonsterAttack (H := dungeon_symbols)
    [["o"; "+"; "M"]; ["-"; "!"; "-"]]%char 2 3 (mkPlayer 0 0 0) =
  Done ([["o"; "+"; "M"]; ["-"; "!"; "-"]]%char, false).
Proof.
  apply (no_monster_in_sight_no_change (H := dungeon_symbols)
           [["o"; "+"; "M"]; ["-"; "!"; "-"]]%char 2 3 (mkPlayer 0 0 0)).
  - reflexivity.
  - reflexivity.
  - intros d k (Hk & Hclear & Hmon).
    destruct d; simpl in Hk.
    + lia.
    + assert (k = 1) as -> by lia. discriminate Hmon.
    + assert (k = 1 ∨ k = 2) as [->| ->] by lia.
      * discriminate Hmon.
      * apply (Hclear 1); [lia|reflexivity].
    + lia.
Defined.

Lemma attack_changes_only_rays_witness :
  ∃ map' eaten,
    doMonsterAttack (H := dungeon_symbols)
      [["o"; "-"; "M"]; ["-"; "!"; "M"]]%char 2 3 (mkPlayer 0 0 0) =
      Done (map', eaten) ∧
    load_cell map' 1 2 = Some "M"%char.
Proof.
  destruct (attack_changes_only_rays (H := dungeon_symbols)
              [["o"; "-"; "M"]; ["-"; "!"; "M"]]%char 2 3 (mkPlayer 0 0 0))
    as (map' & eaten & Hrun & _ & Hoff & _).
  - reflexivity.
  - reflexivity.
  - exists map', eaten. split; [exact Hrun|].
    apply (Hoff 1 2); simpl; lia.
Defined.

Lemma attack_keeps_state_valid_witness :
  ∃ map' eaten,
    doMonsterAttack (H := dungeon_symbols)
      [["o"; "-"; "M"]; ["-"; "!"; "M"]]%char 2 3 (mkPlayer 0 0 0) =
      Done (map', eaten) ∧
    (eaten = false →
     valid_state (H := dungeon_symbols) map' 2 3 (mkPlayer 0 0 0) = true).
Proof.
  apply (attack_keeps_state_valid (H := dungeon_symbols)
           [["o"; "-"; "M"]; ["-"; "!"; "M"]]%char 2 3 (mkPlayer 0 0 0)).
  - reflexivity.
  - reflexivity.
Defined.

Lemma monster_in_sight_captures_witness :
  attack_rounds (H := dungeon_symbols) 2
    [["o"; "-"; "M"]; ["-"; "!"; "M"]]%char 2 3 (mkPlayer 0 0 0) = Done true.
Proof.
  apply (monster_in_sight_captures (H := dungeon_symbols)
           [["o"; "-"; "M"]; ["-"; "!"; "M"]]%char 2 3 (mkPlayer 0 0 0)
           Right 2).
  - reflexivity.
  - reflexivity.
  - split; [simpl; lia|]. split; [|reflexivity].
    intros t Ht. assert (t = 1 ∨ t = 2) as [->| ->] by lia; discriminate.
Defined.

(** ** Growing the map *)

Section ResizeExtras.
Context `{Symbols}.

(** X15: a resize that succeeds takes a valid state to a valid state of
    twice the size for the same player; the old block is released, the new
    one is in the heap and every other block is as it was. *)
Theorem resize_keeps_state_valid (h : gmap nat (list (list ascii))) (a : nat)
    (map : list (list ascii)) (maxRow maxCol : Z) (player : Player) :
  h !! a = Some map →
  valid_state map maxRow maxCol player = true →
  distinct_symbols = true →
  (2 * maxRow) * (2 * maxCol) ≤ INT32_MAX →
  ∃ h' b map',
    resizeMap h (addr a) maxRow maxCol =
      Done (h', 2 * maxRow, 2 * maxCol, addr b) ∧
    valid_state map' (2 * maxRow) (2 * maxCol) player = true ∧
    h' !! b = Some map' ∧
    h' !! a = None ∧
    (∀ x, x ≠ a → x ≠ b → h' !! x = h !! x).
Proof.
  intros Ha Hvalid Hd Hfit.
  apply valid_state_spec in Hvalid
    as (Hrect & Hr & Hc & Hpr & Hpc & Hplayer & Hone & Htr).
  destruct (resizeMap_success h a map maxRow maxCol (row player)
              (col player) Ha Hrect Hplayer Hone Hd Hfit)
    as (b & map' & Hrun & Hab & Hrect' & _ & Hone' & Hplayer').
  exists (delete a (<[b := map']> h)), b, map'. split; [done|].
  split; [|split; [|split]].
  - apply valid_state_intro; try done; unfold INT32_MAX in *; nia.
  - rewrite lookup_delete_ne by done. apply lookup_insert_eq.
  - apply lookup_delete_eq.
  - intros x Hxa Hxb. rewrite lookup_delete_ne by done.
    by rewrite lookup_insert_ne.
Qed.

End ResizeExtras.

Lemma resize_keeps_state_valid_witness :
  ∃ h' b map',
    resizeMap (H := dungeon_symbols)
      {[ 0%nat := [["o"; "!"]; ["M"; "+"]]%char ]} (addr 0) 2 2 =
      Done (h', 4, 4, addr b) ∧
    valid_state (H := dungeon_symbols) map' 4 4 (mkPlayer 0 0 0) = true.
Proof.
  destruct (resize_keeps_state_valid (H := dungeon_symbols)
              {[ 0%nat := [["o"; "!"]; ["M"; "+"]]%char ]} 0
              [["o"; "!"]; ["M"; "+"]]%char 2 2 (mkPlayer 0 0 0))
    as (h' & b & map' & Hrun & Hvalid & _).
  - reflexivity.
  - reflexivity.
  - reflexivity.
  - unfold INT32_MAX. lia.
  - exists h', b, map'. split; [exact Hrun|exact Hvalid].
Defined.

(** ** More on the reading loops of [loadLevel] *)

Lemma get_char_good (fin : istream) (spot : ascii) :
  failbit (get_char fin spot).1 = false → good (get_char fin spot).1 = true.
Proof.
  unfold get_char. destruct (good fin); [|done].
  by destruct (skipws (buf fin)).
Qed.

Lemma get_char_at_end (fin : istream) (spot : ascii) :
  good fin = true →
  eofbit (get_char fin spot).1 = true ↔ tile_tokens fin = [].
Proof.
  intros Hgood. unfold tile_tokens, get_char. rewrite Hgood.
  rewrite <- skipws_tokens.
  destruct (skipws (buf fin)) as [|c rest] eqn:Hskip; [done|].
  rewrite filter_cons_True by (by eapply skipws_head). done.
Qed.

Section ReadTileMore.
Context `{Symbols}.
Variable h0 : gmap nat (list (list ascii)).
Variable b : nat.
Variables maxRow maxCol : Z.
Variable player : Player.

Lemma read_tile_next (map : ptr) (rw cl : Z) (fin fin' : istream)
    (spot spot' : ascii) (hh hh' : gmap nat (list (list ascii))) :
  read_tile map player rw cl (fin, spot, hh) =
    Some (Next (fin', spot', hh')) →
  tile_tokens fin ≠ [] ∧ good fin' = true.
Proof.
  pose proof (get_char_tokens fin spot) as Htoks.
  pose proof (get_char_good fin spot) as Hgood.
  unfold read_tile.
  destruct (get_char fin spot) as [fin1 spot1]. simpl in Htoks, Hgood.
  destruct (failbit fin1) eqn:Hfail; [done|].
  intros Hrun.
  assert (fin' = fin1) as ->.
  { revert Hrun.
    repeat (case_decide;
            [destruct (store_at hh map rw cl _); [|done];
             by intros [= <- _ _]|]).
    done. }
  split; [|by apply Hgood].
  intros Hnil. rewrite Hnil in Htoks. congruence.
Qed.

Lemma read_tile_return (g : list (list ascii)) (rw cl : Z) (fin : istream)
    (spot : ascii) (tokens : list ascii)
    (hh : gmap nat (list (list ascii))) :
  rect g maxRow maxCol = true → 0 ≤ rw < maxRow → 0 ≤ cl < maxCol →
  tile_tokens fin = drop (Z.to_nat (rw * maxCol + cl)) tokens →
  read_tile (addr b) player rw cl (fin, spot, <[b := g]> h0) =
    Some (Return hh) →
  hh = <[b := g]> h0 ∧
  tile_missing_or_unknown tokens maxCol player rw cl.
Proof.
  intros Hrect Hrw Hcl Htoks Hrun.
  pose proof (read_tile_step h0 b maxRow maxCol player g rw cl fin spot
                Hrect Hrw Hcl) as Hstep.
  rewrite Htoks in Hstep.
  destruct (drop (Z.to_nat (rw * maxCol + cl)) tokens) as [|t ts] eqn:Hdrop.
  { rewrite Hstep in Hrun. injection Hrun as <-. split; [done|]. left.
    apply lookup_ge_None. apply drop_nil_inv in Hdrop. lia. }
  assert (tokens !! Z.to_nat (rw * maxCol + cl) = Some t) as Ht.
  { rewrite <- (Nat.add_0_r (Z.to_nat _)), <- lookup_drop.
    by rewrite Hdrop. }
  destruct (decide (rw = row player ∧ cl = col player)) as [|Hns].
  { destruct Hstep as (fin' & g' & Hrun' & _). congruence. }
  destruct (recognized t) eqn:Hrt.
  { destruct Hstep as (fin' & g' & Hrun' & _). congruence. }
  rewrite Hstep in Hrun. injection Hrun as <-. split; [done|].
  right. split; [done|]. by exists t.
Qed.

End ReadTileMore.

Section ReadLoopsMore.
Context `{Symbols}.
Variable h0 : gmap nat (list (list ascii)).
Variable b : nat.
Variable g0 : list (list ascii).
Variables maxRow maxCol : Z.
Variable player : Player.
Variable tokens : list ascii.

Local Abbreviation read_well :=
  (tiles_read_well h0 b g0 maxRow maxCol player tokens).
Local Abbreviation refused :=
  (tiles_refused h0 b maxRow maxCol player tokens).

Lemma read_tile_well (rw cl : Z)
    (s : istream * ascii * gmap nat (list (list ascii))) :
  0 ≤ rw < maxRow → 0 ≤ cl < maxCol →
  read_well rw cl s →
  ∃ c, read_tile (addr b) player rw cl s = Some c ∧
       match c with
       | Next s' => read_well rw (cl + 1) s'
       | Break _ => False
       | Return hh => refused hh
       end.
Proof.
  intros Hrw Hcl (Hread & Hlen & Hgood).
  destruct (read_tile_inv h0 b g0 maxRow maxCol player tokens rw cl s
              Hrw Hcl Hread) as (c & Hrun & Hc).
  exists c. split; [done|].
  destruct s as [[fin spot] hh].
  pose proof Hread as (g & Hheap & Hrect & Htoks & _).
  simpl in Hheap, Htoks. subst hh.
  assert (0 ≤ rw * maxCol + cl) as Hidx by nia.
  destruct c as [[[fin' spot'] hh']|s'|hh']; [|done|].
  - split; [done|].
    apply read_tile_next in Hrun as [Hsome Hgood']. split; [|done].
    rewrite Htoks in Hsome.
    assert (Z.to_nat (rw * maxCol + cl) < length tokens)%nat; [|lia].
    destruct (decide (Z.to_nat (rw * maxCol + cl) < length tokens)%nat)
      as [|Hge]; [done|].
    rewrite drop_ge in Hsome by lia. done.
  - destruct (read_tile_return h0 b maxRow maxCol player g rw cl fin spot
                tokens hh' Hrect Hrw Hcl Htoks Hrun) as [-> Hbad].
    split; [by exists g|]. by exists rw, cl.
Qed.

Lemma read_row_well (rw : Z)
    (s : istream * ascii * gmap nat (list (list ascii))) :
  0 ≤ rw < maxRow → 0 ≤ maxCol →
  read_well rw 0 s →
  ∃ c, nest <$> for_range 0 maxCol (λ col s',
                  read_tile (addr b) player rw col s') s = Some c ∧
       match c with
       | Next s' => read_well (rw + 1) 0 s'
       | Break _ => False
       | Return hh => refused hh
       end.
Proof.
  intros Hrw Hcols Hs. unfold for_range.
  destruct (for_loop_inv (λ cl s', read_well rw cl s') refused
              (Z.to_nat (maxCol - 0)) 0
              (λ col s', read_tile (addr b) player rw col s') s Hs)
    as (res & Hrun & Hres).
  - intros cl s' Hcl Hs'. apply read_tile_well; [done|lia|done].
  - exists (nest res). rewrite Hrun. split; [done|].
    destruct res as [s'|r]; simpl; [|done].
    replace (0 + Z.of_nat (Z.to_nat (maxCol - 0))) with maxCol in Hres
      by lia.
    destruct Hres as (Hread & Hlen & Hgood).
    split; [by apply tiles_read_next_row|].
    replace ((rw + 1) * maxCol + 0) with (rw * maxCol + maxCol) by ring.
    done.
Qed.

Lemma read_loops_well (fin : istream) (spot : ascii) :
  rect g0 maxRow maxCol = true → 0 ≤ maxRow → 0 ≤ maxCol →
  tile_tokens fin = tokens →
  ∃ res,
    for_range 0 maxRow (λ row s,
      nest <$> for_range 0 maxCol (λ col s,
                 read_tile (addr b) player row col s) s)
      (fin, spot, <[b := g0]> h0) = Some res ∧
    match res with
    | inl s => read_well maxRow 0 s
    | inr hh => refused hh
    end.
Proof.
  intros Hrect Hrows Hcols Htoks. unfold for_range at 1.
  destruct (for_loop_inv (λ rw s', read_well rw 0 s') refused
              (Z.to_nat (maxRow - 0)) 0
              (λ row s, nest <$> for_range 0 maxCol (λ col s,
                          read_tile (addr b) player row col s) s)
              (fin, spot, <[b := g0]> h0))
    as (res & Hrun & Hres).
  - split; [by apply tiles_read_start|]. split; lia.
  - intros rw s' Hrw Hs'. apply read_row_well; [lia|done|done].
  - exists res. split; [done|]. destruct res as [s'|r]; [|done].
    by replace (0 + Z.of_nat (Z.to_nat (maxRow - 0))) with maxRow in Hres
      by lia.
Qed.

End ReadLoopsMore.

(** ** The search for a door or an exit *)

Section WayOut.
Context `{Symbols}.
Variable h : gmap nat (list (list ascii)).
Variable b : nat.
Variable g : list (list ascii).
Variables maxRow maxCol : Z.
Hypothesis Hd : distinct_symbols = true.
Hypothesis Hblock : h !! b = Some g.
Hypothesis Hrect : rect g maxRow maxCol = true.

Lemma find_way_out_step (rw cl : Z) (s : bool * bool) :
  0 ≤ rw < maxRow → 0 ≤ cl < maxCol →
  way_out_flags g maxRow maxCol rw cl s →
  ∃ s', find_way_out h (addr b) rw cl s = Some s' ∧
        way_out_flags g maxRow maxCol rw (cl + 1) s'.
Proof.
  intros Hrw Hcl [Hdoor Hexit]. destruct s as [hasDoor hasExit].
  simpl in Hdoor, Hexit.
  destruct (load_cell_inside g maxRow maxCol rw cl) as [t Ht]; [done..|].
  unfold find_way_out, load_at. rewrite Hblock. cbn [mbind option_bind].
  rewrite Ht. cbn [mbind option_bind].
  assert (∀ (tile : ascii) (flag flag' : bool),
    (flag = true ↔
     ∃ r c, 0 ≤ r < maxRow ∧ 0 ≤ c < maxCol ∧
            (r < rw ∨ (r = rw ∧ c < cl)) ∧ load_cell g r c = Some tile) →
    (flag' = true ↔ flag = true ∨ t = tile) →
    (flag' = true ↔
     ∃ r c, 0 ≤ r < maxRow ∧ 0 ≤ c < maxCol ∧
            (r < rw ∨ (r = rw ∧ c < cl + 1)) ∧ load_cell g r c = Some tile))
    as Hnext.
  { intros tile flag flag' Hflag Hflag'. rewrite Hflag', Hflag. split.
    - intros [(r & c & Hr & Hc & Hv & Hcell)| ->].
      + exists r, c. repeat split; (done || lia).
      + exists rw, cl. repeat split; (done || lia).
    - intros (r & c & Hr & Hc & Hv & Hcell).
      destruct (decide (r = rw ∧ c = cl)) as [[-> ->]|Hne].
      + right. congruence.
      + left. exists r, c. repeat split; (done || lia). }
  destruct (decide (t = TILE_EXIT)) as [->|Hne].
  - exists (hasDoor, true). split; [by destruct hasExit|]. split; simpl.
    + apply (Hnext TILE_DOOR hasDoor); [done|].
      split; [by left|]. intros [?|Heq]; [done|symbols_differ Hd].
    + apply (Hnext TILE_EXIT hasExit); [done|]. split; [by right|done].
  - destruct (decide (t = TILE_DOOR)) as [->|Hnd].
    + exists (true, hasExit). split; [by destruct hasDoor|]. split; simpl.
      * apply (Hnext TILE_DOOR hasDoor); [done|]. split; [by right|done].
      * apply (Hnext TILE_EXIT hasExit); [done|].
        split; [by left|]. intros [?|Heq]; [done|symbols_differ Hd].
    + exists (hasDoor, hasExit). split; [done|]. split; simpl.
      * apply (Hnext TILE_DOOR hasDoor); [done|].
        split; [by left|]. intros [?|Heq]; [done|congruence].
      * apply (Hnext TILE_EXIT hasExit); [done|].
        split; [by left|]. intros [?|Heq]; [done|congruence].
Qed.

Lemma find_way_out_loops :
  0 ≤ maxRow → 0 ≤ maxCol →
  ∃ hasDoor hasExit,
    for_each 0 maxRow (λ row s,
      for_each 0 maxCol (λ col s,
        find_way_out h (addr b) row col s) s) (false, false) =
      Some (hasDoor, hasExit) ∧
    (hasDoor = true ↔
     ∃ r c, 0 ≤ r < maxRow ∧ 0 ≤ c < maxCol ∧
            load_cell g r c = Some TILE_DOOR) ∧
    (hasExit = true ↔
     ∃ r c, 0 ≤ r < maxRow ∧ 0 ≤ c < maxCol ∧
            load_cell g r c = Some TILE_EXIT).
Proof.
  intros Hrows Hcols.
  destruct (for_each_inv (λ rw s, way_out_flags g maxRow maxCol rw 0 s)
              0 maxRow
              (λ row s, for_each 0 maxCol (λ col s,
                          find_way_out h (addr b) row col s) s)
              (false, false))
    as ([hasDoor hasExit] & Hrun & Hdoor & Hexit); [done| | |].
  - split; simpl; (split; [done|]); intros (r & c & ? & ? & ? & _); lia.
  - intros rw s Hrw Hs.
    destruct (for_each_inv (λ cl s', way_out_flags g maxRow maxCol rw cl s')
                0 maxCol
                (λ col s', find_way_out h (addr b) rw col s') s)
      as (s' & Hrun & Hdoor & Hexit); [done|done| |].
    + intros cl s' Hcl Hs'. by apply find_way_out_step.
    + exists s'. split; [done|]. split.
      * rewrite Hdoor. split; intros (r & c & Hr & Hc & Hv & Hcell);
          exists r, c; repeat split; (done || lia).
      * rewrite Hexit. split; intros (r & c & Hr & Hc & Hv & Hcell);
          exists r, c; repeat split; (done || lia).
  - exists hasDoor, hasExit. split; [done|]. simpl in Hdoor, Hexit. split.
    + rewrite Hdoor. split.
      * intros (r & c & ? & ? & _ & ?). by exists r, c.
      * intros (r & c & ? & ? & ?). exists r, c. repeat split; (done || lia).
    + rewrite Hexit. split.
      * intros (r & c & ? & ? & _ & ?). by exists r, c.
      * intros (r & c & ? & ? & ?). exists r, c. repeat split; (done || lia).
Qed.

End WayOut.

(** ** Every outcome of [loadLevel] on a level of a sound size *)

Section LoadOutcome.
Context `{Symbols}.

Local Opaque createMap for_range for_each get_char.

Lemma loadLevel_outcome (fs : string → option (list ascii))
    (fileName : string) (h : gmap nat (list (list ascii)))
    (maxRow0 maxCol0 : Z) (player0 : Player) (text : list ascii)
    (maxRow maxCol sr sc : Z) (fin : istream) :
  fs fileName = Some text →
  read_header text = Some (maxRow, maxCol, sr, sc, fin) →
  0 < maxRow → 0 < maxCol → 1 < maxRow * maxCol ≤ INT32_MAX →
  distinct_symbols = true →
  ∃ g result,
    loadLevel fs fileName h maxRow0 maxCol0 player0 =
      Some (<[fresh (dom h) := g]> h, maxRow, maxCol,
            mkPlayer sr sc (treasure player0), result) ∧
    ((result = nullptr ∧
      (¬ (0 ≤ sr < maxRow ∧ 0 ≤ sc < maxCol) ∨
       (∃ r c, 0 ≤ r < maxRow ∧ 0 ≤ c < maxCol ∧
               tile_missing_or_unknown (tile_tokens fin) maxCol
                 (mkPlayer sr sc (treasure player0)) r c) ∨
       maxRow * maxCol < Z.of_nat (length (tile_tokens fin)) ∨
       (∀ r c, 0 ≤ r < maxRow → 0 ≤ c < maxCol → ¬ (r = sr ∧ c = sc) →
          tile_tokens fin !! Z.to_nat (r * maxCol + c) ≠ Some TILE_DOOR ∧
          tile_tokens fin !! Z.to_nat (r * maxCol + c) ≠ Some TILE_EXIT))) ∨
     (result = addr (fresh (dom h)) ∧
      0 ≤ sr < maxRow ∧ 0 ≤ sc < maxCol ∧
      Z.of_nat (length (tile_tokens fin)) = maxRow * maxCol ∧
      rect g maxRow maxCol = true ∧
      load_cell g sr sc = Some TILE_PLAYER ∧
      (∀ r c, 0 ≤ r < maxRow → 0 ≤ c < maxCol → ¬ (r = sr ∧ c = sc) →
         ∃ t, tile_tokens fin !! Z.to_nat (r * maxCol + c) = Some t ∧
              recognized t = true ∧ load_cell g r c = Some t) ∧
      (∃ r c, 0 ≤ r < maxRow ∧ 0 ≤ c < maxCol ∧ ¬ (r = sr ∧ c = sc) ∧
         (tile_tokens fin !! Z.to_nat (r * maxCol + c) = Some TILE_DOOR ∨
          tile_tokens fin !! Z.to_nat (r * maxCol + c) = Some TILE_EXIT)))).
Proof.
  intros Hfs Hheader Hr Hc Hfit Hd.
  rewrite (loadLevel_after_header fs fileName h maxRow0 maxCol0 player0 text
             maxRow maxCol sr sc fin Hfs Hheader).
  rewrite wrap32_id by (unfold INT32_MIN, INT32_MAX in *; lia).
  rewrite decide_False by lia.
  destruct (createMap_spec h maxRow maxCol) as (g0 & -> & Hrect0 & _);
    [lia..|].
  set (b := fresh (dom h)).
  cbn [mbind option_bind]. cbv zeta.
  destruct (decide (sc >= maxCol ∨ sr >= maxRow)).
  { exists g0, nullptr. split; [done|]. left. split; [done|]. left. lia. }
  destruct (decide (sc < 0 ∨ sr < 0)).
  { exists g0, nullptr. split; [done|]. left. split; [done|]. left. lia. }
  set (player := mkPlayer sr sc (treasure player0)).
  destruct (read_loops_well h b g0 maxRow maxCol player (tile_tokens fin)
              fin "000"%char)
    as (res & -> & Hres); [done|lia|lia|done|].
  cbn [mbind option_bind].
  destruct res as [[[fin' spot'] hh]|hh].
  2:{ destruct Hres as [[g ->] Hbad]. exists g, nullptr.
      split; [done|]. left. split; [done|]. right. by left. }
  destruct Hres as ((g & Hheap & Hrect & Htoks & Hcells & Hrec) & Hlen & Hgood).
  simpl in Hheap, Htoks, Hgood. subst hh.
  assert (good fin' = true) as Hgood' by (apply Hgood; lia).
  pose proof (get_char_at_end fin' spot' Hgood') as Hend.
  destruct (get_char fin' spot') as [fin'' spot'']. simpl in Hend.
  rewrite Htoks in Hend.
  replace (maxRow * maxCol + 0) with (maxRow * maxCol) in * by lia.
  destruct (eofbit fin'') eqn:Heof; simpl.
  2:{ exists g, nullptr. split; [done|]. left. split; [done|].
      right. right. left.
      destruct (decide (maxRow * maxCol < Z.of_nat (length (tile_tokens fin))))
        as [|Hge]; [done|].
      assert (false = true) as Habs; [|done].
      apply Hend. apply drop_ge. lia. }
  assert (Z.of_nat (length (tile_tokens fin)) = maxRow * maxCol) as Hexact.
  { pose proof (proj1 Hend eq_refl) as Hnil.
    apply (f_equal length) in Hnil. rewrite length_drop in Hnil.
    simpl in Hnil. lia. }
  assert (∀ r c, 0 ≤ r < maxRow → 0 ≤ c < maxCol → ¬ (r = sr ∧ c = sc) →
            load_cell g r c =
            tile_tokens fin !! Z.to_nat (r * maxCol + c)) as Hother.
  { intros r c Hrr Hcc Hne. rewrite Hcells by done.
    rewrite decide_True by lia. by rewrite decide_False. }
  assert (load_cell g sr sc = Some TILE_PLAYER) as Hplayer.
  { rewrite Hcells by lia. rewrite decide_True by lia.
    by rewrite decide_True. }
  destruct (find_way_out_loops (<[b := g]> h) b g maxRow maxCol Hd)
    as (hasDoor & hasExit & -> & Hdoor & Hexit);
    [apply lookup_insert_eq|done|lia|lia|].
  cbn [mbind option_bind].
  destruct (bool_decide (hasDoor = false) && bool_decide (hasExit = false))
    eqn:Hflags.
  - exists g, nullptr. split; [done|]. left. split; [done|].
    right. right. right.
    apply andb_true_iff in Hflags as [Hnd%bool_decide_eq_true
                                        Hne%bool_decide_eq_true].
    intros r c Hrr Hcc Hns. rewrite <- Hother by done. split.
    + intros Hcell. assert (hasDoor = true); [|congruence].
      apply Hdoor. by exists r, c.
    + intros Hcell. assert (hasExit = true); [|congruence].
      apply Hexit. by exists r, c.
  - exists g, (addr b). split; [done|]. right. split; [done|].
    split; [lia|]. split; [lia|]. split; [done|]. split; [done|].
    split; [done|]. split.
    + intros r c Hrr Hcc Hns.
      destruct (Hrec r c) as (t & Ht & Hrt); [done|done|lia|done|].
      exists t. split; [done|]. split; [done|]. by rewrite Hother.
    + assert (hasDoor = true ∨ hasExit = true) as Hway.
      { destruct hasDoor; [by left|]. destruct hasExit; [by right|].
        done. }
      assert (∀ r c tile, 0 ≤ r < maxRow → 0 ≤ c < maxCol →
                load_cell g r c = Some tile → tile ≠ TILE_PLAYER →
                ¬ (r = sr ∧ c = sc) ∧
                tile_tokens fin !! Z.to_nat (r * maxCol + c) = Some tile)
        as Hfound.
      { intros r c tile Hrr Hcc Hcell Hnp.
        assert (¬ (r = sr ∧ c = sc)) as Hns
          by (intros [-> ->]; congruence).
        split; [done|]. by rewrite <- Hother. }
      destruct Hway as [Hw|Hw].
      * apply Hdoor in Hw as (r & c & Hrr & Hcc & Hcell).
        destruct (Hfound r c TILE_DOOR Hrr Hcc Hcell) as [Hns Htok];
          [intros Heq; symbols_differ Hd|].
        exists r, c. repeat split; try done; try lia. by left.
      * apply Hexit in Hw as (r & c & Hrr & Hcc & Hcell).
        destruct (Hfound r c TILE_EXIT Hrr Hcc Hcell) as [Hns Htok];
          [intros Heq; symbols_differ Hd|].
        exists r, c. repeat split; try done; try lia. by right.
Qed.

End LoadOutcome.

(** ** What [loadLevel] accepts and what it refuses *)

Section LoadExtras.
Context `{Symbols}.

Lemma createMap_total (h : gmap nat (list (list ascii))) (maxRow maxCol : Z) :
  createMap h maxRow maxCol = Some (h, nullptr) ∨
  ∃ g, createMap h maxRow maxCol =
         Some (<[fresh (dom h) := g]> h, addr (fresh (dom h))) ∧
       0 < maxRow ∧ 0 < maxCol ∧ maxRow * maxCol ≤ INT32_MAX.
Proof.
  destruct (decide (0 < maxRow ∧ 0 < maxCol ∧ maxRow * maxCol ≤ INT32_MAX))
    as [(Hr & Hc & Hfit)|Hbad].
  - right. destruct (createMap_spec h maxRow maxCol Hr Hc Hfit)
      as (g & Hrun & _). by exists g.
  - left. unfold createMap.
    destruct (decide (maxRow ≤ 0 ∨ maxCol ≤ 0)) as [|Hpos]; [done|].
    rewrite decide_True; [done|]. apply int_div_gt; [done|lia|lia].
Qed.

Local Opaque createMap for_range for_each get_char get_int.

Lemma loadLevel_accepted_header (fs : string → option (list ascii))
    (fileName : string) (h h' : gmap nat (list (list ascii)))
    (maxRow0 maxCol0 maxRow maxCol : Z) (player0 player : Player) (a : nat) :
  loadLevel fs fileName h maxRow0 maxCol0 player0 =
    Some (h', maxRow, maxCol, player, addr a) →
  distinct_symbols = true →
  ∃ text fin,
    fs fileName = Some text ∧
    read_header text = Some (maxRow, maxCol, row player, col player, fin) ∧
    0 < maxRow ∧ 0 < maxCol ∧ 1 < maxRow * maxCol ≤ INT32_MAX.
Proof.
  intros Hload Hd.
  destruct (loadLevel_accepts fs fileName h h' maxRow0 maxCol0 maxRow maxCol
              player0 player a Hload Hd)
    as (text & fin & map & Hfs & Hheader & _ & Hrect & Hplayer & _).
  destruct (load_cell_bounds _ _ _ _ _ _ Hrect Hplayer) as [Hpr Hpc].
  exists text, fin. split; [done|]. split; [done|].
  split; [lia|]. split; [lia|].
  rewrite (loadLevel_after_header fs fileName h maxRow0 maxCol0 player0 text
             maxRow maxCol (row player) (col player) fin Hfs Hheader)
    in Hload.
  destruct (decide (wrap32 (maxRow * maxCol) ≤ 1)) as [|Hmany]; [done|].
  destruct (createMap_total h maxRow maxCol)
    as [Hnull|(g & _ & _ & _ & Hfit)].
  - exfalso. rewrite Hnull in Hload. cbn [mbind option_bind] in Hload.
    cbv zeta in Hload.
    destruct (decide (col player >= maxCol ∨ row player >= maxRow)); [done|].
    destruct (decide (col player < 0 ∨ row player < 0)); [done|].
    destruct (for_range 0 maxRow _ _) as [res|] eqn:Hloops; [|done].
    apply read_loops_null in Hloops as [hh ->]; [done|lia..].
  - rewrite wrap32_id in Hmany by (unfold INT32_MIN, INT32_MAX in *; nia).
    lia.
Qed.

(** X16: [loadLevel] accepts every well-formed level file.  It returns a
    block that was not in use, holding a map of the declared size with the
    player in the start cell and, in every other cell, the token the file
    has for it; the player is given the start coordinates and keeps its
    treasure count. *)
Theorem load_accepts_well_formed_level (fs : string → option (list ascii))
    (fileName : string) (h : gmap nat (list (list ascii)))
    (maxRow0 maxCol0 : Z) (player0 : Player) (text : list ascii)
    (maxRow maxCol sr sc : Z) (fin : istream) :
  fs fileName = Some text →
  well_formed_level text maxRow maxCol sr sc fin →
  distinct_symbols = true →
  ∃ b g,
    loadLevel fs fileName h maxRow0 maxCol0 player0 =
      Done (<[b := g]> h, maxRow, maxCol,
            mkPlayer sr sc (treasure player0), addr b) ∧
    h !! b = None ∧
    rect g maxRow maxCol = true ∧
    load_cell g sr sc = Some TILE_PLAYER ∧
    ∀ r c, 0 ≤ r < maxRow → 0 ≤ c < maxCol → ¬ (r = sr ∧ c = sc) →
           load_cell g r c = tile_tokens fin !! Z.to_nat (r * maxCol + c).
Proof.
  intros Hfs (Hheader & Hr & Hc & Hfit & Hsr & Hsc & Hlen & Hrec & Hway) Hd.
  destruct (loadLevel_outcome fs fileName h maxRow0 maxCol0 player0 text
              maxRow maxCol sr sc fin Hfs Hheader Hr Hc Hfit Hd)
    as (g & result & Hrun & [[-> Hwhy]|(-> & _ & _ & _ & Hrect & Hplayer &
                                         Hcells & _)]).
  - exfalso.
    destruct Hwhy as [Hout|[(r & c & Hrr & Hcc & Hbad)|[Hlong|Hnone]]].
    + lia.
    + destruct Hbad as [Hmiss|(Hns & t & Ht & Hrt)].
      * apply lookup_ge_None in Hmiss. nia.
      * destruct (Hrec r c Hrr Hcc Hns) as (t' & Ht' & Hrt'). congruence.
    + lia.
    + destruct Hway as (r & c & Hrr & Hcc & Hns & Hw).
      destruct (Hnone r c Hrr Hcc Hns). by destruct Hw.
  - exists (fresh (dom h)), g. split; [done|].
    split; [apply not_elem_of_dom, is_fresh|]. split; [done|].
    split; [done|]. intros r c Hrr Hcc Hns.
    destruct (Hcells r c Hrr Hcc Hns) as (t & Ht & _ & Hcell). congruence.
Qed.

(** X17: a level file that [loadLevel] accepts is well-formed. *)
Theorem load_accepts_only_well_formed_levels
    (fs : string → option (list ascii)) (fileName : string)
    (h h' : gmap nat (list (list ascii))) (maxRow0 maxCol0 maxRow maxCol : Z)
    (player0 player : Player) (a : nat) :
  loadLevel fs fileName h maxRow0 maxCol0 player0 =
    Done (h', maxRow, maxCol, player, addr a) →
  distinct_symbols = true →
  ∃ text fin,
    fs fileName = Some text ∧
    well_formed_level text maxRow maxCol (row player) (col player) fin.
Proof.
  intros Hload Hd.
  destruct (loadLevel_accepted_header fs fileName h h' maxRow0 maxCol0
              maxRow maxCol player0 player a Hload Hd)
    as (text & fin & Hfs & Hheader & Hr & Hc & Hfit).
  exists text, fin. split; [done|].
  destruct (loadLevel_outcome fs fileName h maxRow0 maxCol0 player0 text
              maxRow maxCol (row player) (col player) fin Hfs Hheader Hr Hc
              Hfit Hd)
    as (g & result & Hrun & [[-> _]|(-> & Hsr & Hsc & Hlen & _ & _ &
                                      Hcells & Hway)]).
  { rewrite Hrun in Hload. done. }
  split; [done|]. split; [done|]. split; [done|]. split; [done|].
  split; [done|]. split; [done|]. split; [done|]. split; [|done].
  intros r c Hrr Hcc Hns.
  destruct (Hcells r c Hrr Hcc Hns) as (t & Ht & Hrt & _). by exists t.
Qed.

(** X18: when [loadLevel] accepts a level, the map and the player it hands
    back form a valid state (given a treasure count that is one), the
    treasure count is the one passed in, and the heap has gained the block
    of the map and is otherwise unchanged. *)
Theorem load_gives_valid_state (fs : string → option (list ascii))
    (fileName : string) (h h' : gmap nat (list (list ascii)))
    (maxRow0 maxCol0 maxRow maxCol : Z) (player0 player : Player) (a : nat) :
  loadLevel fs fileName h maxRow0 maxCol0 player0 =
    Done (h', maxRow, maxCol, player, addr a) →
  distinct_symbols = true →
  0 ≤ treasure player0 ≤ INT32_MAX →
  ∃ map,
    h !! a = None ∧ h' = <[a := map]> h ∧
    treasure player = treasure player0 ∧
    valid_state map maxRow maxCol player = true.
Proof.
  intros Hload Hd Htr.
  destruct (loadLevel_accepted_header fs fileName h h' maxRow0 maxCol0
              maxRow maxCol player0 player a Hload Hd)
    as (text & fin & Hfs & Hheader & Hr & Hc & Hfit).
  destruct (loadLevel_accepts fs fileName h h' maxRow0 maxCol0 maxRow maxCol
              player0 player a Hload Hd)
    as (text' & fin' & map & _ & _ & Hmap & Hrect & Hplayer & Hone & _).
  destruct (loadLevel_outcome fs fileName h maxRow0 maxCol0 player0 text
              maxRow maxCol (row player) (col player) fin Hfs Hheader Hr Hc
              Hfit Hd)
    as (g & result & Hrun & [[-> _]|(-> & _)]);
    rewrite Hrun in Hload; [done|].
  injection Hload as <- Hp <-.
  rewrite lookup_insert_eq in Hmap. injection Hmap as ->.
  exists map. split; [apply not_elem_of_dom, is_fresh|]. split; [done|].
  assert (treasure player = treasure player0) as Hsame
    by (by rewrite <- Hp).
  split; [done|].
  destruct (load_cell_bounds _ _ _ _ _ _ Hrect Hplayer) as [Hpr Hpc].
  apply valid_state_intro; try done; try lia; unfold INT32_MAX in *; nia.
Qed.

(** X19: a level file of a sound size with more or fewer tile tokens than
    cells is refused; the block allocated for the map is still in the heap
    that is handed back. *)
Theorem load_rejects_wrong_token_count (fs : string → option (list ascii))
    (fileName : string) (h : gmap nat (list (list ascii)))
    (maxRow0 maxCol0 : Z) (player0 : Player) (text : list ascii)
    (maxRow maxCol sr sc : Z) (fin : istream) :
  fs fileName = Some text →
  read_header text = Some (maxRow, maxCol, sr, sc, fin) →
  0 < maxRow → 0 < maxCol → 1 < maxRow * maxCol ≤ INT32_MAX →
  distinct_symbols = true →
  Z.of_nat (length (tile_tokens fin)) ≠ maxRow * maxCol →
  ∃ b g,
    loadLevel fs fileName h maxRow0 maxCol0 player0 =
      Done (<[b := g]> h, maxRow, maxCol,
            mkPlayer sr sc (treasure player0), nullptr) ∧
    h !! b = None.
Proof.
  intros Hfs Hheader Hr Hc Hfit Hd Hcount.
  destruct (loadLevel_outcome fs fileName h maxRow0 maxCol0 player0 text
              maxRow maxCol sr sc fin Hfs Hheader Hr Hc Hfit Hd)
    as (g & result & Hrun & [[-> _]|(_ & _ & _ & Hlen & _)]); [|done].
  exists (fresh (dom h)), g. split; [done|]. apply not_elem_of_dom, is_fresh.
Qed.

(** X20: a level file of a sound size in which no cell other than the
    start cell holds a door or the exit is refused. *)
Theorem load_rejects_level_without_way_out
    (fs : string → option (list ascii)) (fileName : string)
    (h : gmap nat (list (list ascii))) (maxRow0 maxCol0 : Z)
    (player0 : Player) (text : list ascii) (maxRow maxCol sr sc : Z)
    (fin : istream) :
  fs fileName = Some text →
  read_header text = Some (maxRow, maxCol, sr, sc, fin) →
  0 < maxRow → 0 < maxCol → 1 < maxRow * maxCol ≤ INT32_MAX →
  distinct_symbols = true →
  (∀ r c, 0 ≤ r < maxRow → 0 ≤ c < maxCol → ¬ (r = sr ∧ c = sc) →
     tile_tokens fin !! Z.to_nat (r * maxCol + c) ≠ Some TILE_DOOR ∧
     tile_tokens fin !! Z.to_nat (r * maxCol + c) ≠ Some TILE_EXIT) →
  ∃ h',
    loadLevel fs fileName h maxRow0 maxCol0 player0 =
      Done (h', maxRow, maxCol, mkPlayer sr sc (treasure player0), nullptr).
Proof.
  intros Hfs Hheader Hr Hc Hfit Hd Hnone.
  destruct (loadLevel_outcome fs fileName h maxRow0 maxCol0 player0 text
              maxRow maxCol sr sc fin Hfs Hheader Hr Hc Hfit Hd)
    as (g & result & Hrun & [[-> _]|(_ & _ & _ & _ & _ & _ & _ & Hway)]).
  - by eexists.
  - exfalso. destruct Hway as (r & c & Hrr & Hcc & Hns & Hw).
    destruct (Hnone r c Hrr Hcc Hns). by destruct Hw.
Qed.

(** X21: a level file of a sound size whose start cell lies outside the
    map is refused, but only after the map has been allocated: the heap that
    is handed back holds a new block with a map of the declared size, which
    no pointer designates any more. *)
Theorem load_leaks_map_on_bad_start (fs : string → option (list ascii))
    (fileName : string) (h : gmap nat (list (list ascii)))
    (maxRow0 maxCol0 : Z) (player0 : Player) (text : list ascii)
    (maxRow maxCol sr sc : Z) (fin : istream) :
  fs fileName = Some text →
  read_header text = Some (maxRow, maxCol, sr, sc, fin) →
  0 < maxRow → 0 < maxCol → 1 < maxRow * maxCol ≤ INT32_MAX →
  ¬ (0 ≤ sr < maxRow ∧ 0 ≤ sc < maxCol) →
  ∃ b g,
    loadLevel fs fileName h maxRow0 maxCol0 player0 =
      Done (<[b := g]> h, maxRow, maxCol,
            mkPlayer sr sc (treasure player0), nullptr) ∧
    h !! b = None ∧ rect g maxRow maxCol = true.
Proof.
  intros Hfs Hheader Hr Hc Hfit Hout.
  rewrite (loadLevel_after_header fs fileName h maxRow0 maxCol0 player0 text
             maxRow maxCol sr sc fin Hfs Hheader).
  rewrite wrap32_id by (unfold INT32_MIN, INT32_MAX in *; lia).
  rewrite decide_False by lia.
  destruct (createMap_spec h maxRow maxCol) as (g0 & -> & Hrect0 & _);
    [lia..|].
  cbn [mbind option_bind]. cbv zeta.
  exists (fresh (dom h)), g0.
  split; [|split; [apply not_elem_of_dom, is_fresh|done]].
  destruct (decide (sc >= maxCol ∨ sr >= maxRow)); [done|].
  rewrite decide_True by lia. done.
Qed.

(** X22: a level file that declares at most one cell is refused before
    anything is allocated: the heap and the player are as they were. *)
Theorem load_rejects_degenerate_level (fs : string → option (list ascii))
    (fileName : string) (h : gmap nat (list (list ascii)))
    (maxRow0 maxCol0 : Z) (player0 : Player) (text : list ascii)
    (maxRow maxCol sr sc : Z) (fin : istream) :
  fs fileName = Some text →
  read_header text = Some (maxRow, maxCol, sr, sc, fin) →
  INT32_MIN ≤ maxRow * maxCol ≤ 1 →
  loadLevel fs fileName h maxRow0 maxCol0 player0 =
    Done (h, maxRow, maxCol, player0, nullptr).
Proof.
  intros Hfs Hheader Hfew.
  rewrite (loadLevel_after_header fs fileName h maxRow0 maxCol0 player0 text
             maxRow maxCol sr sc fin Hfs Hheader).
  rewrite wrap32_id by (unfold INT32_MIN, INT32_MAX in *; lia).
  by rewrite decide_True by lia.
Qed.

(** X23: a level file whose header cannot be read (one of the four
    numbers is missing, is no number or does not fit an [int]) is refused. *)
Theorem load_rejects_bad_header (fs : string → option (list ascii))
    (fileName : string) (h : gmap nat (list (list ascii)))
    (maxRow0 maxCol0 : Z) (player0 : Player) (text : list ascii) :
  fs fileName = Some text →
  read_header text = None →
  ∃ h' maxRow maxCol player,
    loadLevel fs fileName h maxRow0 maxCol0 player0 =
      Done (h', maxRow, maxCol, player, nullptr).
Proof.
  intros Hfs Hheader. unfold loadLevel. rewrite Hfs.
  revert Hheader. unfold read_header.
  destruct (get_int (mkStream text false false) maxRow0) as [f1 r1] eqn:E1.
  destruct (failbit f1) eqn:F1; [by eexists _, _, _, _|].
  rewrite <- (get_int_old _ maxRow0 0) by (by rewrite E1). rewrite E1, F1.
  destruct (get_int f1 maxCol0) as [f2 r2] eqn:E2.
  destruct (failbit f2) eqn:F2; [by eexists _, _, _, _|].
  rewrite <- (get_int_old _ maxCol0 0) by (by rewrite E2). rewrite E2, F2.
  destruct (decide (wrap32 (r1 * r2) ≤ 1)); [by eexists _, _, _, _|].
  destruct (createMap_total h r1 r2) as [->|(g & -> & _)];
    cbn [mbind option_bind];
    (destruct (get_int f2 (row player0)) as [f3 r3] eqn:E3;
     destruct (failbit f3) eqn:F3; [by eexists _, _, _, _|];
     rewrite <- (get_int_old _ (row player0) 0) by (by rewrite E3);
     rewrite E3, F3; cbn [row col treasure];
     destruct (get_int f3 (col player0)) as [f4 r4] eqn:E4;
     destruct (failbit f4) eqn:F4; [by eexists _, _, _, _|];
     rewrite <- (get_int_old _ (col player0) 0) by (by rewrite E4);
     rewrite E4, F4; done).
Qed.

End LoadExtras.

(** ** Unknown tile characters *)

Section LoadUnknownTile.
Context `{Symbols}.

(** C3, as the code has it.  When the header of the level file can be read:
    - if the declared number of cells does not exceed [INT32_MAX] and the
      token for some cell other than the start cell is not one of the seven
      recognized tile characters, [loadLevel] returns the null pointer;
    - the token of the start cell is not examined.  A level that is
      well-formed, which asks nothing of that token, is accepted whatever
      the token is, and its start cell holds the player tile; and a level
      that is accepted loads to the very same result as any level with the
      same header and the same tokens in the cells other than the start
      cell. *)
Theorem load_unknown_tile_refused_unless_at_start
    (fs : string → option (list ascii)) (fileName : string)
    (h : gmap nat (list (list ascii))) (maxRow0 maxCol0 : Z)
    (player0 : Player) (text : list ascii) (maxRow maxCol sr sc : Z)
    (fin : istream) :
  fs fileName = Some text →
  read_header text = Some (maxRow, maxCol, sr, sc, fin) →
  (maxRow * maxCol ≤ INT32_MAX →
   ∀ (r c : Z) (t : ascii),
     0 ≤ r < maxRow → 0 ≤ c < maxCol → ¬ (r = sr ∧ c = sc) →
     tile_tokens fin !! Z.to_nat (r * maxCol + c) = Some t →
     recognized t = false →
     ∃ h' player',
       loadLevel fs fileName h maxRow0 maxCol0 player0 =
         Done (h', maxRow, maxCol, player', nullptr)) ∧
  (distinct_symbols = true →
   well_formed_level text maxRow maxCol sr sc fin →
   ∀ t : ascii,
     tile_tokens fin !! Z.to_nat (sr * maxCol + sc) = Some t →
     ∃ b g,
       loadLevel fs fileName h maxRow0 maxCol0 player0 =
         Done (<[b := g]> h, maxRow, maxCol,
               mkPlayer sr sc (treasure player0), addr b) ∧
       h !! b = None ∧
       rect g maxRow maxCol = true ∧
       load_cell g sr sc = Some TILE_PLAYER ∧
       ∀ r c, 0 ≤ r < maxRow → 0 ≤ c < maxCol → ¬ (r = sr ∧ c = sc) →
              load_cell g r c =
                tile_tokens fin !! Z.to_nat (r * maxCol + c)) ∧
  (distinct_symbols = true →
   ∀ (fs' : string → option (list ascii)) (fileName' : string)
     (text' : list ascii) (fin' : istream),
     fs' fileName' = Some text' →
     read_header text' = Some (maxRow, maxCol, sr, sc, fin') →
     length (tile_tokens fin') = length (tile_tokens fin) →
     (∀ r c, 0 ≤ r < maxRow → 0 ≤ c < maxCol → ¬ (r = sr ∧ c = sc) →
        tile_tokens fin' !! Z.to_nat (r * maxCol + c) =
          tile_tokens fin !! Z.to_nat (r * maxCol + c)) →
     ∀ (h' : gmap nat (list (list ascii))) (player : Player) (a : nat),
       loadLevel fs fileName h maxRow0 maxCol0 player0 =
         Done (h', maxRow, maxCol, player, addr a) →
       loadLevel fs' fileName' h maxRow0 maxCol0 player0 =
         Done (h', maxRow, maxCol, player, addr a)).
Proof.
  intros Hfs Hheader. split; [|split].
  - intros Hfit r c t. by apply loadLevel_rejects with text.
  - intros Hd (_ & Hr & Hc & Hfit & Hsr & Hsc & Hlen & Hrec & Hway) t _.
    destruct (loadLevel_outcome fs fileName h maxRow0 maxCol0 player0 text
                maxRow maxCol sr sc fin Hfs Hheader Hr Hc Hfit Hd)
      as (g & result & Hrun & [[-> Hwhy]|(-> & _ & _ & _ & Hrect & Hplayer &
                                           Hcells & _)]).
    + exfalso.
      destruct Hwhy as [Hout|[(r & c & Hrr & Hcc & Hbad)|[Hlong|Hnone]]].
      * lia.
      * destruct Hbad as [Hmiss|(Hns & t' & Ht & Hrt)].
        -- apply lookup_ge_None in Hmiss. nia.
        -- destruct (Hrec r c Hrr Hcc Hns) as (t'' & Ht' & Hrt'). congruence.
      * lia.
      * destruct Hway as (r & c & Hrr & Hcc & Hns & Hw).
        destruct (Hnone r c Hrr Hcc Hns). by destruct Hw.
    + exists (fresh (dom h)), g. split; [done|].
      split; [apply not_elem_of_dom, is_fresh|]. split; [done|].
      split; [done|]. intros r c Hrr Hcc Hns.
      destruct (Hcells r c Hrr Hcc Hns) as (t' & Ht & _ & Hcell). congruence.
  - intros Hd fs' fileName' text' fin' Hfs' Hheader' Hsame Hagree h' player a
      Hload.
    destruct (loadLevel_accepted_header fs fileName h h' maxRow0 maxCol0
                maxRow maxCol player0 player a Hload Hd)
      as (text0 & fin0 & Hfs0 & _ & Hr & Hc & Hfit).
    destruct (loadLevel_outcome fs fileName h maxRow0 maxCol0 player0 text
                maxRow maxCol sr sc fin Hfs Hheader Hr Hc Hfit Hd)
      as (g & result & Hrun & [[-> _]|(-> & Hsr & Hsc & Hlen & Hrect &
                                        Hplayer & Hcells & Hway)]).
    { rewrite Hrun in Hload. done. }
    rewrite <- Hload, Hrun.
    destruct (loadLevel_outcome fs' fileName' h maxRow0 maxCol0 player0 text'
                maxRow maxCol sr sc fin' Hfs' Hheader' Hr Hc Hfit Hd)
      as (g' & result' & Hrun' & [[-> Hwhy]|(-> & _ & _ & _ & Hrect' &
                                              Hplayer' & Hcells' & _)]).
    + exfalso.
      destruct Hwhy as [Hout|[(r & c & Hrr & Hcc & Hbad)|[Hlong|Hnone]]].
      * lia.
      * destruct Hbad as [Hmiss|(Hns & t & Ht & Hrt)].
        -- apply lookup_ge_None in Hmiss. nia.
        -- destruct (Hcells r c Hrr Hcc Hns) as (t' & Ht' & Hrt' & _).
           rewrite Hagree in Ht by done. congruence.
      * lia.
      * destruct Hway as (r & c & Hrr & Hcc & Hns & Hw).
        destruct (Hnone r c Hrr Hcc Hns).
        rewrite !Hagree in * by done. by destruct Hw.
    + rewrite Hrun'. assert (g' = g) as ->; [|done].
      apply (grid_ext g g' maxRow maxCol); [done|done|].
      intros r c Hrr Hcc.
      destruct (decide (r = sr ∧ c = sc)) as [[-> ->]|Hns]; [congruence|].
      destruct (Hcells r c Hrr Hcc Hns) as (t & Ht & _ & ->).
      destruct (Hcells' r c Hrr Hcc Hns) as (t' & Ht' & _ & ->).
      rewrite Hagree in Ht' by done. congruence.
Qed.

End LoadUnknownTile.

Lemma sample_level_well_formed :
  well_formed_level (H := dungeon_symbols) sample_level 2 2 0 1
    (mkStream (list_ascii_of_string " - x ! -") false false).
Proof.
  split; [reflexivity|]. split; [lia|]. split; [lia|].
  split; [unfold INT32_MAX; lia|]. split; [lia|]. split; [lia|].
  split; [reflexivity|]. split.
  - intros r c Hr Hc Hns.
    assert (r = 0 ∨ r = 1) as Hrr by lia.
    assert (c = 0 ∨ c = 1) as Hcc by lia.
    destruct Hrr as [Hrr|Hrr], Hcc as [Hcc|Hcc]; subst r c.
    + exists "-"%char. split; reflexivity.
    + exfalso. apply Hns. split; reflexivity.
    + exists "!"%char. split; reflexivity.
    + exists "-"%char. split; reflexivity.
  - exists 1, 0. split; [lia|]. split; [lia|]. split; [lia|].
    right. reflexivity.
Defined.

Lemma load_unknown_tile_refused_unless_at_start_witness :
  (∃ h' player',
     loadLevel (H := dungeon_symbols) sample_files "broken.txt" ∅ 0 0
       (mkPlayer 0 0 0) = Done (h', 2, 2, player', nullptr)) ∧
  (∃ b g,
     loadLevel (H := dungeon_symbols) sample_files "sample.txt" ∅ 0 0
       (mkPlayer 0 0 0) = Done (<[b := g]> ∅, 2, 2, mkPlayer 0 1 0, addr b) ∧
     load_cell g 0 1 = Some "o"%char) ∧
  loadLevel (H := dungeon_symbols) (λ _, Some plain_level) "plain.txt" ∅ 0 0
    (mkPlayer 0 0 0) =
    Done (<[0%nat := [["-"; "o"]; ["!"; "-"]]%char]> ∅, 2, 2, mkPlayer 0 1 0,
          addr 0).
Proof.
  split; [|split].
  - destruct (load_unknown_tile_refused_unless_at_start
                (H := dungeon_symbols) sample_files "broken.txt" ∅ 0 0
                (mkPlayer 0 0 0) broken_level 2 2 0 0
                (mkStream (list_ascii_of_string " - x ! -") false false))
      as (Hrefused & _); [reflexivity|reflexivity|].
    apply (Hrefused ltac:(unfold INT32_MAX; lia) 0 1 "x"%char);
      [lia|lia|lia|reflexivity|reflexivity].
  - destruct (load_unknown_tile_refused_unless_at_start
                (H := dungeon_symbols) sample_files "sample.txt" ∅ 0 0
                (mkPlayer 0 0 0) sample_level 2 2 0 1
                (mkStream (list_ascii_of_string " - x ! -") false false))
      as (_ & Haccepted & _); [reflexivity|reflexivity|].
    destruct (Haccepted eq_refl sample_level_well_formed "x"%char eq_refl)
      as (b & g & Hrun & _ & _ & Hplayer & _).
    exists b, g. split; [exact Hrun|exact Hplayer].
  - destruct (load_unknown_tile_refused_unless_at_start
                (H := dungeon_symbols) sample_files "sample.txt" ∅ 0 0
                (mkPlayer 0 0 0) sample_level 2 2 0 1
                (mkStream (list_ascii_of_string " - x ! -") false false))
      as (_ & _ & Hsame); [reflexivity|reflexivity|].
    apply (Hsame eq_refl (λ _, Some plain_level) "plain.txt"%string
             plain_level
             (mkStream (list_ascii_of_string " - - ! -") false false)).
    + reflexivity.
    + reflexivity.
    + reflexivity.
    + intros r c Hr Hc Hns.
      assert (r = 0 ∨ r = 1) as Hrr by lia.
      assert (c = 0 ∨ c = 1) as Hcc by lia.
      destruct Hrr as [Hrr|Hrr], Hcc as [Hcc|Hcc]; subst r c;
        first [reflexivity | exfalso; apply Hns; split; reflexivity].
    + vm_compute. reflexivity.
Defined.

Lemma load_accepts_well_formed_level_witness :
  ∃ b g,
    loadLevel (H := dungeon_symbols) sample_files "sample.txt" ∅ 0 0
      (mkPlayer 0 0 0) = Done (<[b := g]> ∅, 2, 2, mkPlayer 0 1 0, addr b) ∧
    load_cell g 0 1 = Some "o"%char.
Proof.
  destruct (load_accepts_well_formed_level (H := dungeon_symbols)
              sample_files "sample.txt" ∅ 0 0 (mkPlayer 0 0 0) sample_level
              2 2 0 1
              (mkStream (list_ascii_of_string " - x ! -") false false))
    as (b & g & Hrun & _ & _ & Hplayer & _).
  - reflexivity.
  - exact sample_level_well_formed.
  - reflexivity.
  - exists b, g. split; [exact Hrun|exact Hplayer].
Defined.

Lemma load_accepts_only_well_formed_levels_witness :
  ∃ text fin,
    sample_files "sample.txt" = Some text ∧
    well_formed_level (H := dungeon_symbols) text 2 2 0 1 fin.
Proof.
  apply (load_accepts_only_well_formed_levels (H := dungeon_symbols)
           sample_files "sample.txt" ∅
           (<[0%nat := [["-"; "o"]; ["!"; "-"]]%char]> ∅)
           0 0 2 2 (mkPlayer 0 0 0) (mkPlayer 0 1 0) 0).
  - vm_compute. reflexivity.
  - reflexivity.
Defined.

Lemma load_gives_valid_state_witness :
  ∃ map : list (list ascii),
    valid_state (H := dungeon_symbols) map 2 2 (mkPlayer 0 1 0) = true.
Proof.
  destruct (load_gives_valid_state (H := dungeon_symbols)
              sample_files "sample.txt" ∅
              (<[0%nat := [["-"; "o"]; ["!"; "-"]]%char]> ∅)
              0 0 2 2 (mkPlayer 0 0 0) (mkPlayer 0 1 0) 0)
    as (map & _ & _ & _ & Hvalid).
  - vm_compute. reflexivity.
  - reflexivity.
  - unfold INT32_MAX. simpl. lia.
  - exists map. exact Hvalid.
Defined.

Lemma load_rejects_wrong_token_count_witness :
  ∃ b g,
    loadLevel (H := dungeon_symbols)
      (λ _, Some (list_ascii_of_string "2 2 0 0 - ! -")) "short.txt" ∅ 0 0
      (mkPlayer 0 0 0) = Done (<[b := g]> ∅, 2, 2, mkPlayer 0 0 0, nullptr) ∧
    (∅ : gmap nat (list (list ascii))) !! b = None.
Proof.
  apply (load_rejects_wrong_token_count (H := dungeon_symbols)
           (λ _, Some (list_ascii_of_string "2 2 0 0 - ! -")) "short.txt"
           ∅ 0 0 (mkPlayer 0 0 0) (list_ascii_of_string "2 2 0 0 - ! -")
           2 2 0 0 (mkStream (list_ascii_of_string " - ! -") false false)).
  - reflexivity.
  - reflexivity.
  - lia.
  - lia.
  - unfold INT32_MAX. lia.
  - reflexivity.
  - simpl. lia.
Defined.

Lemma load_rejects_level_without_way_out_witness :
  ∃ h',
    loadLevel (H := dungeon_symbols)
      (λ _, Some (list_ascii_of_string "1 2 0 0 - $")) "closed.txt" ∅ 0 0
      (mkPlayer 0 0 0) = Done (h', 1, 2, mkPlayer 0 0 0, nullptr).
Proof.
  apply (load_rejects_level_without_way_out (H := dungeon_symbols)
           (λ _, Some (list_ascii_of_string "1 2 0 0 - $")) "closed.txt"
           ∅ 0 0 (mkPlayer 0 0 0) (list_ascii_of_string "1 2 0 0 - $")
           1 2 0 0 (mkStream (list_ascii_of_string " - $") false false)).
  - reflexivity.
  - reflexivity.
  - lia.
  - lia.
  - unfold INT32_MAX. lia.
  - reflexivity.
  - intros r c Hr Hc Hns.
    assert (r = 0) as -> by lia.
    assert (c = 1) as -> by lia.
    split; discriminate.
Defined.

Lemma load_leaks_map_on_bad_start_witness :
  ∃ b g,
    loadLevel (H := dungeon_symbols)
      (λ _, Some (list_ascii_of_string "2 2 5 0 - - ! -")) "start.txt" ∅ 0 0
      (mkPlayer 0 0 0) = Done (<[b := g]> ∅, 2, 2, mkPlayer 5 0 0, nullptr) ∧
    (∅ : gmap nat (list (list ascii))) !! b = None ∧ rect g 2 2 = true.
Proof.
  apply (load_leaks_map_on_bad_start (H := dungeon_symbols)
           (λ _, Some (list_ascii_of_string "2 2 5 0 - - ! -")) "start.txt"
           ∅ 0 0 (mkPlayer 0 0 0) (list_ascii_of_string "2 2 5 0 - - ! -")
           2 2 5 0 (mkStream (list_ascii_of_string " - - ! -") false false)).
  - reflexivity.
  - reflexivity.
  - lia.
  - lia.
  - unfold INT32_MAX. lia.
  - lia.
Defined.

Lemma load_rejects_degenerate_level_witness :
  loadLevel (H := dungeon_symbols)
    (λ _, Some (list_ascii_of_string "1 1 0 0 -")) "tiny.txt" ∅ 7 7
    (mkPlayer 3 3 0) = Done (∅, 1, 1, mkPlayer 3 3 0, nullptr).
Proof.
  apply (load_rejects_degenerate_level (H := dungeon_symbols)
           (λ _, Some (list_ascii_of_string "1 1 0 0 -")) "tiny.txt"
           ∅ 7 7 (mkPlayer 3 3 0) (list_ascii_of_string "1 1 0 0 -")
           1 1 0 0 (mkStream (list_ascii_of_string " -") false false)).
  - reflexivity.
  - reflexivity.
  - unfold INT32_MIN. lia.
Defined.

Lemma load_rejects_bad_header_witness :
  ∃ h' maxRow maxCol player,
    loadLevel (H := dungeon_symbols)
      (λ _, Some (list_ascii_of_string "2 two 0 0 - !")) "words.txt" ∅ 0 0
      (mkPlayer 0 0 0) = Done (h', maxRow, maxCol, player, nullptr).
Proof.
  apply (load_rejects_bad_header (H := dungeon_symbols)
           (λ _, Some (list_ascii_of_string "2 two 0 0 - !")) "words.txt"
           ∅ 0 0 (mkPlayer 0 0 0) (list_ascii_of_string "2 two 0 0 - !")).
  - reflexivity.
  - reflexivity.
Defined.
